(** * SkipList.hpp: a pointer-linked skip list, and its specification

    The development embeds [src/app/SkipList.hpp].  Nodes live in a heap
    (a list of nodes indexed by address), the four links of a node are
    pointers into that heap, and every C++ loop is a recursive function
    over a bound on the number of its iterations.

    The first part is the program.  The second part describes the heap of
    a well-formed list by its columns (one per sentinel and per key) and
    proves that the constructor builds such a heap, that [insert] and
    writes through [find] keep it, and what each query returns on it.  The
    third part states the specification of the list on the lists a program
    can build.  The fourth part proves more of what the code does on these
    lists: what each call leaves alone, how many nodes the heap holds and
    that the destructor deletes them all, what [print] writes, and what the
    coins of the two key types are. *)

From Stdlib Require Import NArith ZArith String Ascii Lia.
From stdpp Require Import base numbers option list sorting relations.

Set Default Proof Using "Type*".
Local Open Scope N_scope.

(** ** Outcomes of an operation *)

(** [Ok a]: the call returns [a].  [KeyNotFound]: the call throws
    [RuntimeException("Key not found")].  [Fault]: the call dereferences
    [nullptr] or an address that was never allocated.  [OutOfFuel]: a loop
    ran longer than the bound it was given. *)
Inductive result (A : Type) : Type :=
| Ok (a : A)
| KeyNotFound
| Fault
| OutOfFuel.
Arguments Ok {A} a.
Arguments KeyNotFound {A}.
Arguments Fault {A}.
Arguments OutOfFuel {A}.

Definition bind {A B : Type} (r : result A) (f : A → result B) : result B :=
  match r with
  | Ok a => f a
  | KeyNotFound => KeyNotFound
  | Fault => Fault
  | OutOfFuel => OutOfFuel
  end.

Notation "'let*' x ':=' e 'in' k" := (bind e (fun x => k))
  (at level 10, x pattern, e at level 100, k at level 200).

(** ** What the template asks of [Key] and [Value] *)

(** [T()]: the value-initialised object of the default constructor. *)
Class DefaultCtor (T : Type) := default_ctor : T.

(** The operators [SkipList<Key, Value>] applies to keys, and the
    [flipCoin] overload selected for the key type. *)
Class KeyOps (Key : Type) := {
  key_eq : Key → Key → bool;        (* operator== *)
  key_ge : Key → Key → bool;        (* operator>= *)
  flipCoin : Key → N → bool;
}.

(** [operator!=] *)
Definition key_ne `{KeyOps Key} (a b : Key) : bool := negb (key_eq a b).

(** The operators form a decidable total order. *)
Class KeyLaws (Key : Type) `{KeyOps Key} : Prop := {
  key_eq_spec (a b : Key) : key_eq a b = true ↔ a = b;
  key_ge_total (a b : Key) : key_ge a b = true ∨ key_ge b a = true;
  key_ge_antisym (a b : Key) : key_ge a b = true → key_ge b a = true → a = b;
  key_ge_trans (a b c : Key) :
    key_ge a b = true → key_ge b c = true → key_ge a c = true;
}.

(** ** flipCoin *)

(** Conversion of an integer to [char] (8 bits, two's complement). *)
Definition to_char (z : Z) : Z := ((z + 128) mod 256 - 128)%Z.

(** [(c & (1 << previousFlips)) != 0], with [c] promoted to [int]. *)
Definition coin_bit (c : Z) (previousFlips : N) : bool :=
  let previousFlips := previousFlips mod 8 in
  negb (Z.land c (Z.shiftl 1 (Z.of_N previousFlips)) =? 0)%Z.

(** [flipCoin(unsigned key, unsigned previousFlips)] *)
Definition flipCoin_unsigned (key : N) (previousFlips : N) : bool :=
  let first8Bits := N.land key 0xFF000000 / 0x01000000 in
  let next8Bits := N.land key 0x00FF0000 / 0x00010000 in
  let andThen := N.land key 0x0000FF00 / 0x00000100 in
  let lastBits := N.land key 0x000000FF in
  let c := to_char (Z.of_N
    (N.lxor (N.lxor (N.lxor first8Bits next8Bits) andThen) lastBits)) in
  coin_bit c previousFlips.

(** [key[j]] of a [std::string]: the character at [j], and the null
    character at [j == key.length()]. *)
Definition char_at (key : string) (j : nat) : Z :=
  match String.get j key with
  | Some a => to_char (Z.of_N (N_of_ascii a))
  | None => 0%Z
  end.

(** [flipCoin(std::string key, unsigned previousFlips)] *)
Definition flipCoin_string (key : string) (previousFlips : N) : bool :=
  let c := char_at key 0 in
  let c := fold_left (λ c j, to_char (Z.lxor c (char_at key j)))
             (seq 1 (String.length key - 1)) c in
  coin_bit c previousFlips.

(** [unsigned] keys: the values below [2^32], compared as numbers. *)
#[export] Instance unsigned_ops : KeyOps N :=
  {| key_eq := N.eqb; key_ge := λ a b, N.leb b a; flipCoin := flipCoin_unsigned |}.
#[export] Instance unsigned_ctor : DefaultCtor N := 0.

(** [std::string] keys: [operator>=] compares lexicographically, character
    by character as unsigned bytes. *)
#[export] Instance string_ops : KeyOps string :=
  {| key_eq := String.eqb; key_ge := λ a b, String.leb b a;
     flipCoin := flipCoin_string |}.
#[export] Instance string_ctor : DefaultCtor string := EmptyString.

(** ** Nodes and the heap *)

Abbreviation addr := nat.
(** A pointer to a node; [None] is [nullptr]. *)
Abbreviation ptr := (option addr).

Section SkipList.
Context {Key Value : Type}.
Context `{KO : KeyOps Key} `{KD : DefaultCtor Key} `{VD : DefaultCtor Value}.

Record SkipNode := mkNode {
  key : Key;
  value : Value;
  p_inf : bool;
  n_inf : bool;
  next : ptr;
  previous : ptr;
  top : ptr;
  bottom : ptr;
}.

(** [SkipNode(k, v)] and [SkipNode()] *)
Definition node_kv (k : Key) (v : Value) : SkipNode :=
  mkNode k v false false None None None None.
Definition node_default : SkipNode := node_kv default_ctor default_ctor.

Definition set_value (v : Value) (n : SkipNode) : SkipNode :=
  mkNode (key n) v (p_inf n) (n_inf n) (next n) (previous n) (top n) (bottom n).
Definition set_p_inf (b : bool) (n : SkipNode) : SkipNode :=
  mkNode (key n) (value n) b (n_inf n) (next n) (previous n) (top n) (bottom n).
Definition set_n_inf (b : bool) (n : SkipNode) : SkipNode :=
  mkNode (key n) (value n) (p_inf n) b (next n) (previous n) (top n) (bottom n).
Definition set_next (p : ptr) (n : SkipNode) : SkipNode :=
  mkNode (key n) (value n) (p_inf n) (n_inf n) p (previous n) (top n) (bottom n).
Definition set_previous (p : ptr) (n : SkipNode) : SkipNode :=
  mkNode (key n) (value n) (p_inf n) (n_inf n) (next n) p (top n) (bottom n).
Definition set_top (p : ptr) (n : SkipNode) : SkipNode :=
  mkNode (key n) (value n) (p_inf n) (n_inf n) (next n) (previous n) p (bottom n).
Definition set_bottom (p : ptr) (n : SkipNode) : SkipNode :=
  mkNode (key n) (value n) (p_inf n) (n_inf n) (next n) (previous n) (top n) p.

(** The heap: the node at address [a] is [h !! a]. *)
Abbreviation heap := (list SkipNode).

(** [new SkipNode(...)]: the node is placed at the first unused address. *)
Definition new (h : heap) (n : SkipNode) : heap * ptr :=
  (h ++ [n], Some (length h)).

(** [*p] *)
Definition deref (h : heap) (p : ptr) : result SkipNode :=
  match p with
  | None => Fault
  | Some a => match h !! a with Some n => Ok n | None => Fault end
  end.

(** [p->field = x], as [store h p (set_field x)] *)
Definition store (h : heap) (p : ptr) (f : SkipNode → SkipNode) : result heap :=
  match p with
  | None => Fault
  | Some a => match h !! a with Some n => Ok (<[a := f n]> h) | None => Fault end
  end.

(** ** The list *)

(** The private members of [SkipList], and the heap its nodes live in.
    The heap is unbounded, and so are the two counters: [num_keys] counts
    nodes that are allocated at addresses of their own, and [num_layers]
    exceeds the promotion cutoff by at most one, so on a machine memory is
    exhausted long before either reaches the end of its type. *)
Record SkipList := mkSkipList {
  num_layers : N;
  num_keys : N;
  head : ptr;
  tail : ptr;
  mem : heap;
}.

Definition with_mem (s : SkipList) (h : heap) : SkipList :=
  mkSkipList (num_layers s) (num_keys s) (head s) (tail s) h.

(** [SkipList::SkipList()] *)
Definition SkipList_ctor : result SkipList :=
  let '(h, head) := new [] node_default in
  let '(h, tail) := new h node_default in
  let '(h, temp_head) := new h node_default in
  let '(h, temp_tail) := new h node_default in
  let* h := store h head (set_n_inf true) in
  let* h := store h tail (set_p_inf true) in
  let* h := store h temp_head (set_n_inf true) in
  let* h := store h temp_tail (set_p_inf true) in
  let* h := store h head (set_next tail) in
  let* h := store h tail (set_previous head) in
  let* h := store h temp_head (set_next temp_tail) in
  let* h := store h temp_tail (set_previous temp_head) in
  let* h := store h head (set_bottom temp_head) in
  let* h := store h tail (set_bottom temp_tail) in
  let* h := store h temp_head (set_top head) in
  let* h := store h temp_tail (set_top tail) in
  Ok (mkSkipList 2 0 head tail h).

(** [size()], [isEmpty()], [numLayers()] *)
Definition size (s : SkipList) : N := num_keys s.
Definition isEmpty (s : SkipList) : bool := num_keys s =? 0.
Definition numLayers (s : SkipList) : N := num_layers s.

(** The inner loop of every search:
    [while (!temp->next->p_inf && k >= temp->next->key) temp = temp->next;] *)
Fixpoint walk_right (fuel : nat) (h : heap) (k : Key) (temp : ptr) : result ptr :=
  match fuel with
  | O => OutOfFuel
  | S fuel =>
    let* n := deref h temp in
    let* nx := deref h (next n) in
    if negb (p_inf nx) && key_ge k (key nx)
    then walk_right fuel h k (next n)
    else Ok temp
  end.

(** The outer loop of every search:
    [while (temp->bottom) { temp = temp->bottom; <inner loop> }] *)
Fixpoint descend (fuel : nat) (h : heap) (k : Key) (temp : ptr) : result ptr :=
  match fuel with
  | O => OutOfFuel
  | S fuel =>
    let* n := deref h temp in
    match bottom n with
    | None => Ok temp
    | Some b =>
      let* temp := walk_right (length h) h k (Some b) in
      descend fuel h k temp
    end
  end.

(** The search that opens [height], [nextKey], [previousKey], [find] and
    [insert]: the same two loops, started at [head].  No loop visits a node
    twice on a well-formed list, so the number of nodes bounds each. *)
Definition locate (s : SkipList) (k : Key) : result ptr :=
  descend (S (length (mem s))) (mem s) k (head s).

(** [while (temp->top) { temp = temp->top; height++; }] *)
Fixpoint count_tops (fuel : nat) (h : heap) (temp : ptr) (height : N) : result N :=
  match fuel with
  | O => OutOfFuel
  | S fuel =>
    let* n := deref h temp in
    match top n with
    | None => Ok height
    | Some t => count_tops fuel h (Some t) (height + 1)
    end
  end.

(** [SkipList::height] *)
Definition height (s : SkipList) (k : Key) : result N :=
  let* temp := locate s k in
  let* n := deref (mem s) temp in
  if key_ne (key n) k || n_inf n then KeyNotFound
  else count_tops (S (length (mem s))) (mem s) temp 1.

(** [SkipList::nextKey] *)
Definition nextKey (s : SkipList) (k : Key) : result Key :=
  let* temp := locate s k in
  let* n := deref (mem s) temp in
  if key_ne (key n) k || n_inf n then KeyNotFound
  else
    let* nx := deref (mem s) (next n) in
    if p_inf nx then KeyNotFound else Ok (key nx).

(** [SkipList::previousKey] *)
Definition previousKey (s : SkipList) (k : Key) : result Key :=
  let* temp := locate s k in
  let* n := deref (mem s) temp in
  if key_ne (key n) k || n_inf n then KeyNotFound
  else
    let* pv := deref (mem s) (previous n) in
    if n_inf pv then KeyNotFound else Ok (key pv).

(** [SkipList::find], both overloads.  The reference [temp->value] it
    returns is the address of the node that holds the value. *)
Definition find_ref (s : SkipList) (k : Key) : result ptr :=
  let* temp := locate s k in
  let* n := deref (mem s) temp in
  if key_eq (key n) k && negb (n_inf n) then Ok temp else KeyNotFound.

(** Reading through the reference that [find] returns. *)
Definition find (s : SkipList) (k : Key) : result Value :=
  let* r := find_ref s k in
  let* n := deref (mem s) r in
  Ok (value n).

(** Writing through a reference that [find] returned: [sl.find(k) = v]. *)
Definition assign (s : SkipList) (r : ptr) (v : Value) : result SkipList :=
  let* h := store (mem s) r (set_value v) in
  Ok (with_mem s h).

(** The cutoff of [insert].  [ceil(log2(num_keys))] is computed in double
    precision; [N.log2_up] is its value. *)
Definition max_flips_of (num_keys : N) : N :=
  if num_keys <=? 16 then 12 else 3 * N.log2_up num_keys.

(** The body of [if (height + 1 >= num_layers)] in [insert]: a new top
    layer of two sentinels. *)
Definition add_layer (s : SkipList) : result SkipList :=
  let num_layers := num_layers s + 1 in
  let '(h, temp_head) := new (mem s) node_default in
  let '(h, temp_tail) := new h node_default in
  let* h := store h temp_head (set_n_inf true) in
  let* h := store h temp_tail (set_p_inf true) in
  let* h := store h temp_head (set_next temp_tail) in
  let* h := store h temp_tail (set_previous temp_head) in
  let* h := store h temp_head (set_bottom (head s)) in
  let* h := store h temp_tail (set_bottom (tail s)) in
  let* h := store h (head s) (set_top temp_head) in
  let* h := store h (tail s) (set_top temp_tail) in
  Ok (mkSkipList num_layers (num_keys s) temp_head temp_tail h).

(** [while (temp->previous && temp->top == nullptr) temp = temp->previous;] *)
Fixpoint walk_left (fuel : nat) (h : heap) (temp : ptr) : result ptr :=
  match fuel with
  | O => OutOfFuel
  | S fuel =>
    let* n := deref h temp in
    match previous n, top n with
    | Some _, None => walk_left fuel h (previous n)
    | _, _ => Ok temp
    end
  end.

(** Linking a freshly allocated node after [temp] in its layer:
    [n->next = temp->next; n->previous = temp;
     temp->next->previous = n; temp->next = n;] *)
Definition link_after (h : heap) (temp n : ptr) : result heap :=
  let* t := deref h temp in
  let* h := store h n (set_next (next t)) in
  let* h := store h n (set_previous temp) in
  let* t := deref h temp in
  let* h := store h (next t) (set_previous n) in
  store h temp (set_next n).

(** The promotion loop of [insert]:
    [while (flipCoin(k, height) && height + 1 < max_flips) { ... }].
    It returns the list together with the final value of [height]. *)
Fixpoint promote (fuel : nat) (s : SkipList) (k : Key) (v : Value)
    (max_flips height : N) (temp new_node : ptr) : result (SkipList * N) :=
  match fuel with
  | O => OutOfFuel
  | S fuel =>
    if flipCoin k height && (height + 1 <? max_flips) then
      let height := height + 1 in
      let* s := if num_layers s <=? height + 1 then add_layer s else Ok s in
      let* temp := walk_left (length (mem s)) (mem s) temp in
      let* t := deref (mem s) temp in
      let temp := top t in
      let '(h, new_node_top) := new (mem s) (node_kv k v) in
      let* h := link_after h temp new_node_top in
      let* h := store h new_node_top (set_bottom new_node) in
      let* h := store h new_node (set_top new_node_top) in
      promote fuel (with_mem s h) k v max_flips height temp new_node_top
    else Ok (s, height)
  end.

(** [SkipList::insert], with the number of promotions it performed. *)
Definition insert_flips (s : SkipList) (k : Key) (v : Value)
    : result (bool * SkipList * N) :=
  let* temp := locate s k in
  let* t := deref (mem s) temp in
  if negb (n_inf t) && key_eq (key t) k then Ok (false, s, 0)
  else
    let '(h, new_node) := new (mem s) (node_kv k v) in
    let* h := link_after h temp new_node in
    let s := mkSkipList (num_layers s) (num_keys s + 1) (head s) (tail s) h in
    let max_flips := max_flips_of (num_keys s) in
    let* sf := promote (N.to_nat max_flips) s k v max_flips 0 temp new_node in
    Ok (true, sf.1, sf.2).

(** [SkipList::insert] *)
Definition insert (s : SkipList) (k : Key) (v : Value) : result (bool * SkipList) :=
  let* r := insert_flips s k v in Ok (r.1.1, r.1.2).

(** [while (temp->bottom) temp = temp->bottom;] *)
Fixpoint to_bottom (fuel : nat) (h : heap) (temp : ptr) : result ptr :=
  match fuel with
  | O => OutOfFuel
  | S fuel =>
    let* n := deref h temp in
    match bottom n with
    | None => Ok temp
    | Some b => to_bottom fuel h (Some b)
    end
  end.

(** [while (temp->next->p_inf == false)
       { keys.push_back(temp->next->key); temp = temp->next; }] *)
Fixpoint collect_keys (fuel : nat) (h : heap) (temp : ptr) (keys : list Key)
    : result (list Key) :=
  match fuel with
  | O => OutOfFuel
  | S fuel =>
    let* n := deref h temp in
    let* nx := deref h (next n) in
    if negb (p_inf nx) then collect_keys fuel h (next n) (keys ++ [key nx])
    else Ok keys
  end.

(** [SkipList::allKeysInOrder] *)
Definition allKeysInOrder (s : SkipList) : result (list Key) :=
  let* temp := to_bottom (S (length (mem s))) (mem s) (head s) in
  collect_keys (length (mem s)) (mem s) temp [].

(** [SkipList::isSmallestKey] *)
Definition isSmallestKey (s : SkipList) (k : Key) : result bool :=
  let* temp := to_bottom (S (length (mem s))) (mem s) (head s) in
  let* n := deref (mem s) temp in
  let* nx := deref (mem s) (next n) in
  if key_eq (key nx) k then Ok true else Ok false.

(** [while (temp->next->p_inf == false) temp = temp->next;] *)
Fixpoint to_last (fuel : nat) (h : heap) (temp : ptr) : result ptr :=
  match fuel with
  | O => OutOfFuel
  | S fuel =>
    let* n := deref h temp in
    let* nx := deref h (next n) in
    if negb (p_inf nx) then to_last fuel h (next n) else Ok temp
  end.

(** [SkipList::isLargestKey] *)
Definition isLargestKey (s : SkipList) (k : Key) : result bool :=
  let* temp := to_bottom (S (length (mem s))) (mem s) (head s) in
  let* temp := to_last (length (mem s)) (mem s) temp in
  let* n := deref (mem s) temp in
  if key_eq (key n) k then Ok true else Ok false.

(** What [print] writes to [std::cout]: [Put k] stands for
    [std::cout << temp->key << " "] and [Endl] for [std::cout << std::endl]. *)
Inductive output := Put (k : Key) | Endl.

(** [while (temp != nullptr) { std::cout << temp->key << " "; temp = temp->next; }] *)
Fixpoint print_row (fuel : nat) (h : heap) (temp : ptr) (out : list output)
    : result (list output) :=
  match fuel with
  | O => OutOfFuel
  | S fuel =>
    match temp with
    | None => Ok out
    | Some _ =>
      let* n := deref h temp in
      print_row fuel h (next n) (out ++ [Put (key n)])
    end
  end.

(** [while (temp_head != nullptr)
       { temp = temp_head; <inner loop>; std::cout << std::endl;
         temp_head = temp_head->bottom; }] *)
Fixpoint print_rows (fuel : nat) (h : heap) (temp_head : ptr) (out : list output)
    : result (list output) :=
  match fuel with
  | O => OutOfFuel
  | S fuel =>
    match temp_head with
    | None => Ok out
    | Some _ =>
      let temp := temp_head in
      let* out := print_row (S (length h)) h temp out in
      let out := out ++ [Endl] in
      let* n := deref h temp_head in
      print_rows fuel h (bottom n) out
    end
  end.

(** [SkipList::print] *)
Definition print (s : SkipList) : result (list output) :=
  print_rows (S (length (mem s))) (mem s) (head s) [].

(** The destructor runs on a heap some of whose nodes are already deleted:
    [freed] lists them, in the order of their deletion.  Reading through a
    pointer to a deleted node is a fault. *)
Definition deref_live (h : heap) (freed : list addr) (p : ptr) : result SkipNode :=
  match p with
  | None => Fault
  | Some a => if bool_decide (a ∈ freed) then Fault else deref h p
  end.

(** [delete p]: nothing for [nullptr], a fault for a node that is not
    allocated or is deleted already. *)
Definition delete (h : heap) (freed : list addr) (p : ptr) : result (list addr) :=
  match p with
  | None => Ok freed
  | Some a => let* _ := deref_live h freed p in Ok (freed ++ [a])
  end.

(** [while (temp) { temp2 = temp; temp = temp->next; delete temp2; }] *)
Fixpoint delete_row (fuel : nat) (h : heap) (temp : ptr) (freed : list addr)
    : result (list addr) :=
  match fuel with
  | O => OutOfFuel
  | S fuel =>
    match temp with
    | None => Ok freed
    | Some _ =>
      let temp2 := temp in
      let* n := deref_live h freed temp in
      let temp := next n in
      let* freed := delete h freed temp2 in
      delete_row fuel h temp freed
    end
  end.

(** [while (head) { temp = head; head = head->bottom; <inner loop> }] *)
Fixpoint delete_rows (fuel : nat) (h : heap) (head : ptr) (freed : list addr)
    : result (ptr * list addr) :=
  match fuel with
  | O => OutOfFuel
  | S fuel =>
    match head with
    | None => Ok (head, freed)
    | Some _ =>
      let temp := head in
      let* n := deref_live h freed head in
      let head := bottom n in
      let* freed := delete_row (S (length h)) h temp freed in
      delete_rows fuel h head freed
    end
  end.

(** [SkipList::~SkipList], with the final value of [head] and the nodes it
    deleted. *)
Definition SkipList_dtor (s : SkipList) : result (ptr * list addr) :=
  delete_rows (S (length (mem s))) (mem s) (head s) [].

End SkipList.

Arguments SkipNode : clear implicits.
Arguments SkipList : clear implicits.
Arguments output : clear implicits.
Arguments Endl {Key}.
Arguments deref : simpl never.
Arguments store : simpl never.

(** * The shape of a well-formed list *)

Section Shape.
Context {Key Value : Type}.
Context `{KO : KeyOps Key} `{KD : DefaultCtor Key} `{VD : DefaultCtor Value}.

Abbreviation node := (SkipNode Key Value).
Abbreviation heap := (list (SkipNode Key Value)).
Abbreviation SkipList := (SkipList Key Value).

(** ** Reading and writing the heap *)

Lemma deref_Some (h : heap) a n : h !! a = Some n → deref h (Some a) = Ok n.
Proof. intros E. unfold deref. by rewrite E. Qed.

Lemma store_Some (h : heap) a n f :
  h !! a = Some n → store h (Some a) f = Ok (<[a := f n]> h).
Proof. intros E. unfold store. by rewrite E. Qed.

Lemma lookup_new_old (h : heap) n a x :
  h !! a = Some x → (h ++ [n]) !! a = Some x.
Proof. intros E. by apply lookup_app_l_Some. Qed.

Lemma lookup_new_fresh (h : heap) n : (h ++ [n]) !! length h = Some n.
Proof. by rewrite list_lookup_middle. Qed.

(** ** Chains: doubly linked sequences of nodes *)

(** [chain fwd bwd h p l]: the nodes at the addresses [l] are linked in this
    order, forwards through the field [fwd] and backwards through [bwd];
    the backward link of the first is [p] and the forward link of the last
    is [nullptr]. *)
Fixpoint chain (fwd bwd : node → ptr) (h : heap) (p : ptr) (l : list addr) : Prop :=
  match l with
  | [] => True
  | a :: l' =>
    ∃ n, h !! a = Some n ∧ bwd n = p ∧ fwd n = hd_error l'
         ∧ chain fwd bwd h (Some a) l'
  end.

Definition or_last (p : ptr) (l : list addr) : ptr :=
  match last l with Some x => Some x | None => p end.

Lemma or_last_cons p a l : or_last p (a :: l) = or_last (Some a) l.
Proof.
  unfold or_last. destruct l as [|b l]; [done|].
  rewrite last_cons_cons. destruct (last (b :: l)) eqn:E; [done|].
  by apply last_None in E.
Qed.

Section Chain.
Variables fwd bwd : node → ptr.

Lemma chain_app h p l1 l2 :
  chain fwd bwd h p (l1 ++ l2) →
  chain fwd bwd h (or_last p l1) l2.
Proof.
  revert p. induction l1 as [|a l1 IH]; intros p; [done|].
  simpl. intros (n & ? & ? & ? & Hc). rewrite or_last_cons. by apply IH.
Qed.

Lemma chain_mid h p l1 a l2 :
  chain fwd bwd h p (l1 ++ a :: l2) →
  ∃ n, h !! a = Some n ∧ bwd n = or_last p l1 ∧ fwd n = hd_error l2.
Proof.
  intros Hc%chain_app. destruct Hc as (n & ? & ? & ? & _). eauto.
Qed.

Lemma chain_lookup h p l i a :
  chain fwd bwd h p l → l !! i = Some a →
  ∃ n, h !! a = Some n ∧ fwd n = l !! S i
       ∧ bwd n = match i with O => p | S j => l !! j end.
Proof.
  revert p i. induction l as [|b l IH]; intros p i; [done|].
  simpl. intros (n & Hn & Hb & Hf & Hc). destruct i as [|i]; simpl.
  - intros [= <-]. exists n. split_and!; [done| |done].
    rewrite Hf. by destruct l.
  - intros Hi. destruct (IH _ _ Hc Hi) as (m & ? & ? & Hm).
    exists m. by split_and!.
Qed.

Lemma chain_alloc h p l : chain fwd bwd h p l → Forall (λ a, a < length h)%nat l.
Proof.
  revert p. induction l as [|a l IH]; intros p; [constructor|].
  simpl. intros (n & Hn & _ & _ & Hc). constructor; [|by eapply IH].
  by eapply lookup_lt_Some.
Qed.

(** Writes to other fields leave it a chain. *)
Lemma chain_fields h h' p l :
  (∀ a n, a ∈ l → h !! a = Some n →
     ∃ n', h' !! a = Some n' ∧ fwd n' = fwd n ∧ bwd n' = bwd n) →
  chain fwd bwd h p l → chain fwd bwd h' p l.
Proof.
  revert p. induction l as [|a l IH]; intros p Hf; [done|].
  simpl. intros (n & Hn & ? & ? & Hc).
  destruct (Hf a n) as (n' & ? & Hfw & Hbw); [by left|done|].
  exists n'. split_and!; try congruence.
  apply IH; [|done]. intros b m Hb. apply Hf. by right.
Qed.

Lemma hd_error_app_cons (l1 : list addr) a l2 l2' :
  hd_error (l1 ++ a :: l2) = hd_error (l1 ++ a :: l2').
Proof. by destruct l1. Qed.

(** Linking a node [c] between two neighbours [a] and [b]. *)
Lemma chain_splice (h h' : heap) p l1 a b l2 c :
  chain fwd bwd h p (l1 ++ a :: b :: l2) →
  (∀ x n, x ∈ l1 ++ l2 → h !! x = Some n →
     ∃ n', h' !! x = Some n' ∧ fwd n' = fwd n ∧ bwd n' = bwd n) →
  (∀ na, h !! a = Some na →
     ∃ na', h' !! a = Some na' ∧ fwd na' = Some c ∧ bwd na' = bwd na) →
  (∀ nb, h !! b = Some nb →
     ∃ nb', h' !! b = Some nb' ∧ bwd nb' = Some c ∧ fwd nb' = fwd nb) →
  (∃ nc, h' !! c = Some nc ∧ fwd nc = Some b ∧ bwd nc = Some a) →
  chain fwd bwd h' p (l1 ++ a :: c :: b :: l2).
Proof.
  intros Hc Hframe Ha Hb (nc & Hnc & Hfc & Hbc).
  revert p Hc. induction l1 as [|x l1 IH]; intros p.
  - simpl. intros (n1 & Hn1 & Hp & _ & n2 & Hn2 & _ & Hf2 & Hrest).
    destruct (Ha _ Hn1) as (na' & ? & ? & ?).
    destruct (Hb _ Hn2) as (nb' & ? & ? & ?).
    exists na'. split_and!; [done|congruence|done|].
    exists nc. split_and!; [done|done|done|].
    exists nb'. split_and!; [done|done|congruence|].
    eapply chain_fields; [|done]. intros y m Hy. by apply Hframe.
  - simpl. intros (n & Hn & Hp & Hf & Hrest).
    destruct (Hframe x n) as (n' & ? & ? & ?); [by left|done|].
    exists n'. split_and!; [done|congruence| |].
    + rewrite <-(hd_error_app_cons _ _ (b :: l2)). congruence.
    + apply IH; [|done]. intros y m Hy. apply Hframe. by right.
Qed.

(** Linking a node [c] after the last node of a chain. *)
Lemma chain_snoc (h h' : heap) p l c :
  chain fwd bwd h p l →
  NoDup l →
  (∀ x n, x ∈ l → last l ≠ Some x → h !! x = Some n →
     ∃ n', h' !! x = Some n' ∧ fwd n' = fwd n ∧ bwd n' = bwd n) →
  (∀ t nt, last l = Some t → h !! t = Some nt →
     ∃ nt', h' !! t = Some nt' ∧ fwd nt' = Some c ∧ bwd nt' = bwd nt) →
  (∃ nc, h' !! c = Some nc ∧ fwd nc = None ∧ bwd nc = or_last p l) →
  chain fwd bwd h' p (l ++ [c]).
Proof.
  intros Hc Hnd Hframe Hlast (nc & Hnc & Hfc & Hbc).
  revert p Hc Hbc. induction l as [|x l IH]; intros p.
  - simpl. intros _ Hbc. exists nc. by split_and!.
  - simpl. intros (n & Hn & Hp & Hf & Hrest) Hbc.
    apply NoDup_cons in Hnd as [Hx Hnd]. rewrite or_last_cons in Hbc.
    destruct l as [|y l].
    + destruct (Hlast x n) as (n' & ? & ? & ?); [done|done|].
      exists n'. split_and!; [done|congruence|done|].
      exists nc. by split_and!.
    + destruct (Hframe x n) as (n' & ? & ? & ?); [by left| |done|].
      { rewrite last_cons_cons. intros Hl%last_Some_elem_of. done. }
      exists n'. split_and!; [done|congruence|simpl in *; congruence|].
      apply IH; [done| | |done|done].
      * intros z m Hz Hzl. apply Hframe; [by right|by rewrite last_cons_cons].
      * intros t nt Ht. apply Hlast. by rewrite last_cons_cons.
Qed.

End Chain.

(** ** Columns *)

(** What a node stands for: a sentinel or a key. *)
Inductive kind := NegInf | Real (k : Key) | PosInf.

(** A column: the nodes of one key, or of one sentinel, from layer 0 up. *)
Record column := Col { ckind : kind; caddrs : list addr }.

Definition tagged (c : kind) (n : node) : Prop :=
  match c with
  | NegInf => n_inf n = true ∧ p_inf n = false
  | Real k => n_inf n = false ∧ p_inf n = false ∧ key n = k
  | PosInf => n_inf n = false ∧ p_inf n = true
  end.

(** The order of a layer: [-inf], then the keys in ascending order, then
    [+inf]. *)
Definition kind_lt (c1 c2 : kind) : Prop :=
  match c1, c2 with
  | NegInf, NegInf => False
  | NegInf, _ => True
  | Real a, Real b => key_ge a b = false
  | Real _, PosInf => True
  | _, _ => False
  end.

(** The test of the search loops on a node of kind [c]:
    [!node->p_inf && k >= node->key]. *)
Definition kind_le_key (c : kind) (k : Key) : bool :=
  match c with
  | NegInf => true
  | Real k' => key_ge k k'
  | PosInf => false
  end.

(** The nodes of layer [i], with their kinds, from left to right. *)
Definition cells (i : nat) (cols : list column) : list (addr * kind) :=
  omap (λ c, (λ a, (a, ckind c)) <$> caddrs c !! i) cols.

Definition layer (i : nat) (cols : list column) : list addr :=
  (cells i cols).*1.

Definition all_addrs (cols : list column) : list addr :=
  concat (caddrs <$> cols).

Definition real_key (c : column) : option Key :=
  match ckind c with Real k => Some k | _ => None end.

(** The keys of the columns, from left to right. *)
Definition keys_of (cols : list column) : list Key := omap real_key cols.

(** The height of a column in a list of [H] layers: a sentinel is in every
    layer, a key is in layer 0 and never in the top layer. *)
Definition height_ok (H : nat) (c : column) : Prop :=
  match ckind c with
  | Real _ => (1 ≤ length (caddrs c) < H)%nat
  | _ => length (caddrs c) = H
  end.

(** [Rep s cols]: the heap of [s] holds exactly the columns [cols]. *)
Record Rep (s : SkipList) (cols : list column) : Prop := {
  rep_layers : 2 ≤ num_layers s;
  rep_head : ∃ hs, hd_error cols = Some (Col NegInf hs) ∧ head s = last hs;
  rep_tail : ∃ ts, last cols = Some (Col PosInf ts) ∧ tail s = last ts;
  rep_heights : Forall (height_ok (N.to_nat (num_layers s))) cols;
  rep_count : num_keys s = N.of_nat (length (keys_of cols));
  rep_sorted : StronglySorted kind_lt (ckind <$> cols);
  rep_nodup : NoDup (all_addrs cols);
  rep_tagged : Forall (λ c,
    Forall (λ a, ∃ n, mem s !! a = Some n ∧ tagged (ckind c) n) (caddrs c)) cols;
  rep_vert : Forall (λ c, chain top bottom (mem s) None (caddrs c)) cols;
  rep_horiz : ∀ i, chain next previous (mem s) None (layer i cols);
}.

(** ** The order of keys *)

Context `{KL : !KeyLaws Key}.

Lemma key_ge_refl (a : Key) : key_ge a a = true.
Proof. by destruct (key_ge_total a a). Qed.

Lemma key_lt_ge (a b : Key) : key_ge a b = false → key_ge b a = true.
Proof. intros E. destruct (key_ge_total a b); congruence. Qed.

Lemma key_lt_trans (a b c : Key) :
  key_ge a b = false → key_ge b c = false → key_ge a c = false.
Proof.
  intros Hab Hbc. destruct (key_ge a c) eqn:Hac; [|done].
  apply key_lt_ge in Hbc. by rewrite (key_ge_trans a c b) in Hab.
Qed.

Lemma key_eq_refl (a : Key) : key_eq a a = true.
Proof. by apply key_eq_spec. Qed.

Lemma key_eq_false (a b : Key) : key_eq a b = false ↔ a ≠ b.
Proof.
  rewrite <-key_eq_spec. destruct (key_eq a b); split; congruence.
Qed.

#[local] Instance kind_lt_trans : Transitive kind_lt.
Proof.
  intros [|a|] [|b|] [|c|]; simpl; try done. apply key_lt_trans.
Qed.

Lemma kind_lt_irrefl c : ¬ kind_lt c c.
Proof.
  destruct c as [|a|]; simpl; intros E; [done| |done].
  by rewrite key_ge_refl in E.
Qed.

Lemma kind_le_key_mono c1 c2 k :
  kind_lt c1 c2 → kind_le_key c2 k = true → kind_le_key c1 k = true.
Proof.
  destruct c1 as [|a|], c2 as [|b|]; simpl; try done.
  intros Hab%key_lt_ge Hkb. by eapply key_ge_trans.
Qed.

(** The loop test, on a node of a known kind. *)
Lemma loop_test (c : kind) (n : node) k :
  tagged c n → c ≠ NegInf →
  negb (p_inf n) && key_ge k (key n) = kind_le_key c k.
Proof.
  destruct c as [|a|]; simpl; [done|..].
  - by intros (_ & -> & ->).
  - by intros (_ & ->).
Qed.

(** The columns of a well-formed list: [-inf], the keys, [+inf]. *)
Lemma Rep_shape s cols :
  Rep s cols →
  ∃ hs mid ts,
    cols = Col NegInf hs :: mid ++ [Col PosInf ts]
    ∧ length hs = N.to_nat (num_layers s)
    ∧ length ts = N.to_nat (num_layers s)
    ∧ head s = last hs ∧ tail s = last ts
    ∧ Forall (λ c, (1 ≤ length (caddrs c) < N.to_nat (num_layers s))%nat) mid
    ∧ Forall (λ c, ∃ k, ckind c = Real k) mid.
Proof.
  intros HR. destruct (rep_head _ _ HR) as (hs & Hhd & Hhead).
  destruct (rep_tail _ _ HR) as (ts & Htl & Htail).
  pose proof (rep_heights _ _ HR) as Hh. pose proof (rep_sorted _ _ HR) as Hs.
  destruct cols as [|c0 rest]; [done|]. simpl in Hhd. injection Hhd as ->.
  destruct rest as [|c1 rest _] using rev_ind; [done|].
  rewrite app_comm_cons, last_snoc in Htl. injection Htl as ->.
  assert (Forall (λ c, ∃ k, ckind c = Real k) rest) as Hreal.
  { rewrite fmap_cons, fmap_app in Hs.
    apply StronglySorted_cons in Hs as [Hlo Hs].
    apply Forall_app in Hlo as [Hlo _].
    apply Forall_forall. intros c Hc.
    assert (kind_lt NegInf (ckind c)) as H1.
    { rewrite Forall_forall in Hlo. apply Hlo, list_elem_of_fmap. eauto. }
    assert (kind_lt (ckind c) PosInf) as H2.
    { eapply (StronglySorted_app_1_elem_of _ _ _ _ _ Hs).
      - apply list_elem_of_fmap. eauto.
      - by left. }
    destruct (ckind c); [done|eauto|done]. }
  exists hs, rest, ts. apply Forall_cons in Hh as [Hh0 Hh].
  apply Forall_app in Hh as [Hh Hh1]. apply Forall_cons in Hh1 as [Hh1 _].
  split_and!; try done.
  apply Forall_forall. intros c Hc.
  rewrite Forall_forall in Hh. specialize (Hh c Hc).
  rewrite Forall_forall in Hreal. destruct (Hreal c Hc) as [k Hk].
  unfold height_ok in Hh. by rewrite Hk in Hh.
Qed.

(** ** Layers of a list of columns *)

Lemma cells_app i (l1 l2 : list column) :
  cells i (l1 ++ l2) = cells i l1 ++ cells i l2.
Proof. apply omap_app. Qed.

Lemma layer_app i (l1 l2 : list column) :
  layer i (l1 ++ l2) = layer i l1 ++ layer i l2.
Proof. unfold layer. by rewrite cells_app, fmap_app. Qed.

Lemma cells_cons i c (l : list column) :
  cells i (c :: l) =
    match caddrs c !! i with
    | Some a => (a, ckind c) :: cells i l
    | None => cells i l
    end.
Proof. unfold cells. simpl. by destruct (caddrs c !! i). Qed.

Lemma elem_of_cells i (cols : list column) a c :
  (a, c) ∈ cells i cols ↔
  ∃ col, col ∈ cols ∧ ckind col = c ∧ caddrs col !! i = Some a.
Proof.
  unfold cells. rewrite list_elem_of_omap. split.
  - intros (col & Hin & Hc). exists col.
    destruct (caddrs col !! i) eqn:E; simplify_eq/=. done.
  - intros (col & Hin & <- & E). exists col. by rewrite E.
Qed.

Lemma elem_of_layer i (cols : list column) a :
  a ∈ layer i cols → a ∈ all_addrs cols.
Proof.
  unfold layer. intros ([a' c] & -> & Hin)%list_elem_of_fmap.
  apply elem_of_cells in Hin as (col & Hin & _ & Ha).
  apply list_elem_of_In, in_concat. exists (caddrs col). split.
  - apply list_elem_of_In, list_elem_of_fmap. eauto.
  - apply list_elem_of_In. by eapply list_elem_of_lookup_2.
Qed.

Lemma layer_NoDup i (cols : list column) :
  NoDup (all_addrs cols) → NoDup (layer i cols).
Proof.
  unfold all_addrs. induction cols as [|c cols IH]; simpl; [constructor|].
  intros [Hc [Hdisj Hnd]]%NoDup_app. unfold layer. rewrite cells_cons.
  destruct (caddrs c !! i) as [a|] eqn:E; [|by apply IH].
  simpl. constructor; [|by apply IH].
  intros Hin. apply (Hdisj a); [by eapply list_elem_of_lookup_2|].
  by apply (elem_of_layer i).
Qed.

Lemma cells_kinds_elem i (cols : list column) c :
  c ∈ (cells i cols).*2 → c ∈ ckind <$> cols.
Proof.
  intros ([a c'] & -> & Hin)%list_elem_of_fmap.
  apply elem_of_cells in Hin as (col & Hin & <- & _).
  apply list_elem_of_fmap. eauto.
Qed.

Lemma cells_sorted i (cols : list column) :
  StronglySorted kind_lt (ckind <$> cols) →
  StronglySorted kind_lt (cells i cols).*2.
Proof.
  induction cols as [|c cols IH]; [constructor|].
  rewrite fmap_cons. intros [Hall Hs]%StronglySorted_cons.
  rewrite cells_cons. destruct (caddrs c !! i); [|by apply IH].
  rewrite fmap_cons. apply StronglySorted_cons. split; [|by apply IH].
  rewrite Forall_forall in Hall. apply Forall_forall.
  intros x Hx%cells_kinds_elem. by apply Hall.
Qed.

Lemma pigeonhole (l : list nat) n :
  NoDup l → Forall (λ a, a < n)%nat l → (length l ≤ n)%nat.
Proof.
  intros Hnd Hall. rewrite <-(length_seq n 0).
  apply submseteq_length, NoDup_submseteq; [done|].
  intros x Hx. apply elem_of_seq. rewrite Forall_forall in Hall.
  specialize (Hall x Hx). lia.
Qed.

(** ** Rows: the facts about one layer *)

Record row (h : heap) (cs : list (addr * kind)) : Prop := {
  row_chain : chain next previous h None cs.*1;
  row_tagged : Forall (λ ac, ∃ n, h !! ac.1 = Some n ∧ tagged ac.2 n) cs;
  row_sorted : StronglySorted kind_lt cs.*2;
  row_nodup : NoDup cs.*1;
}.

Lemma Rep_tagged s cols col i a :
  Rep s cols → col ∈ cols → caddrs col !! i = Some a →
  ∃ n, mem s !! a = Some n ∧ tagged (ckind col) n.
Proof.
  intros HR Hin Ha. pose proof (rep_tagged _ _ HR) as Ht.
  rewrite Forall_forall in Ht. specialize (Ht _ Hin).
  rewrite Forall_forall in Ht. apply Ht. by eapply list_elem_of_lookup_2.
Qed.

Lemma Rep_row s cols i : Rep s cols → row (mem s) (cells i cols).
Proof.
  intros HR. split.
  - apply (rep_horiz _ _ HR).
  - apply Forall_forall. intros [a c] (col & Hin & <- & Ha)%elem_of_cells.
    by eapply Rep_tagged.
  - apply cells_sorted, (rep_sorted _ _ HR).
  - apply layer_NoDup, (rep_nodup _ _ HR).
Qed.

Lemma row_node h pre a ca post :
  row h (pre ++ (a, ca) :: post) →
  ∃ n, h !! a = Some n ∧ tagged ca n
       ∧ next n = hd_error post.*1 ∧ previous n = last pre.*1.
Proof.
  intros Hr. pose proof (row_chain _ _ Hr) as Hc.
  rewrite fmap_app, fmap_cons in Hc.
  apply chain_mid in Hc as (n & Hn & Hp & Hf).
  exists n. split_and!; [done| |done|].
  - pose proof (row_tagged _ _ Hr) as Ht. rewrite Forall_forall in Ht.
    destruct (Ht (a, ca)) as (n' & Hn' & Ht').
    { apply elem_of_app. right. by left. }
    simpl in *. by simplify_eq.
  - rewrite Hp. unfold or_last. by destruct (last pre.*1).
Qed.

Lemma row_lt h pre a ca post x :
  row h (pre ++ (a, ca) :: post) → x ∈ post.*2 → kind_lt ca x.
Proof.
  intros Hr Hx. pose proof (row_sorted _ _ Hr) as Hs.
  rewrite fmap_app, fmap_cons in Hs.
  apply StronglySorted_app_1_r, StronglySorted_cons in Hs as [Hall _].
  rewrite Forall_forall in Hall. by apply Hall.
Qed.

Lemma row_length h cs : row h cs → (length cs ≤ length h)%nat.
Proof.
  intros Hr. rewrite <-(length_fmap fst). apply pigeonhole.
  - apply (row_nodup _ _ Hr).
  - eapply chain_alloc, (row_chain _ _ Hr).
Qed.

(** ** The search *)

Lemma walk_right_spec h k fuel pre a ca post :
  row h (pre ++ (a, ca) :: post) →
  PosInf ∈ post.*2 →
  (length post ≤ fuel)%nat →
  ∃ pre' a' ca' b' cb' post',
    pre ++ (a, ca) :: post = pre' ++ (a', ca') :: (b', cb') :: post'
    ∧ walk_right fuel h k (Some a) = Ok (Some a')
    ∧ kind_le_key cb' k = false
    ∧ (kind_le_key ca k = true → kind_le_key ca' k = true).
Proof.
  revert fuel pre a ca. induction post as [|[b cb] post IH];
    intros fuel pre a ca Hr Hinf Hfuel.
  { by apply elem_of_nil in Hinf. }
  destruct fuel as [|fuel]; [simpl in Hfuel; lia|].
  destruct (row_node _ _ _ _ _ Hr) as (na & Hna & Hta & Hnx & _).
  pose proof Hr as Hr'.
  rewrite (cons_middle (a, ca)), app_assoc in Hr'.
  destruct (row_node _ _ _ _ _ Hr') as (nb & Hnb & Htb & _).
  assert (kind_lt ca cb) as Hlt by (eapply row_lt; [done|by left]).
  simpl. rewrite (deref_Some _ _ _ Hna). simpl in *. rewrite Hnx.
  rewrite (deref_Some _ _ _ Hnb). simpl.
  rewrite (loop_test cb) by (try done; by destruct ca, cb).
  destruct (kind_le_key cb k) eqn:Hle.
  - destruct (IH fuel (pre ++ [(a, ca)]) b cb)
      as (pre' & a' & ca' & b' & cb' & post' & Heq & Hw & Hgt & Hle');
      [done| |lia|].
    { apply elem_of_cons in Hinf as [Hinf|Hinf]; [|done].
      subst cb. done. }
    exists pre', a', ca', b', cb', post'. split_and!; try done.
    + by rewrite <-Heq, <-app_assoc.
    + intros _. by apply Hle'.
  - exists pre, a, ca, b, cb, post. by split_and!.
Qed.

Lemma Rep_height_le s cols col :
  Rep s cols → col ∈ cols →
  (1 ≤ length (caddrs col) ≤ N.to_nat (num_layers s))%nat.
Proof.
  intros HR Hin. pose proof (rep_layers _ _ HR).
  destruct (Rep_shape _ _ HR) as (hs & mid & ts & -> & Hhs & Hts & _ & _ & Hmid & _).
  apply elem_of_cons in Hin as [->|Hin]; [simpl; lia|].
  apply elem_of_app in Hin as [Hin|Hin].
  - rewrite Forall_forall in Hmid. specialize (Hmid _ Hin). lia.
  - apply list_elem_of_singleton in Hin as ->. simpl. lia.
Qed.

Lemma Rep_column s cols col i a :
  Rep s cols → col ∈ cols → caddrs col !! i = Some a →
  ∃ n, mem s !! a = Some n ∧ tagged (ckind col) n
       ∧ top n = caddrs col !! S i
       ∧ bottom n = match i with O => None | S j => caddrs col !! j end.
Proof.
  intros HR Hin Ha. destruct (Rep_tagged _ _ _ _ _ HR Hin Ha) as (n & Hn & Ht).
  pose proof (rep_vert _ _ HR) as Hv. rewrite Forall_forall in Hv.
  destruct (chain_lookup _ _ _ _ _ _ _ (Hv _ Hin) Ha) as (n' & Hn' & ? & ?).
  simplify_eq. eauto.
Qed.

Lemma Rep_cells_last s cols i :
  Rep s cols → (i < N.to_nat (num_layers s))%nat →
  ∃ X t, cells i cols = X ++ [(t, PosInf)].
Proof.
  intros HR Hi.
  destruct (Rep_shape _ _ HR) as (hs & mid & ts & -> & Hhs & Hts & _).
  destruct (lookup_lt_is_Some_2 ts i) as [t Ht]; [lia|].
  exists (cells i (Col NegInf hs :: mid)), t.
  rewrite app_comm_cons, cells_app. f_equal.
  rewrite cells_cons. simpl. by rewrite Ht.
Qed.

Lemma cells_above i (cols : list column) :
  Forall (λ c, length (caddrs c) ≤ i)%nat cols → cells i cols = [].
Proof.
  induction 1 as [|c cols Hc _ IH]; [done|].
  by rewrite cells_cons, lookup_ge_None_2.
Qed.

Lemma Rep_cells_top s cols :
  Rep s cols →
  ∃ a b, head s = Some a ∧ tail s = Some b ∧
    cells (N.to_nat (num_layers s) - 1) cols = [(a, NegInf); (b, PosInf)].
Proof.
  intros HR. pose proof (rep_layers _ _ HR).
  destruct (Rep_shape _ _ HR)
    as (hs & mid & ts & -> & Hhs & Hts & Hhd & Htl & Hmid & _).
  rewrite Hhd, Htl, !last_lookup, Hhs, Hts.
  replace (pred (N.to_nat (num_layers s))) with (N.to_nat (num_layers s) - 1)%nat by lia.
  destruct (lookup_lt_is_Some_2 hs (N.to_nat (num_layers s) - 1)) as [a Ha]; [lia|].
  destruct (lookup_lt_is_Some_2 ts (N.to_nat (num_layers s) - 1)) as [b Hb]; [lia|].
  exists a, b. split_and!; [done|done|].
  rewrite cells_cons. simpl. rewrite Ha. f_equal.
  rewrite cells_app, cells_cons. simpl. rewrite Hb. simpl.
  rewrite cells_above; [done|].
  eapply Forall_impl; [done|]. simpl. intros c Hc. lia.
Qed.

Lemma descend_spec s cols k i fuel pre a ca b cb post :
  Rep s cols →
  cells i cols = pre ++ (a, ca) :: (b, cb) :: post →
  kind_le_key ca k = true → kind_le_key cb k = false →
  (i < fuel)%nat →
  ∃ pre' a' ca' b' cb' post',
    cells 0 cols = pre' ++ (a', ca') :: (b', cb') :: post'
    ∧ descend fuel (mem s) k (Some a) = Ok (Some a')
    ∧ kind_le_key ca' k = true ∧ kind_le_key cb' k = false.
Proof.
  intros HR. revert fuel pre a ca b cb post.
  induction i as [|j IH]; intros fuel pre a ca b cb post Hcells Hle Hgt Hfuel.
  all: destruct fuel as [|fuel]; [lia|].
  all: assert ((a, ca) ∈ cells _ cols) as Hin
    by (rewrite Hcells; apply elem_of_app; right; by left).
  all: apply elem_of_cells in Hin as (col & Hcol & <- & Ha).
  all: destruct (Rep_column _ _ _ _ _ HR Hcol Ha) as (n & Hn & _ & _ & Hbot).
  all: simpl; rewrite (deref_Some _ _ _ Hn); simpl; rewrite Hbot.
  - exists pre, a, (ckind col), b, cb, post. by split_and!.
  - destruct (lookup_lt_is_Some_2 (caddrs col) j) as [a2 Ha2].
    { apply lookup_lt_Some in Ha. lia. }
    rewrite Ha2.
    assert ((a2, ckind col) ∈ cells j cols) as Hin2.
    { apply elem_of_cells. eauto. }
    apply list_elem_of_split in Hin2 as (pre2 & post2 & Hsplit).
    pose proof (Rep_row _ _ j HR) as Hrow. rewrite Hsplit in Hrow.
    destruct (Rep_cells_last _ _ j HR) as (X & t & Hlast).
    { pose proof (Rep_height_le _ _ _ HR Hcol).
      apply lookup_lt_Some in Ha. lia. }
    destruct (walk_right_spec (mem s) k (length (mem s)) _ _ _ _ Hrow)
      as (pre' & a' & ca' & b' & cb' & post' & Heq & Hw & Hgt' & Hle').
    { rewrite Hsplit in Hlast.
      destruct post2 as [|x post2 _] using rev_ind.
      - apply app_inj_tail in Hlast as [_ [= _ E]].
        rewrite E in Hle. done.
      - rewrite app_comm_cons, app_assoc in Hlast.
        apply app_inj_tail in Hlast as [_ ->].
        rewrite fmap_app. apply elem_of_app. right. by left. }
    { apply row_length in Hrow. rewrite length_app in Hrow. simpl in Hrow. lia. }
    rewrite Hw. simpl. rewrite <-Hsplit in Heq.
    eapply IH; [done|by apply Hle'|done|lia].
Qed.

Lemma cells0_split (cols : list column) l1 x l2 :
  Forall (λ c, 1 ≤ length (caddrs c))%nat cols →
  cells 0 cols = l1 ++ x :: l2 →
  ∃ c1 c c2, cols = c1 ++ c :: c2 ∧ cells 0 c1 = l1 ∧ cells 0 c2 = l2
    ∧ x.2 = ckind c ∧ caddrs c !! 0%nat = Some x.1.
Proof.
  intros Hall. revert l1. induction Hall as [|c cols Hc Hall IH]; intros l1.
  { by destruct l1. }
  rewrite cells_cons. destruct (caddrs c) as [|a0 as_] eqn:E; [simpl in Hc; lia|].
  simpl. destruct l1 as [|y l1]; simpl.
  - intros [= <- <-]. exists [], c, cols. rewrite E. by split_and!.
  - intros [= <- Hrest]. destruct (IH _ Hrest) as (c1 & c' & c2 & -> & <- & <- & ? & ?).
    exists (c :: c1), c', c2. rewrite cells_cons, E. by split_and!.
Qed.

Lemma Rep_nonempty s cols :
  Rep s cols → Forall (λ c, 1 ≤ length (caddrs c))%nat cols.
Proof.
  intros HR. apply Forall_forall. intros c Hc.
  pose proof (Rep_height_le _ _ _ HR Hc). lia.
Qed.

(** The search stops on the last column of layer 0 that is not above [k]. *)
Lemma locate_spec s cols k :
  Rep s cols →
  ∃ cpre ca a cb b cpost,
    cols = cpre ++ ca :: cb :: cpost
    ∧ caddrs ca !! 0%nat = Some a ∧ caddrs cb !! 0%nat = Some b
    ∧ locate s k = Ok (Some a)
    ∧ kind_le_key (ckind ca) k = true ∧ kind_le_key (ckind cb) k = false.
Proof.
  intros HR. destruct (Rep_cells_top _ _ HR) as (a & b & Hhd & Htl & Htop).
  pose proof (rep_layers _ _ HR).
  destruct (descend_spec s cols k _ (S (length (mem s))) [] a NegInf b PosInf []
    HR Htop) as (pre' & a' & ca' & b' & cb' & post' & Hc0 & Hd & Hle & Hgt);
    [done|done| |].
  { pose proof (Rep_row _ _ 0 HR) as Hrow.
    destruct (Rep_shape _ _ HR) as (hs & mid & ts & -> & Hhs & _).
    pose proof (rep_vert _ _ HR) as Hv. apply Forall_cons in Hv as [Hv _].
    apply chain_alloc in Hv. simpl in Hv.
    pose proof (rep_nodup _ _ HR) as Hnd. unfold all_addrs in Hnd. simpl in Hnd.
    apply NoDup_app in Hnd as [Hnd _].
    pose proof (pigeonhole _ _ Hnd Hv). lia. }
  pose proof (Rep_nonempty _ _ HR) as Hne.
  destruct (cells0_split _ _ _ _ Hne Hc0) as (c1 & ca & c2 & -> & <- & Hc2 & Hka & Ha).
  apply Forall_app in Hne as [_ Hne]. apply Forall_cons in Hne as [_ Hne].
  destruct (cells0_split _ [] _ _ Hne Hc2) as (c1' & cb & c2' & -> & Hnil & _ & Hkb & Hb).
  destruct c1' as [|c c1']; last first.
  { apply Forall_cons in Hne as [Hc _]. rewrite cells_cons in Hnil.
    destruct (caddrs c); [simpl in Hc; lia|done]. }
  simpl in *. subst. exists c1, ca, a', cb, b', c2'. unfold locate.
  rewrite Hhd. by split_and!.
Qed.

(** ** Presence of a key *)

Lemma elem_of_keys_of (cols : list column) k :
  k ∈ keys_of cols ↔ ∃ col, col ∈ cols ∧ ckind col = Real k.
Proof.
  unfold keys_of. rewrite list_elem_of_omap. unfold real_key.
  split; intros (col & Hin & Hk); exists col; (split; [done|]).
  - destruct (ckind col); by simplify_eq.
  - by rewrite Hk.
Qed.

Lemma keys_of_app (l1 l2 : list column) :
  keys_of (l1 ++ l2) = keys_of l1 ++ keys_of l2.
Proof. apply omap_app. Qed.

Lemma sorted_column_unique (cols : list column) c1 c2 :
  StronglySorted kind_lt (ckind <$> cols) →
  c1 ∈ cols → c2 ∈ cols → ckind c1 = ckind c2 → c1 = c2.
Proof.
  induction cols as [|c cols IH]; [by intros _ ?%elem_of_nil|].
  rewrite fmap_cons. intros [Hall Hs]%StronglySorted_cons.
  rewrite Forall_forall in Hall.
  assert (∀ c', c' ∈ cols → ckind c' ≠ ckind c) as Hne.
  { intros c' Hc' E. apply (kind_lt_irrefl (ckind c)).
    apply Hall. rewrite <-E. apply list_elem_of_fmap. eauto. }
  intros [->|H1]%elem_of_cons [->|H2]%elem_of_cons E; [done|..].
  - by destruct (Hne _ H2).
  - by destruct (Hne _ H1).
  - by apply IH.
Qed.

(** Where the search stops decides whether the key is present. *)
Lemma located_present (cols cpre : list column) ca cb cpost k :
  StronglySorted kind_lt (ckind <$> cols) →
  cols = cpre ++ ca :: cb :: cpost →
  kind_le_key (ckind ca) k = true → kind_le_key (ckind cb) k = false →
  k ∈ keys_of cols ↔ ckind ca = Real k.
Proof.
  intros Hs -> Hle Hgt. split.
  - intros (col & Hin & Hk)%elem_of_keys_of.
    rewrite fmap_app, !fmap_cons in Hs.
    apply StronglySorted_app in Hs as (Hpre & _ & Hs).
    apply StronglySorted_cons in Hs as [Ha Hs].
    apply StronglySorted_cons in Hs as [Hb _].
    rewrite Forall_forall in Ha. rewrite Forall_forall in Hb.
    apply elem_of_app in Hin as [Hin|Hin].
    { assert (kind_lt (ckind col) (ckind ca)) as Hlt.
      { apply Hpre; [apply list_elem_of_fmap; eauto|by left]. }
      rewrite Hk in Hlt. destruct (ckind ca); simpl in *; [done|congruence|done]. }
    apply elem_of_cons in Hin as [->|Hin]; [done|].
    assert (kind_le_key (ckind cb) k = true); [|congruence].
    apply elem_of_cons in Hin as [->|Hin].
    { rewrite Hk. simpl. apply key_ge_refl. }
    apply (kind_le_key_mono _ (ckind col)).
    + apply Hb. apply list_elem_of_fmap. eauto.
    + rewrite Hk. simpl. apply key_ge_refl.
  - intros Hk. apply elem_of_keys_of. exists ca. split; [|done].
    apply elem_of_app. right. by left.
Qed.

(** The test [temp->key != k || temp->n_inf] of the queries. *)
Lemma miss_test (c : kind) (n : node) k :
  tagged c n → c ≠ PosInf →
  key_ne (key n) k || n_inf n = false ↔ c = Real k.
Proof.
  unfold key_ne. destruct c as [|k'|]; simpl; [| |done].
  - intros [-> _] _. rewrite orb_true_r. split; congruence.
  - intros (-> & _ & ->) _. rewrite orb_false_r, negb_false_iff, key_eq_spec.
    split; congruence.
Qed.

Lemma kind_le_key_not_PosInf c k : kind_le_key c k = true → c ≠ PosInf.
Proof. by destruct c. Qed.

(** The search on a key that is present stops on its column. *)
Lemma locate_present s cols k :
  Rep s cols → k ∈ keys_of cols →
  ∃ cpre ca a cb b cpost n,
    cols = cpre ++ ca :: cb :: cpost
    ∧ ckind ca = Real k
    ∧ caddrs ca !! 0%nat = Some a ∧ caddrs cb !! 0%nat = Some b
    ∧ locate s k = Ok (Some a)
    ∧ mem s !! a = Some n ∧ tagged (Real k) n
    ∧ key_ne (key n) k || n_inf n = false.
Proof.
  intros HR Hk.
  destruct (locate_spec s cols k HR)
    as (cpre & ca & a & cb & b & cpost & Hcols & Ha & Hb & Hloc & Hle & Hgt).
  pose proof (proj1 (located_present _ _ _ _ _ _ (rep_sorted _ _ HR) Hcols Hle Hgt) Hk)
    as Hca.
  destruct (Rep_tagged s cols ca 0 a HR) as (n & Hn & Ht); [|done|].
  { rewrite Hcols. apply elem_of_app. right. by left. }
  exists cpre, ca, a, cb, b, cpost, n. rewrite <-Hca. split_and!; try done.
  apply (miss_test (ckind ca)); [done|by rewrite Hca|done].
Qed.

(** The search on a key that is absent stops on another column. *)
Lemma locate_absent s cols k :
  Rep s cols → k ∉ keys_of cols →
  ∃ cpre ca a cb b cpost n,
    cols = cpre ++ ca :: cb :: cpost
    ∧ caddrs ca !! 0%nat = Some a ∧ caddrs cb !! 0%nat = Some b
    ∧ locate s k = Ok (Some a)
    ∧ kind_le_key (ckind ca) k = true ∧ kind_le_key (ckind cb) k = false
    ∧ mem s !! a = Some n ∧ tagged (ckind ca) n
    ∧ key_ne (key n) k || n_inf n = true.
Proof.
  intros HR Hk.
  destruct (locate_spec s cols k HR)
    as (cpre & ca & a & cb & b & cpost & Hcols & Ha & Hb & Hloc & Hle & Hgt).
  destruct (Rep_tagged s cols ca 0 a HR) as (n & Hn & Ht); [|done|].
  { rewrite Hcols. apply elem_of_app. right. by left. }
  exists cpre, ca, a, cb, b, cpost, n. split_and!; try done.
  apply not_false_iff_true. intros Hm.
  apply (miss_test (ckind ca)) in Hm; [|done|by eapply kind_le_key_not_PosInf].
  apply Hk.
  by apply (located_present cols cpre ca cb cpost k (rep_sorted _ _ HR) Hcols Hle Hgt).
Qed.

(** ** The queries on a well-formed list *)

Lemma Rep_column_of s cols cpre ca cb cpost col k :
  Rep s cols → cols = cpre ++ ca :: cb :: cpost →
  ckind ca = Real k → col ∈ cols → ckind col = Real k → ca = col.
Proof.
  intros HR Hcols Hca Hin Hk.
  apply (sorted_column_unique cols); [apply (rep_sorted _ _ HR)| |done|congruence].
  rewrite Hcols. apply elem_of_app. right. by left.
Qed.

Lemma find_ref_present s cols col k a :
  Rep s cols → col ∈ cols → ckind col = Real k →
  caddrs col !! 0%nat = Some a →
  find_ref s k = Ok (Some a).
Proof.
  intros HR Hin Hk Ha.
  destruct (locate_present s cols k HR)
    as (cpre & ca & a' & cb & b & cpost & n & Hcols & Hca & Ha' & _ & Hloc & Hn & Ht & _).
  { apply elem_of_keys_of. eauto. }
  assert (ca = col) as -> by (by eapply Rep_column_of). simplify_eq.
  unfold find_ref. rewrite Hloc. simpl. rewrite (deref_Some _ _ _ Hn). simpl.
  destruct Ht as (-> & _ & ->). by rewrite key_eq_refl.
Qed.

Lemma find_present s cols col k a n :
  Rep s cols → col ∈ cols → ckind col = Real k →
  caddrs col !! 0%nat = Some a → mem s !! a = Some n →
  find s k = Ok (value n).
Proof.
  intros HR Hin Hk Ha Hn. unfold find.
  rewrite (find_ref_present s cols col k a) by done. simpl.
  by rewrite (deref_Some _ _ _ Hn).
Qed.

Lemma find_ref_absent s cols k :
  Rep s cols → k ∉ keys_of cols → find_ref s k = KeyNotFound.
Proof.
  intros HR Hk.
  destruct (locate_absent s cols k HR Hk)
    as (cpre & ca & a & cb & b & cpost & n & _ & _ & _ & Hloc & _ & _ & Hn & _ & Hm).
  unfold find_ref. rewrite Hloc. simpl. rewrite (deref_Some _ _ _ Hn). simpl.
  unfold key_ne in Hm. destruct (key_eq (key n) k), (n_inf n); done.
Qed.

Lemma find_absent s cols k :
  Rep s cols → k ∉ keys_of cols → find s k = KeyNotFound.
Proof.
  intros HR Hk. unfold find. by rewrite (find_ref_absent s cols k).
Qed.

Lemma count_tops_spec (h : heap) p l fuel i a acc :
  chain top bottom h p l → l !! i = Some a → (length l - i ≤ fuel)%nat →
  count_tops fuel h (Some a) acc = Ok (acc + N.of_nat (length l - 1 - i)).
Proof.
  intros Hc. revert i a acc. induction fuel as [|fuel IH]; intros i a acc Ha Hfuel.
  { apply lookup_lt_Some in Ha. lia. }
  destruct (chain_lookup _ _ _ _ _ _ _ Hc Ha) as (n & Hn & Htop & _).
  simpl. rewrite (deref_Some _ _ _ Hn). simpl. rewrite Htop.
  destruct (l !! S i) as [t|] eqn:Ht.
  - rewrite (IH (S i)); [|done|lia]. f_equal.
    apply lookup_lt_Some in Ht. lia.
  - apply lookup_ge_None in Ht. apply lookup_lt_Some in Ha.
    f_equal. lia.
Qed.

Lemma Rep_column_NoDup s cols col :
  Rep s cols → col ∈ cols → NoDup (caddrs col).
Proof.
  intros HR Hin. pose proof (rep_nodup _ _ HR) as Hnd.
  apply list_elem_of_split in Hin as (l1 & l2 & ->).
  unfold all_addrs in Hnd. rewrite fmap_app, concat_app, fmap_cons in Hnd.
  simpl in Hnd. apply NoDup_app in Hnd as (_ & _ & Hnd).
  by apply NoDup_app in Hnd as (Hnd & _).
Qed.

Lemma Rep_column_length s cols col :
  Rep s cols → col ∈ cols → (length (caddrs col) ≤ length (mem s))%nat.
Proof.
  intros HR Hin. apply pigeonhole; [by eapply Rep_column_NoDup|].
  pose proof (rep_vert _ _ HR) as Hv. rewrite Forall_forall in Hv.
  eapply chain_alloc, Hv, Hin.
Qed.

Lemma height_present s cols col k :
  Rep s cols → col ∈ cols → ckind col = Real k →
  height s k = Ok (N.of_nat (length (caddrs col))).
Proof.
  intros HR Hin Hk.
  destruct (locate_present s cols k HR)
    as (cpre & ca & a & cb & b & cpost & n & Hcols & Hca & Ha & _ & Hloc & Hn & Ht & Hm).
  { apply elem_of_keys_of. eauto. }
  assert (ca = col) as -> by (by eapply Rep_column_of).
  unfold height. rewrite Hloc. cbn [bind]. rewrite (deref_Some _ _ _ Hn). cbn [bind].
  rewrite Hm. pose proof (rep_vert _ _ HR) as Hv. rewrite Forall_forall in Hv.
  rewrite (count_tops_spec _ _ _ _ _ _ _ (Hv _ Hin) Ha).
  - f_equal. apply lookup_lt_Some in Ha. lia.
  - pose proof (Rep_column_length _ _ _ HR Hin). lia.
Qed.

Lemma height_absent s cols k :
  Rep s cols → k ∉ keys_of cols → height s k = KeyNotFound.
Proof.
  intros HR Hk.
  destruct (locate_absent s cols k HR Hk)
    as (cpre & ca & a & cb & b & cpost & n & _ & _ & _ & Hloc & _ & _ & Hn & _ & Hm).
  unfold height. rewrite Hloc. cbn [bind]. rewrite (deref_Some _ _ _ Hn). cbn [bind].
  by rewrite Hm.
Qed.

(** The address of a column in layer 0. *)
Definition base (c : column) : ptr := caddrs c !! 0%nat.

Lemma hd_cells0 (cols : list column) :
  Forall (λ c, 1 ≤ length (caddrs c))%nat cols →
  hd_error (cells 0 cols).*1 = hd_error cols ≫= base.
Proof.
  intros Hne. destruct Hne as [|c cols Hc _]; [done|].
  rewrite cells_cons. unfold base. simpl.
  destruct (caddrs c); [simpl in Hc; lia|done].
Qed.

Lemma last_cells0 (cols : list column) :
  Forall (λ c, 1 ≤ length (caddrs c))%nat cols →
  last (cells 0 cols).*1 = last cols ≫= base.
Proof.
  intros Hne. destruct cols as [|c cols _] using rev_ind; [done|].
  apply Forall_app in Hne as [_ Hne]. apply Forall_cons in Hne as [Hc _].
  rewrite cells_app, fmap_app, cells_cons, last_snoc. unfold base. simpl.
  destruct (caddrs c); [simpl in Hc; lia|]. simpl. by rewrite last_snoc.
Qed.

(** The node of a column in layer 0, and its two neighbours. *)
Lemma Rep_base s cols cpre c cpost :
  Rep s cols → cols = cpre ++ c :: cpost →
  ∃ a n, base c = Some a ∧ mem s !! a = Some n ∧ tagged (ckind c) n
    ∧ next n = hd_error cpost ≫= base
    ∧ previous n = last cpre ≫= base.
Proof.
  intros HR Hcols. pose proof (Rep_nonempty _ _ HR) as Hne.
  pose proof (Rep_row _ _ 0 HR) as Hrow. rewrite Hcols in Hne, Hrow.
  apply Forall_app in Hne as [Hpre Hne]. apply Forall_cons in Hne as [Hc Hpost].
  rewrite cells_app, cells_cons in Hrow.
  destruct (caddrs c !! 0%nat) as [a|] eqn:Ha; last first.
  { apply lookup_ge_None in Ha. lia. }
  destruct (row_node _ _ _ _ _ Hrow) as (n & Hn & Ht & Hnx & Hpv).
  exists a, n. by rewrite <-hd_cells0, <-last_cells0.
Qed.

Lemma Rep_first s cols :
  Rep s cols → ∃ hs rest, cols = Col NegInf hs :: rest.
Proof.
  intros HR. destruct (Rep_shape _ _ HR) as (hs & mid & ts & -> & _). eauto.
Qed.

Lemma Rep_last s cols :
  Rep s cols → ∃ rest ts, cols = rest ++ [Col PosInf ts].
Proof.
  intros HR. destruct (Rep_shape _ _ HR) as (hs & mid & ts & -> & _).
  exists (Col NegInf hs :: mid), ts. done.
Qed.

Lemma Rep_lt s cols cpre ca cb cpost :
  Rep s cols → cols = cpre ++ ca :: cb :: cpost → kind_lt (ckind ca) (ckind cb).
Proof.
  intros HR Hcols. pose proof (rep_sorted _ _ HR) as Hs. rewrite Hcols in Hs.
  rewrite fmap_app, !fmap_cons in Hs.
  apply StronglySorted_app_1_r, StronglySorted_cons in Hs as [Hall _].
  by apply Forall_cons in Hall as [? _].
Qed.

Lemma Rep_after_PosInf s cols cpre c cpost :
  Rep s cols → cols = cpre ++ c :: cpost → ckind c = PosInf → cpost = [].
Proof.
  intros HR Hcols Hc. destruct cpost as [|c' cpost]; [done|].
  pose proof (Rep_lt _ _ _ _ _ _ HR Hcols) as Hlt. by rewrite Hc in Hlt.
Qed.

Lemma Rep_before_NegInf s cols cpre c cpost :
  Rep s cols → cols = cpre ++ c :: cpost → ckind c = NegInf → cpre = [].
Proof.
  intros HR Hcols Hc. destruct cpre as [|c' cpre _] using rev_ind; [done|].
  rewrite <-app_assoc in Hcols. simpl in Hcols.
  pose proof (Rep_lt _ _ _ _ _ _ HR Hcols) as Hlt. rewrite Hc in Hlt.
  by destruct (ckind c').
Qed.

Lemma nextKey_present s cols k :
  Rep s cols → k ∈ keys_of cols →
  ∃ cpre ca cb cpost,
    cols = cpre ++ ca :: cb :: cpost ∧ ckind ca = Real k
    ∧ nextKey s k = match ckind cb with Real k' => Ok k' | _ => KeyNotFound end.
Proof.
  intros HR Hk.
  destruct (locate_present s cols k HR Hk)
    as (cpre & ca & a & cb & b & cpost & n & Hcols & Hca & Ha & Hb & Hloc & Hn & Ht & Hm).
  exists cpre, ca, cb, cpost. split_and!; [done|done|].
  destruct (Rep_base _ _ _ _ _ HR Hcols) as (a' & n' & Ha' & Hn' & _ & Hnx & _).
  unfold base in Ha'. assert (a' = a) as -> by congruence.
  assert (n' = n) as -> by congruence. simpl in Hnx. unfold base in Hnx.
  pose proof Hcols as Hcols'. rewrite (cons_middle ca), app_assoc in Hcols'.
  destruct (Rep_base _ _ _ _ _ HR Hcols') as (b' & nb & Hb' & Hnb & Htb & _).
  unfold base in Hb'. assert (b' = b) as -> by congruence.
  pose proof (Rep_lt _ _ _ _ _ _ HR Hcols) as Hlt.
  unfold nextKey. rewrite Hloc. cbn [bind]. rewrite (deref_Some _ _ _ Hn). cbn [bind].
  rewrite Hm, Hnx, Hb, (deref_Some _ _ _ Hnb). cbn [bind].
  rewrite Hca in Hlt. destruct (ckind cb); simpl in *; [done|..].
  - by destruct Htb as (_ & -> & ->).
  - by destruct Htb as (_ & ->).
Qed.

Lemma nextKey_absent s cols k :
  Rep s cols → k ∉ keys_of cols → nextKey s k = KeyNotFound.
Proof.
  intros HR Hk.
  destruct (locate_absent s cols k HR Hk)
    as (cpre & ca & a & cb & b & cpost & n & _ & _ & _ & Hloc & _ & _ & Hn & _ & Hm).
  unfold nextKey. rewrite Hloc. cbn [bind]. rewrite (deref_Some _ _ _ Hn). cbn [bind].
  by rewrite Hm.
Qed.

Lemma previousKey_present s cols k :
  Rep s cols → k ∈ keys_of cols →
  ∃ cpre cp ca cpost,
    cols = cpre ++ cp :: ca :: cpost ∧ ckind ca = Real k
    ∧ previousKey s k =
        match ckind cp with Real k' => Ok k' | _ => KeyNotFound end.
Proof.
  intros HR Hk.
  destruct (locate_present s cols k HR Hk)
    as (cpre & ca & a & cb & b & cpost & n & Hcols & Hca & Ha & Hb & Hloc & Hn & Ht & Hm).
  destruct cpre as [|cp cpre _] using rev_ind.
  { destruct (Rep_first _ _ HR) as (hs & rest & E). rewrite E in Hcols.
    injection Hcols as <- _. done. }
  rewrite <-app_assoc in Hcols. simpl in Hcols.
  exists cpre, cp, ca, (cb :: cpost). split_and!; [done|done|].
  pose proof Hcols as Hcols'. rewrite (cons_middle cp), app_assoc in Hcols'.
  destruct (Rep_base _ _ _ _ _ HR Hcols') as (a' & n' & Ha' & Hn' & _ & _ & Hpv).
  unfold base in Ha'. assert (a' = a) as -> by congruence.
  assert (n' = n) as -> by congruence. rewrite last_snoc in Hpv. simpl in Hpv.
  destruct (Rep_base _ _ _ _ _ HR Hcols) as (p & np & Hp & Hnp & Htp & _).
  pose proof (Rep_lt _ _ _ _ _ _ HR Hcols) as Hlt.
  unfold previousKey. rewrite Hloc. cbn [bind]. rewrite (deref_Some _ _ _ Hn). cbn [bind].
  rewrite Hm, Hpv, Hp, (deref_Some _ _ _ Hnp). cbn [bind].
  rewrite Hca in Hlt. destruct (ckind cp); simpl in *; [|..|done].
  - by destruct Htp as (-> & _).
  - by destruct Htp as (-> & _ & ->).
Qed.

Lemma previousKey_absent s cols k :
  Rep s cols → k ∉ keys_of cols → previousKey s k = KeyNotFound.
Proof.
  intros HR Hk.
  destruct (locate_absent s cols k HR Hk)
    as (cpre & ca & a & cb & b & cpost & n & _ & _ & _ & Hloc & _ & _ & Hn & _ & Hm).
  unfold previousKey. rewrite Hloc. cbn [bind]. rewrite (deref_Some _ _ _ Hn). cbn [bind].
  by rewrite Hm.
Qed.

Lemma to_bottom_spec (h : heap) l fuel i a :
  chain top bottom h None l → l !! i = Some a → (i < fuel)%nat →
  to_bottom fuel h (Some a) = Ok (l !! 0%nat).
Proof.
  intros Hc. revert fuel a. induction i as [|i IH]; intros fuel a Ha Hfuel.
  all: destruct fuel as [|fuel]; [lia|].
  all: destruct (chain_lookup _ _ _ _ _ _ _ Hc Ha) as (n & Hn & _ & Hbot).
  all: simpl; rewrite (deref_Some _ _ _ Hn); simpl; rewrite Hbot.
  - by rewrite Ha.
  - destruct (lookup_lt_is_Some_2 l i) as [b Hb].
    { apply lookup_lt_Some in Ha. lia. }
    rewrite Hb. apply IH; [done|lia].
Qed.

(** Every walk down from [head] ends on the first node of layer 0. *)
Lemma to_bottom_head s cols :
  Rep s cols →
  ∃ hs rest a, cols = Col NegInf hs :: rest ∧ hs !! 0%nat = Some a
    ∧ to_bottom (S (length (mem s))) (mem s) (head s) = Ok (Some a).
Proof.
  intros HR. pose proof (rep_layers _ _ HR).
  destruct (Rep_shape _ _ HR) as (hs & mid & ts & Hcols & Hhs & _ & Hhd & _).
  assert (Col NegInf hs ∈ cols) as Hin by (rewrite Hcols; by left).
  pose proof (rep_vert _ _ HR) as Hv. rewrite Forall_forall in Hv.
  specialize (Hv _ Hin). simpl in Hv.
  destruct (lookup_lt_is_Some_2 hs 0) as [a Ha]; [lia|].
  destruct (lookup_lt_is_Some_2 hs (pred (length hs))) as [t Ht]; [lia|].
  exists hs, (mid ++ [Col PosInf ts]), a. split_and!; [done|done|].
  rewrite Hhd, last_lookup, Ht.
  rewrite (to_bottom_spec _ _ _ _ _ Hv Ht); [by rewrite Ha|].
  pose proof (Rep_column_length _ _ _ HR Hin). simpl in *. lia.
Qed.

Lemma collect_keys_spec s cols fuel cpre c cpost a acc :
  Rep s cols → cols = cpre ++ c :: cpost → ckind c ≠ PosInf →
  base c = Some a → (length cpost ≤ fuel)%nat →
  collect_keys fuel (mem s) (Some a) acc = Ok (acc ++ keys_of cpost).
Proof.
  intros HR. revert fuel cpre c a acc.
  induction cpost as [|c' cpost IH]; intros fuel cpre c a acc Hcols Hc Ha Hfuel.
  { destruct (Rep_last _ _ HR) as (rest & ts & E). rewrite E in Hcols.
    apply app_inj_tail in Hcols as [_ E']. subst c. by destruct Hc. }
  destruct fuel as [|fuel]; [simpl in Hfuel; lia|].
  destruct (Rep_base _ _ _ _ _ HR Hcols) as (a' & n & Ha' & Hn & _ & Hnx & _).
  assert (a' = a) as -> by congruence. simpl in Hnx.
  pose proof Hcols as Hcols'. rewrite (cons_middle c), app_assoc in Hcols'.
  destruct (Rep_base _ _ _ _ _ HR Hcols') as (b & nb & Hb & Hnb & Htb & _).
  pose proof (Rep_lt _ _ _ _ _ _ HR Hcols) as Hlt.
  simpl. rewrite (deref_Some _ _ _ Hn). simpl.
  rewrite Hnx, Hb, (deref_Some _ _ _ Hnb). simpl.
  unfold keys_of. simpl. unfold real_key at 1.
  destruct (ckind c') as [|k'|] eqn:Hk'.
  - by destruct (ckind c).
  - destruct Htb as (_ & -> & ->). simpl.
    rewrite (IH fuel (cpre ++ [c]) c' b); [|done|by rewrite Hk'|done|simpl in Hfuel; lia].
    by rewrite <-app_assoc.
  - destruct Htb as (_ & ->). simpl.
    rewrite (Rep_after_PosInf _ _ _ _ _ HR Hcols' Hk'). simpl.
    by rewrite app_nil_r.
Qed.

Lemma cells0_length (cols : list column) :
  Forall (λ c, 1 ≤ length (caddrs c))%nat cols →
  length (cells 0 cols) = length cols.
Proof.
  induction 1 as [|c l Hc _ IH]; [done|].
  rewrite cells_cons. destruct (caddrs c); [simpl in Hc; lia|]. simpl. by rewrite IH.
Qed.

Lemma allKeysInOrder_spec s cols :
  Rep s cols → allKeysInOrder s = Ok (keys_of cols).
Proof.
  intros HR. destruct (to_bottom_head _ _ HR) as (hs & rest & a & Hcols & Ha & Hb).
  unfold allKeysInOrder. rewrite Hb. cbn [bind].
  rewrite (collect_keys_spec s cols _ [] (Col NegInf hs) rest a []); try done.
  - by rewrite Hcols.
  - pose proof (Rep_row _ _ 0 HR) as Hrow. apply row_length in Hrow.
    pose proof (Rep_nonempty _ _ HR) as Hne. rewrite Hcols in Hrow, Hne.
    apply Forall_cons in Hne as [_ Hne].
    rewrite cells_cons in Hrow. simpl in Hrow. rewrite Ha in Hrow. simpl in Hrow.
    rewrite (cells0_length rest) in Hrow by done. lia.
Qed.

(** * Insertion *)

(** ** The writes of [insert] *)

Ltac heap_lookup :=
  repeat first
    [ rewrite list_lookup_insert_eq
        by (rewrite ?length_insert, ?length_app; simpl; lia)
    | rewrite list_lookup_insert_ne by (try done; lia)
    | rewrite lookup_app_l by (rewrite ?length_insert, ?length_app; simpl; lia)
    | rewrite list_lookup_middle
        by (rewrite ?length_insert, ?length_app; simpl; lia) ].

Lemma link_after_spec (h : heap) a b c na nb nc :
  h !! a = Some na → next na = Some b → h !! b = Some nb → h !! c = Some nc →
  a ≠ b → a ≠ c → b ≠ c →
  ∃ h', link_after h (Some a) (Some c) = Ok h'
    ∧ length h' = length h
    ∧ (∀ x, x ≠ a → x ≠ b → x ≠ c → h' !! x = h !! x)
    ∧ h' !! a = Some (set_next (Some c) na)
    ∧ h' !! b = Some (set_previous (Some c) nb)
    ∧ h' !! c = Some (set_previous (Some a) (set_next (Some b) nc)).
Proof.
  intros Ha Hnx Hb Hc Hab Hac Hbc.
  pose proof (lookup_lt_Some _ _ _ Ha). pose proof (lookup_lt_Some _ _ _ Hb).
  pose proof (lookup_lt_Some _ _ _ Hc).
  unfold link_after, store, deref. rewrite Ha. cbn [bind]. rewrite Hc. cbn [bind].
  heap_lookup. cbn [bind]. heap_lookup. rewrite Ha. cbn [bind]. rewrite Hnx.
  heap_lookup. rewrite Hb. cbn [bind]. heap_lookup. rewrite Ha.
  eexists. split; [done|]. split_and!.
  - by rewrite !length_insert.
  - intros x ???. by heap_lookup.
  - by heap_lookup.
  - by heap_lookup.
  - by heap_lookup.
Qed.

(** ** Addresses *)

Lemma all_addrs_app (l1 l2 : list column) :
  all_addrs (l1 ++ l2) = all_addrs l1 ++ all_addrs l2.
Proof. unfold all_addrs. by rewrite fmap_app, concat_app. Qed.

Lemma all_addrs_cons c (l : list column) :
  all_addrs (c :: l) = caddrs c ++ all_addrs l.
Proof. done. Qed.

Lemma elem_of_all_addrs (cols : list column) x :
  x ∈ all_addrs cols ↔ ∃ col, col ∈ cols ∧ x ∈ caddrs col.
Proof.
  unfold all_addrs. rewrite list_elem_of_In, in_concat. split.
  - intros (l & Hl%list_elem_of_In & Hx%list_elem_of_In).
    apply list_elem_of_fmap in Hl as (col & -> & Hcol). eauto.
  - intros (col & Hcol & Hx). exists (caddrs col).
    rewrite <-!list_elem_of_In. split; [|done].
    apply list_elem_of_fmap. eauto.
Qed.

Lemma Rep_alloc s cols x :
  Rep s cols → x ∈ all_addrs cols → (x < length (mem s))%nat.
Proof.
  intros HR (col & Hcol & Hx)%elem_of_all_addrs.
  pose proof (rep_vert _ _ HR) as Hv. rewrite Forall_forall in Hv.
  pose proof (chain_alloc _ _ _ _ _ (Hv _ Hcol)) as Ha.
  rewrite Forall_forall in Ha. by apply Ha.
Qed.

(** An address belongs to one column and one layer. *)
Lemma addr_unique (cols : list column) c1 c2 i j x :
  NoDup (all_addrs cols) → c1 ∈ cols → c2 ∈ cols →
  caddrs c1 !! i = Some x → caddrs c2 !! j = Some x →
  c1 = c2 ∧ i = j.
Proof.
  induction cols as [|c cols IH]; [by intros _ ?%elem_of_nil|].
  rewrite all_addrs_cons. intros (Hc & Hdisj & Hnd)%NoDup_app.
  assert (∀ c', c' ∈ cols → x ∈ caddrs c → x ∈ caddrs c' → False) as Hno.
  { intros c' Hc' Hx Hx'. apply (Hdisj x Hx), elem_of_all_addrs. eauto. }
  intros [->|H1]%elem_of_cons [->|H2]%elem_of_cons Hi Hj.
  - split; [done|]. exact (NoDup_lookup _ _ _ _ Hc Hi Hj).
  - destruct (Hno c2); [done|by eapply list_elem_of_lookup_2..].
  - destruct (Hno c1); [done|by eapply list_elem_of_lookup_2..].
  - by apply IH.
Qed.

Lemma layer_disjoint (cols : list column) i j x :
  NoDup (all_addrs cols) → x ∈ layer i cols → x ∈ layer j cols → i = j.
Proof.
  unfold layer. intros Hnd ([x1 k1] & -> & H1)%list_elem_of_fmap
    ([x2 k2] & Hx & H2)%list_elem_of_fmap. simpl in Hx. subst x2.
  apply elem_of_cells in H1 as (c1 & ? & _ & ?).
  apply elem_of_cells in H2 as (c2 & ? & _ & ?).
  by destruct (addr_unique cols c1 c2 i j x1).
Qed.

Lemma elem_of_layer_inv i (cols : list column) x :
  x ∈ layer i cols → ∃ col, col ∈ cols ∧ caddrs col !! i = Some x.
Proof.
  unfold layer. intros ([x1 k1] & -> & H1)%list_elem_of_fmap.
  apply elem_of_cells in H1 as (c1 & ? & _ & ?). eauto.
Qed.

(** ** A node linked into a layer *)

(** [spliced h h' a b k v below]: [h'] is [h] after a node for [k] and [v]
    was allocated and linked between the neighbours [a] and [b] of a
    layer, on top of the node [below]. *)
Record spliced (h h' : heap) (a b : addr) (k : Key) (v : Value)
    (below : ptr) : Prop := {
  sp_len : length h' = S (length h);
  sp_ab : a ≠ b;
  sp_other : ∀ x n, h !! x = Some n → x ≠ a → x ≠ b → below ≠ Some x →
    h' !! x = Some n;
  sp_a : ∃ na, h !! a = Some na ∧ next na = Some b
    ∧ h' !! a = Some (set_next (Some (length h)) na);
  sp_b : ∃ nb, h !! b = Some nb
    ∧ h' !! b = Some (set_previous (Some (length h)) nb);
  sp_c : h' !! length h =
    Some (mkNode k v false false (Some b) (Some a) None below);
  sp_t : ∀ t, below = Some t →
    t ≠ a ∧ t ≠ b ∧ ∃ nt, h !! t = Some nt
    ∧ h' !! t = Some (set_top (Some (length h)) nt);
}.

Section Spliced.
Context (h h' : heap) (a b : addr) (k : Key) (v : Value) (below : ptr).
Context (Hsp : spliced h h' a b k v below).

Lemma spliced_cases x n :
  h !! x = Some n →
  h' !! x = Some n
  ∨ h' !! x = Some (set_next (Some (length h)) n)
  ∨ h' !! x = Some (set_previous (Some (length h)) n)
  ∨ h' !! x = Some (set_top (Some (length h)) n).
Proof.
  intros Hx. destruct (decide (x = a)) as [->|Ha].
  { destruct (sp_a _ _ _ _ _ _ _ Hsp) as (na & ? & _ & ?).
    right. left. congruence. }
  destruct (decide (x = b)) as [->|Hb].
  { destruct (sp_b _ _ _ _ _ _ _ Hsp) as (nb & ? & ?).
    right. right. left. congruence. }
  destruct (decide (below = Some x)) as [Ht|Ht].
  { destruct (sp_t _ _ _ _ _ _ _ Hsp _ Ht) as (_ & _ & nt & ? & ?).
    right. right. right. congruence. }
  left. by apply (sp_other _ _ _ _ _ _ _ Hsp).
Qed.

Lemma spliced_data x n :
  h !! x = Some n →
  ∃ n', h' !! x = Some n' ∧ key n' = key n ∧ value n' = value n
    ∧ n_inf n' = n_inf n ∧ p_inf n' = p_inf n.
Proof.
  intros Hx. destruct (spliced_cases x n Hx) as [?|[?|[?|?]]]; eauto 10.
Qed.

Lemma spliced_tagged x n c :
  h !! x = Some n → tagged c n → ∃ n', h' !! x = Some n' ∧ tagged c n'.
Proof.
  intros Hx Ht. destruct (spliced_data x n Hx) as (n' & ? & Hk & _ & Hn & Hp).
  exists n'. split; [done|]. destruct c; simpl in *; rewrite Hn, Hp, ?Hk; done.
Qed.

Lemma spliced_horiz x n :
  h !! x = Some n → x ≠ a → x ≠ b →
  ∃ n', h' !! x = Some n' ∧ next n' = next n ∧ previous n' = previous n.
Proof.
  intros Hx Ha Hb. destruct (decide (below = Some x)) as [Ht|Ht].
  - destruct (sp_t _ _ _ _ _ _ _ Hsp _ Ht) as (_ & _ & nt & ? & ?).
    assert (nt = n) as -> by congruence. eauto.
  - exists n. split; [|done]. by apply (sp_other _ _ _ _ _ _ _ Hsp).
Qed.

Lemma spliced_vert x n :
  h !! x = Some n → below ≠ Some x →
  ∃ n', h' !! x = Some n' ∧ top n' = top n ∧ bottom n' = bottom n.
Proof.
  intros Hx Ht. destruct (decide (x = a)) as [->|Ha].
  { destruct (sp_a _ _ _ _ _ _ _ Hsp) as (na & ? & _ & ?).
    assert (na = n) as -> by congruence. eauto. }
  destruct (decide (x = b)) as [->|Hb].
  { destruct (sp_b _ _ _ _ _ _ _ Hsp) as (nb & ? & ?).
    assert (nb = n) as -> by congruence. eauto. }
  exists n. split; [|done]. by apply (sp_other _ _ _ _ _ _ _ Hsp).
Qed.

End Spliced.

Lemma or_last_None (l : list addr) : or_last None l = last l.
Proof. unfold or_last. by destruct (last l). Qed.

Lemma layer_cons j c (l : list column) :
  layer j (c :: l) = layer j [c] ++ layer j l.
Proof. apply (layer_app j [c] l). Qed.

Lemma layer_single j k (as_ : list addr) :
  layer j [Col (Real k) as_] = match as_ !! j with Some x => [x] | None => [] end.
Proof. unfold layer. rewrite cells_cons. simpl. by destruct (as_ !! j). Qed.

(** Linking a node on top of a column, or as a new column, keeps the list
    well formed. *)
Lemma splice_Rep s cols cpre X cpost as_ k v a b h' nk :
  Rep s cols →
  cols = cpre ++ X ++ cpost →
  (∀ j, layer j X = match as_ !! j with Some x => [x] | None => [] end) →
  all_addrs X = as_ →
  Forall (λ x, ∃ n, mem s !! x = Some n ∧ tagged (Real k) n) as_ →
  chain top bottom (mem s) None as_ →
  (length as_ + 1 < N.to_nat (num_layers s))%nat →
  last (layer (length as_) cpre) = Some a →
  hd_error (layer (length as_) cpost) = Some b →
  spliced (mem s) h' a b k v (last as_) →
  StronglySorted kind_lt
    (ckind <$> cpre ++ Col (Real k) (as_ ++ [length (mem s)]) :: cpost) →
  nk = N.of_nat (length
    (keys_of (cpre ++ Col (Real k) (as_ ++ [length (mem s)]) :: cpost))) →
  Rep (mkSkipList (num_layers s) nk (head s) (tail s) h')
      (cpre ++ Col (Real k) (as_ ++ [length (mem s)]) :: cpost).
Proof.
  intros HR Hcols HX HXa Htag Hcol Hlen Ha Hb Hsp Hsorted Hnk.
  set (c := length (mem s)) in *. set (i := length as_) in *.
  assert (cpre ≠ []) as Hpre by (intros ->; done).
  assert (cpost ≠ []) as Hpost by (intros ->; done).
  pose proof (rep_nodup _ _ HR) as Hnd.
  rewrite Hcols, !all_addrs_app, HXa in Hnd.
  assert (∀ x, x ∈ all_addrs cols → x ≠ c) as Hfresh.
  { intros x Hx%(Rep_alloc _ _ _ HR). unfold c. lia. }
  assert (layer i X = []) as HXi.
  { rewrite HX, lookup_ge_None_2; [done|]. unfold i. lia. }
  assert (layer i cols = layer i cpre ++ layer i cpost) as Hli.
  { by rewrite Hcols, !layer_app, HXi. }
  apply last_Some in Ha as [l1 Hl1].
  apply head_Some in Hb as [l2 Hl2].
  rewrite Hl1, Hl2, <-app_assoc in Hli. simpl in Hli.
  pose proof (layer_NoDup i _ (rep_nodup _ _ HR)) as Hndi. rewrite Hli in Hndi.
  assert (∀ j x, x ∈ layer j cols → j ≠ i → x ≠ a ∧ x ≠ b) as Hother.
  { intros j x Hx Hj. split; intros ->; apply Hj;
      apply (layer_disjoint cols j i _ (rep_nodup _ _ HR) Hx); rewrite Hli;
      apply elem_of_app; right; [by left|right; by left]. }
  assert (∀ col x, col ∈ cpre ++ cpost → x ∈ caddrs col → last as_ ≠ Some x)
    as Hnot_below.
  { intros col x Hin Hx Hl%last_Some_elem_of.
    apply NoDup_app in Hnd as (_ & Hd1 & Hnd).
    apply NoDup_app in Hnd as (_ & Hd2 & _).
    apply elem_of_app in Hin as [Hin|Hin].
    - apply (Hd1 x); [apply elem_of_all_addrs; eauto|].
      apply elem_of_app. by left.
    - apply (Hd2 x); [done|]. apply elem_of_all_addrs; eauto. }
  split; simpl.
  - apply (rep_layers _ _ HR).
  - destruct (rep_head _ _ HR) as (hs & Hhd & ?). exists hs. split; [|done].
    rewrite Hcols in Hhd. by destruct cpre.
  - destruct (rep_tail _ _ HR) as (ts & Htl & ?). exists ts. split; [|done].
    rewrite Hcols, app_assoc, last_app in Htl.
    rewrite (cons_middle _ cpre), app_assoc, last_app.
    destruct (last cpost) eqn:E; [done|]. by apply last_None in E.
  - pose proof (rep_heights _ _ HR) as Hh. rewrite Hcols in Hh.
    apply Forall_app in Hh as [Hh1 Hh2]. apply Forall_app in Hh2 as [_ Hh2].
    apply Forall_app. split; [done|]. apply Forall_cons. split; [|done].
    unfold height_ok. simpl. rewrite length_app. simpl. lia.
  - done.
  - done.
  - rewrite all_addrs_app, all_addrs_cons. simpl.
    rewrite <-(app_assoc as_), app_assoc. apply NoDup_app.
    rewrite app_assoc in Hnd. apply NoDup_app in Hnd as (Hn1 & Hd & Hn2).
    split_and!; [done| |].
    + intros x Hx [->|Hx']%elem_of_cons; [|by apply (Hd x)].
      apply (Hfresh c); [|done]. rewrite Hcols, !all_addrs_app, HXa.
      by rewrite app_assoc; apply elem_of_app; left.
    + apply NoDup_cons. split; [|done]. intros Hx.
      apply (Hfresh c); [|done]. rewrite Hcols, !all_addrs_app, HXa.
      by do 2 (apply elem_of_app; right).
  - pose proof (rep_tagged _ _ HR) as Ht. rewrite Hcols in Ht.
    apply Forall_app in Ht as [Ht1 Ht2]. apply Forall_app in Ht2 as [_ Ht2].
    assert (∀ l, Forall (λ c0, Forall (λ x, ∃ n, mem s !! x = Some n
                   ∧ tagged (ckind c0) n) (caddrs c0)) l →
                 Forall (λ c0, Forall (λ x, ∃ n, h' !! x = Some n
                   ∧ tagged (ckind c0) n) (caddrs c0)) l) as Hmono.
    { intros l Hl. eapply Forall_impl; [done|]. simpl. intros c0 Hc0.
      eapply Forall_impl; [done|]. simpl.
      intros x (n & Hn & Htn). by eapply spliced_tagged. }
    apply Forall_app. split; [by apply Hmono|].
    apply Forall_cons. split; [|by apply Hmono]. simpl.
    apply Forall_app. split.
    + eapply Forall_impl; [done|]. simpl.
      intros x (n & Hn & Htn).
      exact (spliced_tagged _ _ _ _ _ _ _ Hsp x n (Real k) Hn Htn).
    + apply Forall_singleton. eexists. split; [apply (sp_c _ _ _ _ _ _ _ Hsp)|].
      done.
  - pose proof (rep_vert _ _ HR) as Hv. rewrite Hcols in Hv.
    apply Forall_app in Hv as [Hv1 Hv2]. apply Forall_app in Hv2 as [_ Hv2].
    assert (∀ l, l ⊆ cpre ++ cpost →
                 Forall (λ c0, chain top bottom (mem s) None (caddrs c0)) l →
                 Forall (λ c0, chain top bottom h' None (caddrs c0)) l) as Hmono.
    { intros l Hl Hall. apply Forall_forall. intros c0 Hc0.
      rewrite Forall_forall in Hall.
      eapply chain_fields; [|by apply Hall].
      intros x n Hx Hn. eapply spliced_vert; [done|done|].
      eapply Hnot_below; [|done]. by apply Hl. }
    apply Forall_app. split.
    { apply Hmono; [|done]. intros x Hx. apply elem_of_app. by left. }
    apply Forall_cons. split.
    2:{ apply Hmono; [|done]. intros x Hx. apply elem_of_app. by right. }
    simpl. eapply chain_snoc; [done| | | |].
    + apply NoDup_app in Hnd as (_ & _ & Hnd).
      by apply NoDup_app in Hnd as (Hnd & _).
    + intros x n Hx Hl Hn. eapply spliced_vert; [done|done|congruence].
    + intros t nt Hl Hn.
      destruct (sp_t _ _ _ _ _ _ _ Hsp _ Hl) as (_ & _ & nt' & ? & ?).
      assert (nt' = nt) as -> by congruence. eauto.
    + eexists. split; [apply (sp_c _ _ _ _ _ _ _ Hsp)|]. simpl.
      by rewrite or_last_None.
  - intros j. pose proof (rep_horiz _ _ HR j) as Hj.
    rewrite layer_app, layer_cons, layer_single.
    destruct (decide (j = i)) as [->|Hji].
    + rewrite lookup_app_r, Nat.sub_diag by done. simpl.
      rewrite Hli in Hj. rewrite Hl1, Hl2, <-app_assoc. simpl.
      destruct (sp_a _ _ _ _ _ _ _ Hsp) as (na & Hna & _ & Hna').
      destruct (sp_b _ _ _ _ _ _ _ Hsp) as (nb & Hnb & Hnb').
      eapply chain_splice; [done| | | |].
      * intros x n Hx Hn. eapply spliced_horiz; [done|done|..].
        -- intros ->. apply NoDup_app in Hndi as (_ & Hd & Hndi).
           apply elem_of_app in Hx as [Hx|Hx]; [apply (Hd a Hx); by left|].
           apply NoDup_cons in Hndi as [Hndi _]. apply Hndi. by right.
        -- intros ->. apply NoDup_app in Hndi as (_ & Hd & Hndi).
           apply elem_of_app in Hx as [Hx|Hx]; [apply (Hd b Hx); right; by left|].
           apply NoDup_cons in Hndi as [_ Hndi].
           by apply NoDup_cons in Hndi as [Hndi _].
      * intros na0 Hna0. assert (na0 = na) as -> by congruence. eauto.
      * intros nb0 Hnb0. assert (nb0 = nb) as -> by congruence. eauto.
      * eexists. split; [apply (sp_c _ _ _ _ _ _ _ Hsp)|]. done.
    + assert ((as_ ++ [c]) !! j = as_ !! j) as ->.
      { destruct (decide (j < i)%nat); [by rewrite lookup_app_l|].
        rewrite !lookup_ge_None_2; [done|fold i; lia|].
        rewrite length_app. simpl. fold i. lia. }
      rewrite <-HX, <-!layer_app, <-Hcols.
      eapply chain_fields; [|done]. intros x n Hx Hn.
      destruct (Hother j x Hx Hji). by eapply spliced_horiz.
Qed.

(** ** A new top layer *)

(** [grown h h' hd tl]: [h'] is [h] after two sentinels were allocated and
    linked on top of the sentinels [hd] and [tl]. *)
Record grown (h h' : heap) (hd tl : addr) : Prop := {
  gr_len : length h' = S (S (length h));
  gr_other : ∀ x n, h !! x = Some n → x ≠ hd → x ≠ tl → h' !! x = Some n;
  gr_hd : ∃ n, h !! hd = Some n
    ∧ h' !! hd = Some (set_top (Some (length h)) n);
  gr_tl : ∃ n, h !! tl = Some n
    ∧ h' !! tl = Some (set_top (Some (S (length h))) n);
  gr_c1 : h' !! length h =
    Some (mkNode default_ctor default_ctor false true
            (Some (S (length h))) None None (Some hd));
  gr_c2 : h' !! S (length h) =
    Some (mkNode default_ctor default_ctor true false
            None (Some (length h)) None (Some tl));
}.

Lemma add_layer_ops s hd tl nh nt :
  head s = Some hd → tail s = Some tl → hd ≠ tl →
  mem s !! hd = Some nh → mem s !! tl = Some nt →
  ∃ h', add_layer s =
          Ok (mkSkipList (num_layers s + 1) (num_keys s)
                (Some (length (mem s))) (Some (S (length (mem s)))) h')
    ∧ grown (mem s) h' hd tl.
Proof.
  intros Hhd Htl Hne Hnh Hnt.
  pose proof (lookup_lt_Some _ _ _ Hnh). pose proof (lookup_lt_Some _ _ _ Hnt).
  unfold add_layer, new, store. rewrite Hhd, Htl.
  replace (length (mem s ++ [node_default])) with (S (length (mem s)))
    by (rewrite length_app; simpl; lia).
  repeat (heap_lookup; cbn [bind]). rewrite Hnh. cbn [bind].
  repeat (heap_lookup; cbn [bind]). rewrite Hnt. cbn [bind].
  eexists. split; [done|]. split.
  - rewrite !length_insert, !length_app. simpl. lia.
  - intros x n Hx ??. pose proof (lookup_lt_Some _ _ _ Hx).
    heap_lookup. done.
  - exists nh. split; [done|]. by heap_lookup.
  - exists nt. split; [done|]. by heap_lookup.
  - by heap_lookup.
  - by heap_lookup.
Qed.

Section Grown.
Context (h h' : heap) (hd tl : addr) (Hgr : grown h h' hd tl).

Lemma grown_cases x n :
  h !! x = Some n →
  h' !! x = Some n ∨ ∃ p, h' !! x = Some (set_top p n).
Proof.
  intros Hx. destruct (decide (x = hd)) as [->|Ha].
  { destruct (gr_hd _ _ _ _ Hgr) as (m & ? & ?).
    right. eexists. by assert (m = n) as -> by congruence. }
  destruct (decide (x = tl)) as [->|Hb].
  { destruct (gr_tl _ _ _ _ Hgr) as (m & ? & ?).
    right. eexists. by assert (m = n) as -> by congruence. }
  left. by apply (gr_other _ _ _ _ Hgr).
Qed.

Lemma grown_data x n :
  h !! x = Some n →
  ∃ n', h' !! x = Some n' ∧ key n' = key n ∧ value n' = value n
    ∧ n_inf n' = n_inf n ∧ p_inf n' = p_inf n.
Proof.
  intros Hx. destruct (grown_cases x n Hx) as [?|[p ?]]; eauto 10.
Qed.

Lemma grown_tagged x n c :
  h !! x = Some n → tagged c n → ∃ n', h' !! x = Some n' ∧ tagged c n'.
Proof.
  intros Hx Ht. destruct (grown_data x n Hx) as (n' & ? & Hk & _ & Hn & Hp).
  exists n'. split; [done|]. destruct c; simpl in *; rewrite Hn, Hp, ?Hk; done.
Qed.

Lemma grown_horiz x n :
  h !! x = Some n →
  ∃ n', h' !! x = Some n' ∧ next n' = next n ∧ previous n' = previous n.
Proof.
  intros Hx. destruct (grown_cases x n Hx) as [?|[p ?]]; eauto.
Qed.

End Grown.

Lemma add_layer_Rep s hs mid ts hd tl h' :
  Rep s (Col NegInf hs :: mid ++ [Col PosInf ts]) →
  last hs = Some hd → last ts = Some tl →
  grown (mem s) h' hd tl →
  Rep (mkSkipList (num_layers s + 1) (num_keys s)
         (Some (length (mem s))) (Some (S (length (mem s)))) h')
      (Col NegInf (hs ++ [length (mem s)])
         :: mid ++ [Col PosInf (ts ++ [S (length (mem s))])]).
Proof.
  intros HR Hhd Htl Hgr.
  set (cols := Col NegInf hs :: mid ++ [Col PosInf ts]) in *.
  set (c1 := length (mem s)) in *.
  destruct (Rep_shape _ _ HR)
    as (hs' & mid' & ts' & Heq & Hhs & Hts & _ & _ & Hmid & Hreal).
  injection Heq as <- Heq. apply app_inj_tail in Heq as [<- [= <-]].
  pose proof (rep_layers _ _ HR) as HL.
  pose proof (rep_nodup _ _ HR) as Hnd.
  assert (∀ x, x ∈ all_addrs cols → (x < c1)%nat) as Hfresh.
  { intros x. apply (Rep_alloc _ _ _ HR). }
  assert (∀ col x, col ∈ cols → x ∈ caddrs col →
            (last (caddrs col) ≠ Some x) → x ≠ hd ∧ x ≠ tl) as Hnot_last.
  { intros col x Hcol Hx Hl.
    destruct (list_elem_of_lookup_1 _ _ Hx) as [ix Hix].
    split; intros ->.
    - rewrite last_lookup in Hhd.
      destruct (addr_unique cols col (Col NegInf hs) ix (pred (length hs)) hd Hnd Hcol) as [-> _];
        [by left|done|done|]. simpl in Hl. by rewrite last_lookup, Hhd in Hl.
    - rewrite last_lookup in Htl.
      destruct (addr_unique cols col (Col PosInf ts) ix (pred (length ts)) tl Hnd Hcol) as [-> _];
        [|done|done|].
      + right. apply elem_of_app. right. by left.
      + simpl in Hl. by rewrite last_lookup, Htl in Hl. }
  unfold all_addrs in Hnd. simpl in Hnd.
  split; simpl.
  - lia.
  - eexists. split; [done|]. by rewrite last_snoc.
  - eexists. rewrite app_comm_cons, !last_snoc. done.
  - apply Forall_cons. split.
    { unfold height_ok. simpl. rewrite length_app. simpl. lia. }
    apply Forall_app. split.
    + rewrite Forall_forall in Hmid. rewrite Forall_forall in Hreal.
      apply Forall_forall. intros c Hc. destruct (Hreal c Hc) as [k Hk].
      specialize (Hmid c Hc). unfold height_ok. rewrite Hk. lia.
    + apply Forall_singleton. unfold height_ok. simpl. rewrite length_app.
      simpl. lia.
  - rewrite (rep_count _ _ HR). unfold cols, keys_of. simpl.
    by rewrite !omap_app.
  - pose proof (rep_sorted _ _ HR) as Hs. unfold cols in Hs.
    by rewrite fmap_cons, fmap_app in *.
  - unfold all_addrs. simpl. rewrite fmap_app, concat_app in *. simpl in *.
    rewrite app_nil_r in *.
    assert (c1 ∉ hs ++ concat (caddrs <$> mid) ++ ts) as Hc1.
    { intros Hx. assert (c1 < c1)%nat; [|lia]. apply Hfresh.
      unfold all_addrs, cols. simpl. rewrite fmap_app, concat_app. simpl.
      by rewrite app_nil_r. }
    assert (S c1 ∉ hs ++ concat (caddrs <$> mid) ++ ts) as Hc2.
    { intros Hx. assert (S c1 < c1)%nat; [|lia]. apply Hfresh.
      unfold all_addrs, cols. simpl. rewrite fmap_app, concat_app. simpl.
      by rewrite app_nil_r. }
    assert ((hs ++ [c1]) ++ concat (caddrs <$> mid) ++ ts ++ [S c1]
              ≡ₚ c1 :: S c1 :: hs ++ concat (caddrs <$> mid) ++ ts) as ->.
    { rewrite <-!app_assoc. simpl. rewrite <-Permutation_middle.
      apply perm_skip. rewrite !app_assoc. symmetry.
      apply Permutation_cons_append. }
    apply NoDup_cons. split.
    { intros [?|?]%elem_of_cons; [lia|done]. }
    by apply NoDup_cons.
  - pose proof (rep_tagged _ _ HR) as Ht. unfold cols in Ht.
    apply Forall_cons in Ht as [Ht0 Ht]. apply Forall_app in Ht as [Ht1 Ht2].
    apply Forall_cons in Ht2 as [Ht2 _]. cbn [ckind caddrs] in *.
    assert (∀ c l, Forall (λ x, ∃ n, mem s !! x = Some n ∧ tagged c n) l →
                   Forall (λ x, ∃ n, h' !! x = Some n ∧ tagged c n) l) as Hmono.
    { intros c l Hl. eapply Forall_impl; [done|]. cbn beta.
      intros x (n & Hn & Htn).
      exact (grown_tagged _ _ _ _ Hgr x n c Hn Htn). }
    apply Forall_cons. split; cbn [ckind caddrs].
    { apply Forall_app. split; [by apply Hmono|].
      apply Forall_singleton. eexists. split; [apply (gr_c1 _ _ _ _ Hgr)|done]. }
    apply Forall_app. split.
    { eapply Forall_impl; [done|]. cbn beta. intros c. apply Hmono. }
    apply Forall_singleton. cbn [ckind caddrs].
    apply Forall_app. split; [by apply Hmono|].
    apply Forall_singleton. eexists. split; [apply (gr_c2 _ _ _ _ Hgr)|done].
  - pose proof (rep_vert _ _ HR) as Hv. unfold cols in Hv.
    apply Forall_cons in Hv as [Hv0 Hv]. apply Forall_app in Hv as [Hv1 Hv2].
    apply Forall_cons in Hv2 as [Hv2 _]. simpl in *.
    destruct (gr_hd _ _ _ _ Hgr) as (nh & Hnh & Hnh').
    destruct (gr_tl _ _ _ _ Hgr) as (nt & Hnt & Hnt').
    apply Forall_cons. split; simpl.
    { eapply chain_snoc; [done| | | |].
      - apply NoDup_app in Hnd. tauto.
      - intros x n Hx Hl Hn. exists n. split; [|done].
        destruct (Hnot_last (Col NegInf hs) x); [by left|done|done|].
        by apply (gr_other _ _ _ _ Hgr).
      - intros t n' Ht Hn. assert (t = hd) as -> by congruence.
        assert (n' = nh) as -> by congruence. eauto.
      - eexists. split; [apply (gr_c1 _ _ _ _ Hgr)|]. simpl.
        by rewrite or_last_None. }
    apply Forall_app. split.
    { apply Forall_forall. intros c Hc. rewrite Forall_forall in Hv1.
      eapply chain_fields; [|by apply Hv1]. intros x n Hx Hn.
      exists n. split; [|done].
      assert (c ∈ cols) as Hcin.
      { right. apply elem_of_app. by left. }
      assert (x ≠ hd ∧ x ≠ tl) as [??]; [|by apply (gr_other _ _ _ _ Hgr)].
      destruct (list_elem_of_lookup_1 _ _ Hx) as [ix Hix].
      rewrite Forall_forall in Hreal. destruct (Hreal c Hc) as [k Hk].
      rewrite last_lookup in Hhd. rewrite last_lookup in Htl.
      split; intros ->.
      - destruct (addr_unique cols c (Col NegInf hs) ix (pred (length hs)) hd (rep_nodup _ _ HR) Hcin)
          as [-> _]; [by left|done|done|done].
      - destruct (addr_unique cols c (Col PosInf ts) ix (pred (length ts)) tl (rep_nodup _ _ HR) Hcin)
          as [-> _]; [|done|done|done].
        right. apply elem_of_app. right. by left. }
    apply Forall_singleton. simpl.
    eapply chain_snoc; [done| | | |].
    + apply NoDup_app in Hnd as (_ & _ & Hnd). rewrite fmap_app, concat_app in Hnd.
      apply NoDup_app in Hnd as (_ & _ & Hnd). simpl in Hnd.
      by rewrite app_nil_r in Hnd.
    + intros x n Hx Hl Hn. exists n. split; [|done].
      destruct (Hnot_last (Col PosInf ts) x); [|done|done|].
      { right. apply elem_of_app. right. by left. }
      by apply (gr_other _ _ _ _ Hgr).
    + intros t n' Ht Hn. assert (t = tl) as -> by congruence.
      assert (n' = nt) as -> by congruence. eauto.
    + eexists. split; [apply (gr_c2 _ _ _ _ Hgr)|]. simpl.
      by rewrite or_last_None.
  - intros j. pose proof (rep_horiz _ _ HR j) as Hj.
    unfold layer in *. unfold cols in Hj.
    rewrite cells_cons, cells_app, cells_cons in *. simpl in *.
    destruct (decide (j < length hs)%nat) as [Hlt|Hge].
    + rewrite !lookup_app_l by lia.
      eapply chain_fields; [|done]. intros x n Hx Hn.
      by eapply grown_horiz.
    + destruct (decide (j = length hs)) as [->|Hne].
      * rewrite !lookup_app_r by lia.
        replace (length hs - length ts)%nat with 0%nat by lia.
        rewrite Nat.sub_diag, cells_above; last first.
        { eapply Forall_impl; [done|]. simpl. intros; lia. }
        simpl.
        eexists. split; [apply (gr_c1 _ _ _ _ Hgr)|]. split_and!; try done.
        eexists. split; [apply (gr_c2 _ _ _ _ Hgr)|]. done.
      * rewrite !lookup_ge_None_2, cells_above; [done| | |].
        -- eapply Forall_impl; [done|]. simpl. intros; lia.
        -- rewrite length_app. simpl. lia.
        -- rewrite length_app. simpl. lia.
Qed.

(** ** The walk to the left *)

Lemma layer_one j (c : column) :
  layer j [c] = match caddrs c !! j with Some x => [x] | None => [] end.
Proof. unfold layer. rewrite cells_cons. simpl. by destruct (caddrs c !! j). Qed.

Lemma Rep_head_level s c0 l i :
  Rep s (c0 :: l) → (i < N.to_nat (num_layers s))%nat →
  is_Some (caddrs c0 !! i).
Proof.
  intros HR Hi. destruct (Rep_shape _ _ HR) as (hs & mid & ts & Heq & Hhs & _).
  injection Heq as -> _. apply lookup_lt_is_Some_2. simpl. lia.
Qed.

(** From the predecessor of a column in layer [j], the walk to the left
    stops below the predecessor of that column in layer [j + 1]. *)
Lemma walk_left_spec s cols j :
  Rep s cols → (S j < N.to_nat (num_layers s))%nat →
  ∀ cpre rest fuel x,
    cols = cpre ++ rest →
    last (layer j cpre) = Some x →
    (length (layer j cpre) ≤ fuel)%nat →
    ∃ y ny a, walk_left fuel (mem s) (Some x) = Ok (Some y)
      ∧ mem s !! y = Some ny ∧ top ny = Some a
      ∧ last (layer (S j) cpre) = Some a.
Proof.
  intros HR Hj cpre. induction cpre as [|d cpre IH] using rev_ind;
    intros rest fuel x Hcols Hlast Hfuel; [done|].
  rewrite layer_app, layer_one in Hlast, Hfuel.
  rewrite layer_app, layer_one. rewrite <-app_assoc in Hcols. simpl in Hcols.
  destruct (caddrs d !! j) as [z|] eqn:Hdj; last first.
  { rewrite app_nil_r in Hlast, Hfuel.
    rewrite lookup_ge_None_2, app_nil_r; [by eapply IH|].
    apply lookup_ge_None in Hdj. lia. }
  rewrite last_snoc in Hlast. injection Hlast as ->.
  rewrite length_app in Hfuel. simpl in Hfuel.
  destruct fuel as [|fuel]; [lia|].
  assert (d ∈ cols) as Hd.
  { rewrite Hcols. apply elem_of_app. right. by left. }
  destruct (Rep_column _ _ _ _ _ HR Hd Hdj) as (nx & Hnx & _ & Htop & _).
  pose proof (rep_horiz _ _ HR j) as Hch.
  rewrite Hcols, layer_app, layer_cons, layer_one, Hdj in Hch. simpl in Hch.
  apply chain_mid in Hch as (nx' & Hnx' & Hprev & _).
  assert (nx' = nx) as -> by congruence. rewrite or_last_None in Hprev.
  simpl. rewrite (deref_Some _ _ _ Hnx). simpl. rewrite Hprev, Htop.
  destruct (caddrs d !! S j) as [a'|] eqn:Hdj'.
  { exists x, nx, a'. rewrite last_snoc.
    split_and!; [by destruct (last (layer j cpre))|done|congruence|done]. }
  destruct (last (layer j cpre)) as [x'|] eqn:Hl; last first.
  { apply last_None in Hl. destruct cpre as [|c0 cpre].
    - simpl in Hcols. rewrite Hcols in HR.
      destruct (Rep_head_level _ _ _ (S j) HR Hj) as [? E]. congruence.
    - rewrite Hcols in HR. simpl in HR.
      destruct (Rep_head_level _ _ _ j HR) as [? E]; [lia|].
      rewrite layer_cons, layer_one, E in Hl. done. }
  rewrite app_nil_r. eapply IH; [done|done|lia].
Qed.

(** ** What an insertion keeps *)

(** The keys, values and flags of the nodes of [h] are those of [h']. *)
Definition same_data (h h' : heap) : Prop :=
  ∀ x n, h !! x = Some n →
    ∃ n', h' !! x = Some n' ∧ key n' = key n ∧ value n' = value n
      ∧ n_inf n' = n_inf n ∧ p_inf n' = p_inf n.

Lemma same_data_refl h : same_data h h.
Proof. intros x n Hx. eauto 10. Qed.

Lemma same_data_trans h1 h2 h3 :
  same_data h1 h2 → same_data h2 h3 → same_data h1 h3.
Proof.
  intros H12 H23 x n Hx.
  destruct (H12 x n Hx) as (n2 & Hx2 & ? & ? & ? & ?).
  destruct (H23 x n2 Hx2) as (n3 & Hx3 & ? & ? & ? & ?).
  exists n3. split_and!; congruence.
Qed.

(** A column after the insertion of [k]: sentinels and the column of [k]
    may have grown upwards, the columns of the other keys are as before. *)
Definition col_grow (k : Key) (c c' : column) : Prop :=
  ckind c' = ckind c
  ∧ caddrs c `prefix_of` caddrs c'
  ∧ (∀ k', ckind c = Real k' → k' ≠ k → caddrs c' = caddrs c).

Lemma col_grow_refl k c : col_grow k c c.
Proof. by split_and!. Qed.

Lemma col_grow_trans k c1 c2 c3 :
  col_grow k c1 c2 → col_grow k c2 c3 → col_grow k c1 c3.
Proof.
  intros (K12 & P12 & E12) (K23 & P23 & E23). split_and!.
  - congruence.
  - by etrans.
  - intros k' Hk' Hne. rewrite (E23 k'), (E12 k'); congruence.
Qed.

Lemma cols_grow_refl k (cols : list column) : Forall2 (col_grow k) cols cols.
Proof. apply Forall_Forall2_diag, Forall_forall. intros. apply col_grow_refl. Qed.

Lemma cols_grow_trans k (l1 l2 l3 : list column) :
  Forall2 (col_grow k) l1 l2 → Forall2 (col_grow k) l2 l3 →
  Forall2 (col_grow k) l1 l3.
Proof.
  intros H12. revert l3. induction H12 as [|c1 c2 l1 l2 Hc _ IH]; intros l3 H23.
  - by inversion H23.
  - inversion H23 as [|? c3 ? l3' Hc' H23']; subst.
    constructor; [by eapply col_grow_trans|by apply IH].
Qed.

Lemma cols_grow_keys k (l1 l2 : list column) :
  Forall2 (col_grow k) l1 l2 → ckind <$> l2 = ckind <$> l1.
Proof.
  induction 1 as [|c1 c2 l1 l2 (Hk & _) _ IH]; [done|].
  rewrite !fmap_cons. congruence.
Qed.

(** ** The writes that link a node *)

Lemma splice_base_ops (h : heap) a b k v na nb :
  h !! a = Some na → next na = Some b → h !! b = Some nb → a ≠ b →
  ∃ h', link_after (h ++ [node_kv k v]) (Some a) (Some (length h)) = Ok h'
    ∧ spliced h h' a b k v None.
Proof.
  intros Ha Hnx Hb Hab.
  pose proof (lookup_lt_Some _ _ _ Ha). pose proof (lookup_lt_Some _ _ _ Hb).
  destruct (link_after_spec (h ++ [node_kv k v]) a b (length h) na nb (node_kv k v))
    as (h' & Hl & Hlen & Hfr & Ha' & Hb' & Hc'); try done; try lia.
  { by apply lookup_new_old. }
  { by apply lookup_new_old. }
  { apply lookup_new_fresh. }
  exists h'. split; [done|]. split; try done.
  - rewrite Hlen, length_app. simpl. lia.
  - intros x n Hx ???. pose proof (lookup_lt_Some _ _ _ Hx).
    rewrite Hfr by lia. by apply lookup_new_old.
  - eauto.
  - eauto.
Qed.

Lemma splice_top_ops (h : heap) a b t k v na nb nt :
  h !! a = Some na → next na = Some b → h !! b = Some nb → h !! t = Some nt →
  a ≠ b → t ≠ a → t ≠ b →
  ∃ h1 h2 h3,
    link_after (h ++ [node_kv k v]) (Some a) (Some (length h)) = Ok h1
    ∧ store h1 (Some (length h)) (set_bottom (Some t)) = Ok h2
    ∧ store h2 (Some t) (set_top (Some (length h))) = Ok h3
    ∧ spliced h h3 a b k v (Some t).
Proof.
  intros Ha Hnx Hb Ht Hab Hta Htb.
  pose proof (lookup_lt_Some _ _ _ Ha). pose proof (lookup_lt_Some _ _ _ Hb).
  pose proof (lookup_lt_Some _ _ _ Ht).
  destruct (link_after_spec (h ++ [node_kv k v]) a b (length h) na nb (node_kv k v))
    as (h' & Hl & Hlen & Hfr & Ha' & Hb' & Hc'); try done; try lia.
  { by apply lookup_new_old. }
  { by apply lookup_new_old. }
  { apply lookup_new_fresh. }
  assert (h' !! t = Some nt) as Ht'.
  { rewrite Hfr by lia. by apply lookup_new_old. }
  rewrite length_app in Hlen. simpl in Hlen.
  eexists h', _, _. split; [done|].
  rewrite (store_Some _ _ _ _ Hc'). split; [done|].
  unfold store at 1. rewrite list_lookup_insert_ne, Ht' by lia.
  split; [done|]. split; try done.
  - rewrite !length_insert. lia.
  - intros x n Hx ?? Hxt. pose proof (lookup_lt_Some _ _ _ Hx).
    rewrite !list_lookup_insert_ne by (try lia; congruence).
    rewrite Hfr by lia. by apply lookup_new_old.
  - exists na. split_and!; [done|done|].
    by rewrite !list_lookup_insert_ne by lia.
  - exists nb. split_and!; [done|].
    by rewrite !list_lookup_insert_ne by lia.
  - rewrite list_lookup_insert_ne, list_lookup_insert_eq by lia. done.
  - intros t' [= <-]. split_and!; [done|done|].
    exists nt. split; [done|]. by rewrite list_lookup_insert_eq by (rewrite length_insert; lia).
Qed.

(** The columns around the column of a key. *)
Lemma Rep_split_real s cols cpre c cpost k :
  Rep s cols → cols = cpre ++ c :: cpost → ckind c = Real k →
  ∃ hs m1 m2 ts,
    cpre = Col NegInf hs :: m1 ∧ cpost = m2 ++ [Col PosInf ts]
    ∧ length hs = N.to_nat (num_layers s)
    ∧ length ts = N.to_nat (num_layers s)
    ∧ head s = last hs ∧ tail s = last ts.
Proof.
  intros HR Hcols Hc.
  destruct (Rep_shape _ _ HR) as (hs & mid & ts & Heq & Hhs & Hts & Hhd & Htl & _).
  rewrite Hcols in Heq. destruct cpre as [|c0 m1].
  { injection Heq as -> _. done. }
  injection Heq as -> Heq.
  destruct cpost as [|cl m2 _] using rev_ind.
  { apply app_inj_tail in Heq as [_ ->]. done. }
  rewrite app_comm_cons, app_assoc in Heq. apply app_inj_tail in Heq as [_ ->].
  exists hs, m1, m2, ts. by split_and!.
Qed.

Lemma add_layer_spec s cols cpre as_ cpost k :
  Rep s cols → cols = cpre ++ Col (Real k) as_ :: cpost →
  ∃ s1 cpre1 cpost1,
    add_layer s = Ok s1
    ∧ Rep s1 (cpre1 ++ Col (Real k) as_ :: cpost1)
    ∧ num_layers s1 = num_layers s + 1 ∧ num_keys s1 = num_keys s
    ∧ same_data (mem s) (mem s1)
    ∧ Forall2 (col_grow k) cpre cpre1 ∧ Forall2 (col_grow k) cpost cpost1
    ∧ (∀ j, (j < N.to_nat (num_layers s))%nat → layer j cpre1 = layer j cpre).
Proof.
  intros HR Hcols. pose proof (rep_layers _ _ HR) as HL.
  destruct (Rep_split_real _ _ _ _ _ k HR Hcols)
    as (hs & m1 & m2 & ts & -> & -> & Hhs & Hts & Hhead & Htail); [done|].
  destruct (last hs) as [hd|] eqn:Hhd; last first.
  { apply last_None in Hhd. subst hs. simpl in Hhs. lia. }
  destruct (last ts) as [tl|] eqn:Htl; last first.
  { apply last_None in Htl. subst ts. simpl in Hts. lia. }
  assert (Col NegInf hs ∈ cols) as Hin1 by (rewrite Hcols; by left).
  assert (Col PosInf ts ∈ cols) as Hin2.
  { rewrite Hcols. right. apply elem_of_app. right. right.
    apply elem_of_app. right. by left. }
  pose proof Hhd as Hhd'. pose proof Htl as Htl'.
  rewrite last_lookup in Hhd', Htl'.
  destruct (Rep_tagged _ _ _ _ _ HR Hin1 Hhd') as (nh & Hnh & _).
  destruct (Rep_tagged _ _ _ _ _ HR Hin2 Htl') as (nt & Hnt & _).
  assert (hd ≠ tl) as Hne.
  { intros ->.
    by destruct (addr_unique cols _ _ _ _ tl (rep_nodup _ _ HR) Hin1 Hin2 Hhd' Htl'). }
  destruct (add_layer_ops s hd tl nh nt) as (h' & Hadd & Hgr); try done.
  assert (cols = Col NegInf hs :: (m1 ++ Col (Real k) as_ :: m2) ++ [Col PosInf ts])
    as Hcols2.
  { by rewrite Hcols, <-app_assoc. }
  rewrite Hcols2 in HR.
  pose proof (add_layer_Rep _ _ _ _ _ _ _ HR Hhd Htl Hgr) as HR'.
  eexists _, (Col NegInf (hs ++ [length (mem s)]) :: m1),
    (m2 ++ [Col PosInf (ts ++ [S (length (mem s))])]).
  split; [done|]. split_and!; try done.
  - by rewrite <-app_assoc in HR'.
  - intros x n Hx. exact (grown_data _ _ _ _ Hgr x n Hx).
  - constructor; [|apply cols_grow_refl]. split_and!; [done| |done].
    by apply prefix_app_r.
  - apply Forall2_app; [apply cols_grow_refl|].
    constructor; [|constructor]. split_and!; [done| |done].
    by apply prefix_app_r.
  - intros j Hj. rewrite (layer_cons _ _ m1), (layer_cons _ (Col NegInf hs)).
    rewrite !layer_one. simpl. by rewrite lookup_app_l by lia.
Qed.

(** ** One promotion *)

Lemma keys_of_cons c (l : list column) :
  keys_of (c :: l) =
    match ckind c with Real k => k :: keys_of l | _ => keys_of l end.
Proof. unfold keys_of, real_key. simpl. by destruct (ckind c). Qed.

Lemma keys_of_kinds (l1 l2 : list column) :
  ckind <$> l1 = ckind <$> l2 → keys_of l1 = keys_of l2.
Proof.
  revert l2. induction l1 as [|c1 l1 IH]; intros [|c2 l2]; try done.
  rewrite !fmap_cons. intros [= Hk Hl].
  by rewrite !keys_of_cons, Hk, (IH l2).
Qed.

Lemma layer_length_le s cols cpre rest j :
  Rep s cols → cols = cpre ++ rest →
  (length (layer j cpre) ≤ length (mem s))%nat.
Proof.
  intros HR Hcols. pose proof (Rep_row _ _ j HR) as Hrow.
  apply row_length in Hrow. rewrite Hcols, cells_app, length_app in Hrow.
  unfold layer. rewrite length_fmap. lia.
Qed.

Lemma promote_link s cols cpre as_ cpost k v t x :
  Rep s cols →
  cols = cpre ++ Col (Real k) as_ :: cpost →
  last as_ = Some t →
  last (layer (length as_ - 1) cpre) = Some x →
  (length as_ + 1 < N.to_nat (num_layers s))%nat →
  ∃ y ny a h1 h2 h3,
    walk_left (length (mem s)) (mem s) (Some x) = Ok (Some y)
    ∧ mem s !! y = Some ny ∧ top ny = Some a
    ∧ link_after (mem s ++ [node_kv k v]) (Some a) (Some (length (mem s))) = Ok h1
    ∧ store h1 (Some (length (mem s))) (set_bottom (Some t)) = Ok h2
    ∧ store h2 (Some t) (set_top (Some (length (mem s)))) = Ok h3
    ∧ Rep (with_mem s h3)
        (cpre ++ Col (Real k) (as_ ++ [length (mem s)]) :: cpost)
    ∧ last (layer (length as_) cpre) = Some a
    ∧ same_data (mem s) h3.
Proof.
  intros HR Hcols Ht Hx Hlen.
  assert (1 ≤ length as_)%nat as Hpos.
  { destruct as_; [done|simpl; lia]. }
  set (i := length as_) in *.
  assert (Col (Real k) as_ ∈ cols) as Hin.
  { rewrite Hcols. apply elem_of_app. right. by left. }
  destruct (walk_left_spec s cols (i - 1) HR ltac:(lia) cpre _ (length (mem s)) x
    Hcols Hx) as (y & ny & a & Hwalk & Hny & Htop & Ha).
  { by eapply layer_length_le. }
  replace (S (i - 1)) with i in Ha by lia.
  destruct (Rep_split_real _ _ _ _ _ k HR Hcols)
    as (hs & m1 & m2 & ts & Hpre & Hpost & Hhs & Hts & _); [done|].
  destruct (lookup_lt_is_Some_2 ts i) as [tb Htb]; [lia|].
  assert (∃ b l2, layer i cpost = b :: l2) as (b & l2 & Hl2).
  { rewrite Hpost, layer_app, layer_one. simpl. rewrite Htb.
    destruct (layer i m2); simpl; eauto. }
  pose proof Ha as Hl1. apply last_Some in Hl1 as [l1 Hl1].
  pose proof (rep_horiz _ _ HR i) as Hch.
  rewrite Hcols, layer_app, layer_cons, layer_one in Hch. simpl in Hch.
  rewrite (lookup_ge_None_2 as_ i) in Hch by (unfold i; lia). simpl in Hch.
  assert (layer i cols = l1 ++ a :: b :: l2) as Hli.
  { rewrite Hcols, layer_app, layer_cons, layer_one. simpl.
    rewrite (lookup_ge_None_2 as_ i) by (unfold i; lia). simpl.
    by rewrite Hl1, Hl2, <-app_assoc. }
  rewrite Hl1, Hl2, <-app_assoc in Hch. simpl in Hch.
  destruct (chain_mid _ _ _ _ _ _ _ Hch) as (na & Hna & _ & Hnext).
  rewrite (cons_middle a), app_assoc in Hch.
  destruct (chain_mid _ _ _ _ _ _ _ Hch) as (nb & Hnb & _).
  pose proof (layer_NoDup i _ (rep_nodup _ _ HR)) as Hnd. rewrite Hli in Hnd.
  assert (a ≠ b) as Hab.
  { apply NoDup_app in Hnd as (_ & _ & Hnd).
    apply NoDup_cons in Hnd as [Hnd _]. intros ->. apply Hnd. by left. }
  pose proof Ht as Ht'. rewrite last_lookup in Ht'.
  destruct (Rep_tagged _ _ _ _ _ HR Hin Ht') as (nt & Hnt & _).
  assert (∀ z, z ∈ layer i cols → t ≠ z) as Htz.
  { intros z (col & Hcol & Hz)%elem_of_layer_inv ->.
    destruct (addr_unique cols _ _ _ _ z (rep_nodup _ _ HR) Hin Hcol Ht' Hz)
      as [_ E]. simpl in E. unfold i in E. lia. }
  destruct (splice_top_ops (mem s) a b t k v na nb nt)
    as (h1 & h2 & h3 & Hlink & Hst1 & Hst2 & Hsp); try done.
  { apply Htz. rewrite Hli. apply elem_of_app. right. by left. }
  { apply Htz. rewrite Hli. apply elem_of_app. right. right. by left. }
  exists y, ny, a, h1, h2, h3. split_and!; try done.
  - assert (∀ j, layer j [Col (Real k) as_] =
              match as_ !! j with Some x => [x] | None => [] end) as P1.
    { intros j. apply layer_one. }
    assert (all_addrs [Col (Real k) as_] = as_) as P2.
    { unfold all_addrs. simpl. by rewrite app_nil_r. }
    pose proof (rep_tagged _ _ HR) as P3. rewrite Forall_forall in P3.
    specialize (P3 _ Hin). simpl in P3.
    pose proof (rep_vert _ _ HR) as P4. rewrite Forall_forall in P4.
    specialize (P4 _ Hin). simpl in P4.
    assert (hd_error (layer i cpost) = Some b) as P5 by (by rewrite Hl2).
    assert (StronglySorted kind_lt
      (ckind <$> cpre ++ Col (Real k) (as_ ++ [length (mem s)]) :: cpost)) as P6.
    { pose proof (rep_sorted _ _ HR) as Hs. rewrite Hcols in Hs.
      by rewrite fmap_app, fmap_cons in *. }
    assert (num_keys s = N.of_nat (length (keys_of
      (cpre ++ Col (Real k) (as_ ++ [length (mem s)]) :: cpost)))) as P7.
    { rewrite (rep_count _ _ HR), Hcols. f_equal. f_equal.
      apply keys_of_kinds. by rewrite !fmap_app, !fmap_cons. }
    rewrite <-Ht in Hsp.
    exact (splice_Rep s cols cpre [Col (Real k) as_] cpost as_ k v a b h3
             (num_keys s) HR Hcols P1 P2 P3 P4 Hlen Ha P5 Hsp P6 P7).
  - intros z n Hz. exact (spliced_data _ _ _ _ _ _ _ Hsp z n Hz).
Qed.

(** ** The promotion loop *)

(** The number of promotions [insert] performs for [k]: the value of
    [height] when [flipCoin(k, height) && height + 1 < max_flips] first
    fails. *)
Fixpoint count_flips (fuel : nat) (k : Key) (max_flips height : N) : N :=
  match fuel with
  | O => height
  | S fuel =>
    if flipCoin k height && (height + 1 <? max_flips)
    then count_flips fuel k max_flips (height + 1)
    else height
  end.

Lemma count_flips_ge fuel k max_flips height :
  height ≤ count_flips fuel k max_flips height.
Proof.
  revert height. induction fuel as [|fuel IH]; intros height; simpl; [lia|].
  destruct (flipCoin k height && (height + 1 <? max_flips)); [|lia].
  specialize (IH (height + 1)). lia.
Qed.

Lemma count_flips_lt fuel k max_flips height :
  count_flips fuel k max_flips height = height
  ∨ count_flips fuel k max_flips height < max_flips.
Proof.
  revert height. induction fuel as [|fuel IH]; intros height; simpl; [by left|].
  destruct (flipCoin k height && (height + 1 <? max_flips)) eqn:E; [|by left].
  apply andb_true_iff in E as [_ E%N.ltb_lt]. right.
  destruct (IH (height + 1)) as [->|?]; lia.
Qed.

Lemma promote_spec k v max_flips fuel :
  ∀ s cols cpre as_ cpost height x t,
  Rep s cols →
  cols = cpre ++ Col (Real k) as_ :: cpost →
  length as_ = S (N.to_nat height) →
  last as_ = Some t →
  last (layer (N.to_nat height) cpre) = Some x →
  (1 ≤ fuel)%nat → (N.to_nat max_flips ≤ fuel + N.to_nat height)%nat →
  ∃ s' cols' as',
    promote fuel s k v max_flips height (Some x) (Some t)
      = Ok (s', count_flips fuel k max_flips height)
    ∧ Rep s' cols'
    ∧ Forall2 (col_grow k) cols cols'
    ∧ Col (Real k) as' ∈ cols'
    ∧ length as' = S (N.to_nat (count_flips fuel k max_flips height))
    ∧ num_layers s' =
        N.max (num_layers s) (count_flips fuel k max_flips height + 2)
    ∧ num_keys s' = num_keys s
    ∧ same_data (mem s) (mem s').
Proof.
  induction fuel as [|fuel IH];
    intros s cols cpre as_ cpost height x t HR Hcols Hlen Ht Hx Hf1 Hf2; [lia|].
  assert (Col (Real k) as_ ∈ cols) as Hin.
  { rewrite Hcols. apply elem_of_app. right. by left. }
  assert (N.to_nat height + 2 ≤ N.to_nat (num_layers s))%nat as Hroom.
  { pose proof (rep_heights _ _ HR) as Hh. rewrite Forall_forall in Hh.
    specialize (Hh _ Hin). unfold height_ok in Hh. simpl in Hh. lia. }
  simpl. destruct (flipCoin k height && (height + 1 <? max_flips)) eqn:Hguard.
  2:{ exists s, cols, as_. split_and!; try done.
      - apply cols_grow_refl.
      - lia.
      - apply same_data_refl. }
  apply andb_true_iff in Hguard as [_ Hlt%N.ltb_lt].
  assert (∃ s1 cpre1 cpost1,
    (if num_layers s <=? height + 1 + 1 then add_layer s else Ok s) = Ok s1
    ∧ Rep s1 (cpre1 ++ Col (Real k) as_ :: cpost1)
    ∧ num_layers s1 = N.max (num_layers s) (height + 3)
    ∧ num_keys s1 = num_keys s
    ∧ same_data (mem s) (mem s1)
    ∧ Forall2 (col_grow k) cols (cpre1 ++ Col (Real k) as_ :: cpost1)
    ∧ layer (N.to_nat height) cpre1 = layer (N.to_nat height) cpre)
    as (s1 & cpre1 & cpost1 & Hs1 & HR1 & HL1 & HK1 & HD1 & HG1 & Hlay1).
  { destruct (num_layers s <=? height + 1 + 1) eqn:Hle.
    - apply N.leb_le in Hle.
      destruct (add_layer_spec s cols cpre as_ cpost k HR Hcols)
        as (s1 & cpre1 & cpost1 & Hadd & HR1 & HL1 & HK1 & HD1 & Hg1 & Hg2 & Hlay).
      exists s1, cpre1, cpost1. split_and!; try done.
      + lia.
      + rewrite Hcols. apply Forall2_app; [done|].
        constructor; [apply col_grow_refl|done].
      + apply Hlay. lia.
    - apply N.leb_gt in Hle. exists s, cpre, cpost. rewrite <-Hcols.
      split_and!; try done.
      + lia.
      + apply same_data_refl.
      + apply cols_grow_refl. }
  rewrite <-Hlay1 in Hx.
  destruct (promote_link s1 _ cpre1 as_ cpost1 k v t x HR1 eq_refl Ht)
    as (y & ny & a & h1 & h2 & h3 & Hwalk & Hny & Htop & Hlink & Hst1 & Hst2
        & HR2 & Ha & HD2).
  { by rewrite Hlen, Nat.sub_1_r. }
  { lia. }
  rewrite Hs1. cbn [bind]. rewrite Hwalk. cbn [bind].
  rewrite (deref_Some _ _ _ Hny). cbn [bind]. unfold new.
  rewrite Htop, Hlink. cbn [bind]. rewrite Hst1. cbn [bind].
  rewrite Hst2. cbn [bind].
  destruct (IH (with_mem s1 h3) _ cpre1 (as_ ++ [length (mem s1)]) cpost1
              (height + 1) a (length (mem s1)) HR2 eq_refl)
    as (s' & cols' & as' & Hp & HR' & HG' & Hin' & Hlen' & HL' & HK' & HD').
  { rewrite length_app. simpl. lia. }
  { by rewrite last_snoc. }
  { by replace (N.to_nat (height + 1)) with (length as_) by lia. }
  { lia. }
  { lia. }
  exists s', cols', as'. split_and!; try done.
  - eapply cols_grow_trans; [done|]. eapply cols_grow_trans; [|done].
    apply Forall2_app; [apply cols_grow_refl|].
    constructor; [|apply cols_grow_refl].
    split_and!; [done|by apply prefix_app_r|].
    simpl. by intros k' [= ->] ?.
  - rewrite HL'. simpl. rewrite HL1.
    pose proof (count_flips_ge fuel k max_flips (height + 1)). lia.
  - rewrite HK'. done.
  - eapply same_data_trans; [done|]. eapply same_data_trans; [|done]. done.
Qed.

(** ** The new column *)

Lemma sorted_insert (l1 l2 : list kind) ca cb x :
  StronglySorted kind_lt (l1 ++ ca :: cb :: l2) →
  kind_lt ca x → kind_lt x cb →
  StronglySorted kind_lt (l1 ++ ca :: x :: cb :: l2).
Proof.
  intros Hs Hax Hxb.
  apply StronglySorted_app in Hs as (H12 & H1 & H2).
  apply StronglySorted_cons in H2 as [Ha H2].
  pose proof H2 as H2'. apply StronglySorted_cons in H2' as [Hb _].
  apply StronglySorted_app. split_and!; [|done|].
  - intros y z Hy [->|[->|Hz]%elem_of_cons]%elem_of_cons.
    + apply H12; [done|by left].
    + etrans; [|done]. apply H12; [done|by left].
    + apply H12; [done|by right].
  - apply StronglySorted_cons. split.
    + apply Forall_cons. split; [done|]. done.
    + apply StronglySorted_cons. split; [|done].
      apply Forall_cons. split; [done|].
      eapply Forall_impl; [done|]. simpl. intros y Hy. by etrans.
Qed.

Lemma absent_bounds (ca cb : kind) k :
  kind_le_key ca k = true → ca ≠ Real k → kind_le_key cb k = false →
  cb ≠ NegInf →
  kind_lt ca (Real k) ∧ kind_lt (Real k) cb.
Proof.
  intros Hle Hne Hgt Hcb. split.
  - destruct ca as [|k'|]; simpl in *; [done| |done].
    destruct (key_ge k' k) eqn:E; [|done].
    destruct Hne. f_equal. by apply key_ge_antisym.
  - destruct cb as [|k'|]; simpl in *; done.
Qed.

Lemma insert_base s cols cpre ca cb cpost a b k v :
  Rep s cols → cols = cpre ++ ca :: cb :: cpost →
  base ca = Some a → base cb = Some b →
  kind_lt (ckind ca) (Real k) → kind_lt (Real k) (ckind cb) →
  ∃ h', link_after (mem s ++ [node_kv k v]) (Some a) (Some (length (mem s)))
          = Ok h'
    ∧ Rep (mkSkipList (num_layers s) (num_keys s + 1) (head s) (tail s) h')
        ((cpre ++ [ca]) ++ Col (Real k) [length (mem s)] :: cb :: cpost)
    ∧ same_data (mem s) h'
    ∧ ∃ n, h' !! length (mem s) = Some n ∧ value n = v.
Proof.
  intros HR Hcols Ha Hb Hlo Hhi. pose proof (rep_layers _ _ HR) as HL.
  destruct (Rep_base _ _ _ _ _ HR Hcols) as (a' & na & Ha' & Hna & _ & Hnext & _).
  assert (a' = a) as -> by congruence. simpl in Hnext. rewrite Hb in Hnext.
  pose proof Hcols as Hcols'. rewrite (cons_middle ca), app_assoc in Hcols'.
  destruct (Rep_base _ _ _ _ _ HR Hcols') as (b' & nb & Hb' & Hnb & _).
  assert (b' = b) as -> by congruence.
  assert (a ≠ b) as Hab.
  { intros ->. unfold base in *.
    destruct (addr_unique cols ca cb 0 0 b (rep_nodup _ _ HR)) as [E _]; try done.
    - rewrite Hcols. apply elem_of_app. right. by left.
    - rewrite Hcols. apply elem_of_app. right. right. by left.
    - pose proof (Rep_lt _ _ _ _ _ _ HR Hcols) as Hlt. rewrite E in Hlt.
      by apply kind_lt_irrefl in Hlt. }
  destruct (splice_base_ops (mem s) a b k v na nb) as (h' & Hlink & Hsp); try done.
  exists h'. split; [done|]. split_and!.
  - assert (cols = (cpre ++ [ca]) ++ [] ++ cb :: cpost) as P0.
    { by rewrite <-app_assoc. }
    assert (∀ j, layer j (@nil column) =
              match (@nil addr) !! j with Some x => [x] | None => [] end) as P1.
    { done. }
    assert (length (@nil addr) + 1 < N.to_nat (num_layers s))%nat as P2.
    { simpl. lia. }
    assert (last (layer (length (@nil addr)) (cpre ++ [ca])) = Some a) as P3.
    { rewrite layer_app, layer_one. unfold base in Ha. simpl. rewrite Ha.
      by rewrite last_snoc. }
    assert (hd_error (layer (length (@nil addr)) (cb :: cpost)) = Some b) as P4.
    { rewrite layer_cons, layer_one. unfold base in Hb. simpl. by rewrite Hb. }
    assert (StronglySorted kind_lt (ckind <$>
      (cpre ++ [ca]) ++ Col (Real k) ([] ++ [length (mem s)]) :: cb :: cpost))
      as P5.
    { pose proof (rep_sorted _ _ HR) as Hs. rewrite Hcols in Hs.
      rewrite fmap_app, !fmap_cons in *. rewrite fmap_app, <-app_assoc. simpl.
      by apply sorted_insert. }
    assert (num_keys s + 1 = N.of_nat (length (keys_of
      ((cpre ++ [ca]) ++ Col (Real k) ([] ++ [length (mem s)]) :: cb :: cpost))))
      as P6.
    { rewrite (rep_count _ _ HR), Hcols. rewrite <-app_assoc. simpl.
      rewrite !keys_of_app, !length_app, !keys_of_cons. simpl.
      destruct (ckind ca), (ckind cb); simpl; lia. }
    exact (splice_Rep s cols (cpre ++ [ca]) [] (cb :: cpost) [] k v a b h'
             (num_keys s + 1) HR P0 P1 eq_refl (Forall_nil_2 _) I P2 P3 P4
             Hsp P5 P6).
  - intros z n Hz. exact (spliced_data _ _ _ _ _ _ _ Hsp z n Hz).
  - eexists. split; [apply (sp_c _ _ _ _ _ _ _ Hsp)|done].
Qed.

(** ** insert *)

(** The number of promotions of [k] when it becomes the [num_keys]-th key. *)
Definition flips_of (k : Key) (num_keys : N) : N :=
  count_flips (N.to_nat (max_flips_of num_keys)) k (max_flips_of num_keys) 0.

Lemma max_flips_of_ge n : 12 ≤ max_flips_of n.
Proof.
  unfold max_flips_of. destruct (n <=? 16) eqn:E; [lia|].
  apply N.leb_gt in E.
  assert (N.log2_up 17 ≤ N.log2_up n) by (apply N.log2_up_le_mono; lia).
  change (N.log2_up 17) with 5 in *. lia.
Qed.

Lemma flips_of_lt k n : flips_of k n < max_flips_of n.
Proof.
  unfold flips_of. pose proof (max_flips_of_ge n).
  destruct (count_flips_lt (N.to_nat (max_flips_of n)) k (max_flips_of n) 0)
    as [->|?]; lia.
Qed.

Lemma insert_present s cols k v :
  Rep s cols → k ∈ keys_of cols → insert_flips s k v = Ok (false, s, 0).
Proof.
  intros HR Hk.
  destruct (locate_present s cols k HR Hk)
    as (cpre & ca & a & cb & b & cpost & n & _ & _ & _ & _ & Hloc & Hn & Ht & _).
  unfold insert_flips. rewrite Hloc. cbn [bind].
  rewrite (deref_Some _ _ _ Hn). cbn [bind].
  destruct Ht as (-> & _ & ->). by rewrite key_eq_refl.
Qed.

Lemma insert_absent s cols k v :
  Rep s cols → k ∉ keys_of cols →
  ∃ s' cols' cpre cpost as',
    insert_flips s k v = Ok (true, s', flips_of k (num_keys s + 1))
    ∧ Rep s' cols'
    ∧ cols = cpre ++ cpost
    ∧ Forall2 (col_grow k)
        (cpre ++ Col (Real k) [length (mem s)] :: cpost) cols'
    ∧ Col (Real k) as' ∈ cols'
    ∧ length as' = S (N.to_nat (flips_of k (num_keys s + 1)))
    ∧ num_layers s' = N.max (num_layers s) (flips_of k (num_keys s + 1) + 2)
    ∧ num_keys s' = num_keys s + 1
    ∧ same_data (mem s) (mem s')
    ∧ (∃ n, mem s' !! length (mem s) = Some n ∧ value n = v).
Proof.
  intros HR Hk.
  destruct (locate_absent s cols k HR Hk)
    as (cpre & ca & a & cb & b & cpost & n & Hcols & Ha & Hb & Hloc & Hle & Hgt
        & Hn & Ht & Hm).
  assert (ckind ca ≠ Real k) as Hne.
  { intros E. apply Hk, elem_of_keys_of. exists ca. split; [|done].
    rewrite Hcols. apply elem_of_app. right. by left. }
  destruct (absent_bounds (ckind ca) (ckind cb) k) as [Hlo Hhi]; try done.
  { pose proof (Rep_lt _ _ _ _ _ _ HR Hcols) as Hlt. intros E. rewrite E in Hlt.
    by destruct (ckind ca). }
  destruct (insert_base s cols cpre ca cb cpost a b k v)
    as (h' & Hlink & HR1 & HD1 & nv & Hnv & Hv); try done.
  pose proof (max_flips_of_ge (num_keys s + 1)) as Hmax.
  assert (last (layer (N.to_nat 0) (cpre ++ [ca])) = Some a) as Hx.
  { change (N.to_nat 0) with 0%nat.
    rewrite layer_app, layer_one. unfold base in Ha. rewrite Ha.
    by rewrite last_snoc. }
  destruct (promote_spec k v (max_flips_of (num_keys s + 1))
              (N.to_nat (max_flips_of (num_keys s + 1))) _ _ (cpre ++ [ca])
              [length (mem s)] (cb :: cpost) 0 a (length (mem s)) HR1 eq_refl
              eq_refl eq_refl Hx ltac:(lia) ltac:(lia))
    as (s' & cols' & as' & Hp & HR' & HG & Hin & Hlen & HL & HK & HD).
  exists s', cols', (cpre ++ [ca]), (cb :: cpost), as'.
  split_and!; try done.
  - unfold insert_flips. rewrite Hloc. cbn [bind].
    rewrite (deref_Some _ _ _ Hn). cbn [bind].
    replace (negb (n_inf n) && key_eq (key n) k) with false; last first.
    { unfold key_ne in Hm. destruct (n_inf n), (key_eq (key n) k); done. }
    unfold new. rewrite Hlink. cbn [bind]. simpl num_keys.
    unfold flips_of. by rewrite Hp.
  - by rewrite <-app_assoc.
  - eapply same_data_trans; [done|]. done.
  - destruct (HD _ _ Hnv) as (n' & Hn' & _ & Hv' & _). simpl in Hn'.
    exists n'. split; [done|congruence].
Qed.

(** ** The constructor *)

Lemma ctor_Rep :
  ∃ s0, SkipList_ctor = Ok s0
    ∧ Rep s0 [Col NegInf [2; 0]%nat; Col PosInf [3; 1]%nat]
    ∧ num_keys s0 = 0 ∧ num_layers s0 = 2.
Proof.
  eexists. split; [reflexivity|]. split_and!; [|done|done].
  split; simpl.
  - lia.
  - eexists. split; done.
  - eexists. split; done.
  - repeat constructor.
  - done.
  - repeat constructor.
  - unfold all_addrs. simpl. apply (bool_decide_unpack _). by vm_compute.
  - repeat constructor; eexists; (split; [reflexivity|done]).
  - repeat constructor; simpl; eexists; (split_and!; [reflexivity|done|done|]);
      eexists; (split_and!; [reflexivity|done|done|done]).
  - intros [|[|i]]; simpl; try done.
    + eexists; (split_and!; [reflexivity|done|done|]);
        eexists; (split_and!; [reflexivity|done|done|done]).
    + eexists; (split_and!; [reflexivity|done|done|]);
        eexists; (split_and!; [reflexivity|done|done|done]).
Qed.

(** ** Writing a value in place *)

#[local] Instance key_eq_dec : EqDecision Key.
Proof.
  intros a b. destruct (key_eq a b) eqn:E.
  - left. by apply key_eq_spec.
  - right. by apply key_eq_false.
Defined.

Lemma Rep_set_value s cols a n w :
  Rep s cols → mem s !! a = Some n →
  Rep (with_mem s (<[a := set_value w n]> (mem s))) cols.
Proof.
  intros HR Ha.
  assert (∀ x m, mem s !! x = Some m →
    ∃ m', <[a := set_value w n]> (mem s) !! x = Some m'
      ∧ key m' = key m ∧ n_inf m' = n_inf m ∧ p_inf m' = p_inf m
      ∧ next m' = next m ∧ previous m' = previous m
      ∧ top m' = top m ∧ bottom m' = bottom m) as Hkept.
  { intros x m Hx. destruct (decide (x = a)) as [->|Hne].
    - assert (m = n) as -> by congruence. exists (set_value w n).
      split; [|done]. apply list_lookup_insert_eq. by eapply lookup_lt_Some.
    - exists m. by rewrite list_lookup_insert_ne. }
  split; simpl; try apply HR.
  - pose proof (rep_tagged _ _ HR) as Ht.
    eapply Forall_impl; [done|]. cbn beta. intros c Hc.
    eapply Forall_impl; [done|]. cbn beta. intros x (m & Hm & Htm).
    destruct (Hkept x m Hm) as (m' & ? & Hk & Hn & Hp & _).
    exists m'. split; [done|]. destruct (ckind c); simpl in *; rewrite Hn, Hp, ?Hk; done.
  - pose proof (rep_vert _ _ HR) as Hv.
    eapply Forall_impl; [done|]. cbn beta. intros c Hc.
    eapply chain_fields; [|done]. intros x m _ Hm.
    destruct (Hkept x m Hm) as (m' & ? & _ & _ & _ & _ & _ & ? & ?). eauto.
  - intros i. eapply chain_fields; [|apply (rep_horiz _ _ HR)]. intros x m _ Hm.
    destruct (Hkept x m Hm) as (m' & ? & _ & _ & _ & ? & ? & _). eauto.
Qed.

Lemma find_ref_inv s cols k r :
  Rep s cols → find_ref s k = Ok r →
  ∃ col a n, r = Some a ∧ col ∈ cols ∧ ckind col = Real k
    ∧ base col = Some a ∧ mem s !! a = Some n.
Proof.
  intros HR Hf. destruct (decide (k ∈ keys_of cols)) as [Hk|Hk]; last first.
  { by rewrite (find_ref_absent s cols k) in Hf. }
  apply elem_of_keys_of in Hk as (col & Hin & Hk).
  pose proof (Rep_height_le _ _ _ HR Hin) as Hh.
  destruct (lookup_lt_is_Some_2 (caddrs col) 0) as [a Ha]; [lia|].
  destruct (Rep_tagged _ _ _ _ _ HR Hin Ha) as (n & Hn & _).
  rewrite (find_ref_present s cols col k a) in Hf by done.
  exists col, a, n. split_and!; try done. congruence.
Qed.

Lemma assign_spec s cols k r w :
  Rep s cols → find_ref s k = Ok r →
  ∃ s', assign s r w = Ok s' ∧ Rep s' cols
    ∧ num_layers s' = num_layers s ∧ num_keys s' = num_keys s
    ∧ find s' k = Ok w
    ∧ (∀ k', k' ≠ k → find s' k' = find s k').
Proof.
  intros HR Hf.
  destruct (find_ref_inv _ _ _ _ HR Hf) as (col & a & n & -> & Hin & Hk & Ha & Hn).
  pose proof (Rep_set_value s cols a n w HR Hn) as HR'.
  exists (with_mem s (<[a := set_value w n]> (mem s))).
  split_and!; try done.
  - unfold assign. by rewrite (store_Some _ _ _ _ Hn).
  - apply (find_present _ cols col k a (set_value w n)); try done.
    simpl. apply list_lookup_insert_eq. by eapply lookup_lt_Some.
  - intros k' Hne. destruct (decide (k' ∈ keys_of cols)) as [Hk'|Hk'].
    + apply elem_of_keys_of in Hk' as (col' & Hin' & Hk').
      pose proof (Rep_height_le _ _ _ HR Hin') as Hh.
      destruct (lookup_lt_is_Some_2 (caddrs col') 0) as [a' Ha']; [lia|].
      destruct (Rep_tagged _ _ _ _ _ HR Hin' Ha') as (n' & Hn' & _).
      rewrite (find_present s cols col' k' a' n') by done.
      apply (find_present _ cols col' k' a' n'); try done.
      simpl. rewrite list_lookup_insert_ne; [done|].
      intros ->. unfold base in Ha.
      destruct (addr_unique cols col col' 0 0 a' (rep_nodup _ _ HR)) as [E _];
        try done. congruence.
    + by rewrite (find_absent s cols k'), (find_absent _ cols k').
Qed.

(** * Reachable lists *)

(** One call that can change the list: [insert], or a write through the
    reference that [find] returned. *)
Inductive step : SkipList → SkipList → Prop :=
| step_insert s k v b s' : insert s k v = Ok (b, s') → step s s'
| step_assign s k r w s' :
    find_ref s k = Ok r → assign s r w = Ok s' → step s s'.

(** The lists a program can build: the constructor, then calls. *)
Inductive reachable : SkipList → Prop :=
| reach_ctor s : SkipList_ctor = Ok s → reachable s
| reach_step s s' : reachable s → step s s' → reachable s'.

(** [k] is one of the keys of the list. *)
Definition present (s : SkipList) (k : Key) : Prop :=
  ∃ ks, allKeysInOrder s = Ok ks ∧ k ∈ ks.

(** The order [<] of keys, from [operator>=]. *)
Definition key_lt (a b : Key) : Prop := key_ge a b = false.

Lemma insert_inv s k v b s' :
  insert s k v = Ok (b, s') → ∃ f, insert_flips s k v = Ok (b, s', f).
Proof.
  unfold insert. destruct (insert_flips s k v) as [[[b0 s0] f]| | |]; simpl;
    [|done..]. intros [= <- <-]. eauto.
Qed.

Lemma insert_flips_insert s k v b s' f :
  insert_flips s k v = Ok (b, s', f) → insert s k v = Ok (b, s').
Proof. unfold insert. by intros ->. Qed.

Lemma grow_keeps k (l l' : list column) col k' :
  Forall2 (col_grow k) l l' → col ∈ l → ckind col = Real k' → k' ≠ k →
  col ∈ l'.
Proof.
  intros HG Hin Hk Hne. apply list_elem_of_lookup_1 in Hin as [i Hi].
  destruct (Forall2_lookup_l _ _ _ _ _ HG Hi) as (col' & Hi' & Hk' & _ & Heq).
  apply list_elem_of_lookup_2 in Hi'. specialize (Heq k' Hk Hne).
  destruct col, col'. simpl in *. by subst.
Qed.

Lemma keys_sorted (cols : list column) :
  StronglySorted kind_lt (ckind <$> cols) → StronglySorted key_lt (keys_of cols).
Proof.
  induction cols as [|c cols IH]; [constructor|].
  rewrite fmap_cons. intros [Hall Hs]%StronglySorted_cons.
  rewrite keys_of_cons. destruct (ckind c) as [|k|] eqn:Hk; try by apply IH.
  apply StronglySorted_cons. split; [|by apply IH].
  apply Forall_forall. intros x (col & Hcol & Hx)%elem_of_keys_of.
  rewrite Forall_forall in Hall.
  assert (kind_lt (Real k) (ckind col)) as Hlt.
  { apply Hall, list_elem_of_fmap. eauto. }
  by rewrite Hx in Hlt.
Qed.

(** What a successful [insert] of a new key does to the columns. *)
Lemma insert_new_Rep s cols k v s' f :
  Rep s cols → insert_flips s k v = Ok (true, s', f) →
  (k ∉ keys_of cols) ∧ f = flips_of k (num_keys s + 1) ∧
  ∃ cols' as' a n,
    Rep s' cols'
    ∧ keys_of cols' ≡ₚ k :: keys_of cols
    ∧ (∀ col k', col ∈ cols → ckind col = Real k' → col ∈ cols')
    ∧ Col (Real k) as' ∈ cols'
    ∧ length as' = S (N.to_nat f)
    ∧ num_layers s' = N.max (num_layers s) (f + 2)
    ∧ num_keys s' = num_keys s + 1
    ∧ same_data (mem s) (mem s')
    ∧ as' !! 0%nat = Some a ∧ mem s' !! a = Some n ∧ value n = v.
Proof.
  intros HR Hins. destruct (decide (k ∈ keys_of cols)) as [Hk|Hk].
  { by rewrite (insert_present s cols k v HR Hk) in Hins. }
  destruct (insert_absent s cols k v HR Hk)
    as (s1 & cols' & cpre & cpost & as' & Hins' & HR' & Hcols & HG & Hin & Hlen
        & HL & HK & HD & n & Hn & Hv).
  rewrite Hins' in Hins. injection Hins as <- <-.
  split; [done|]. split; [done|].
  assert (base (Col (Real k) as') = Some (length (mem s))) as Hbase.
  { assert (Col (Real k) [length (mem s)] ∈
              cpre ++ Col (Real k) [length (mem s)] :: cpost) as Hnew.
    { apply elem_of_app. right. by left. }
    apply list_elem_of_lookup_1 in Hnew as [i Hi].
    destruct (Forall2_lookup_l _ _ _ _ _ HG Hi) as (col' & Hi' & Hk' & Hpre & _).
    apply list_elem_of_lookup_2 in Hi'. simpl in *.
    assert (col' = Col (Real k) as') as ->.
    { by apply (sorted_column_unique cols' _ _ (rep_sorted _ _ HR')). }
    simpl in Hpre. destruct Hpre as [rest ->]. done. }
  exists cols', as', (length (mem s)), n. split_and!; try done.
  - rewrite (keys_of_kinds cols' (cpre ++ Col (Real k) [length (mem s)] :: cpost)).
    + rewrite Hcols, !keys_of_app, keys_of_cons. simpl.
      by rewrite Permutation_middle.
    + by apply (cols_grow_keys k).
  - intros col k' Hcol Hk'. eapply grow_keeps; [done| |done|].
    + rewrite Hcols in Hcol. apply elem_of_app in Hcol as [?|?];
        apply elem_of_app; [by left|right; by right].
    + intros ->. apply Hk, elem_of_keys_of. eauto.
Qed.

Lemma step_Rep s s' cols :
  Rep s cols → step s s' →
  ∃ cols', Rep s' cols'
    ∧ (∀ col k, col ∈ cols → ckind col = Real k → col ∈ cols').
Proof.
  intros HR Hstep.
  inversion Hstep as [s0 k v b s1 Hins|s0 k r w s1 Hf Has]; subst s0 s1.
  - apply insert_inv in Hins as [f Hins]. destruct b.
    + destruct (insert_new_Rep _ _ _ _ _ _ HR Hins)
        as (_ & _ & cols' & as' & a & n & HR' & _ & Hkeep & _). eauto.
    + destruct (decide (k ∈ keys_of cols)) as [Hk|Hk].
      * rewrite (insert_present _ cols k v HR Hk) in Hins.
        injection Hins as <- _. eauto.
      * destruct (insert_absent _ cols k v HR Hk) as (? & ? & ? & ? & ? & E & _).
        congruence.
  - destruct (assign_spec _ cols k r w HR Hf) as (s2 & E & HR' & _).
    assert (s2 = s') as -> by congruence. eauto.
Qed.

Lemma reachable_Rep s : reachable s → ∃ cols, Rep s cols.
Proof.
  induction 1 as [s Hs|s s' _ [cols HR] Hstep].
  - destruct ctor_Rep as (s0 & Hs0 & HR & _). exists [Col NegInf [2; 0]%nat; Col PosInf [3; 1]%nat].
    congruence.
  - destruct (step_Rep _ _ _ HR Hstep) as (cols' & HR' & _). eauto.
Qed.

Lemma present_keys_of s cols k : Rep s cols → present s k ↔ k ∈ keys_of cols.
Proof.
  intros HR. unfold present. rewrite (allKeysInOrder_spec _ _ HR). split.
  - by intros (ks & [= <-] & Hk).
  - eauto.
Qed.

(** * The specification *)

Lemma present_find s cols k :
  Rep s cols → k ∈ keys_of cols →
  ∃ col a n, col ∈ cols ∧ ckind col = Real k ∧ caddrs col !! 0%nat = Some a
    ∧ mem s !! a = Some n ∧ find s k = Ok (value n).
Proof.
  intros HR (col & Hin & Hk)%elem_of_keys_of.
  pose proof (Rep_height_le _ _ _ HR Hin) as Hh.
  destruct (lookup_lt_is_Some_2 (caddrs col) 0) as [a Ha]; [lia|].
  destruct (Rep_tagged _ _ _ _ _ HR Hin Ha) as (n & Hn & _).
  exists col, a, n. split_and!; try done. by eapply find_present.
Qed.

Lemma find_Ok_present s cols k v :
  Rep s cols → find s k = Ok v → k ∈ keys_of cols.
Proof.
  intros HR Hf. destruct (decide (k ∈ keys_of cols)) as [Hk|Hk]; [done|].
  by rewrite (find_absent s cols k) in Hf.
Qed.

(** C2: in every reachable list in which [k] is present, [insert(k, v)]
    returns false and leaves the list as it was, whatever [v] is: [find(k)]
    still returns the stored value and [size()] is unchanged. *)
Theorem insert_duplicate s k :
  reachable s → present s k →
  ∀ v, ∃ s' v0, insert s k v = Ok (false, s') ∧ s' = s
    ∧ find s k = Ok v0 ∧ find s' k = Ok v0 ∧ size s' = size s.
Proof.
  intros [cols HR]%reachable_Rep Hk v.
  apply (present_keys_of _ _ _ HR) in Hk.
  destruct (present_find _ _ _ HR Hk) as (col & a & n & _ & _ & _ & _ & Hf).
  exists s, (value n). split_and!; try done.
  eapply insert_flips_insert. by eapply insert_present.
Qed.

(** C10: on every reachable list, [insert(k, v)] with [k] not yet present
    succeeds, [size()] grows by exactly one, and [find(k')] returns what it
    returned before for every key [k'] that was present. *)
Theorem insert_new_frame s k v :
  reachable s → ¬ present s k →
  ∃ s', insert s k v = Ok (true, s')
    ∧ size s' = size s + 1
    ∧ ∀ k' v', find s k' = Ok v' → find s' k' = Ok v'.
Proof.
  intros [cols HR]%reachable_Rep Hk.
  rewrite (present_keys_of _ _ _ HR) in Hk.
  destruct (insert_absent s cols k v HR Hk) as (s' & ? & ? & ? & ? & Hins & _).
  destruct (insert_new_Rep _ _ _ _ _ _ HR Hins)
    as (_ & _ & cols' & as' & a & n & HR' & _ & Hkeep & _ & _ & _ & HK & HD & _).
  exists s'. split_and!; [by eapply insert_flips_insert|done|].
  intros k' v' Hf. pose proof (find_Ok_present _ _ _ _ HR Hf) as Hk'.
  destruct (present_find _ _ _ HR Hk') as (col & a' & n' & Hin & Hck & Ha' & Hn' & Hf').
  destruct (HD _ _ Hn') as (n'' & Hn'' & _ & Hv & _).
  rewrite (find_present s' cols' col k' a' n''); try done; [congruence|].
  by eapply Hkeep.
Qed.

(** C8: on every reachable list, after [insert(k, v)] of a key not yet
    present, [find(k)] returns [v]; and a value written through the
    reference that [find(k)] returns is what the next [find(k)] returns. *)
Theorem insert_find_roundtrip s k v :
  reachable s → ¬ present s k →
  ∃ s', insert s k v = Ok (true, s') ∧ find s' k = Ok v
    ∧ ∀ w, ∃ r s'', find_ref s' k = Ok r ∧ assign s' r w = Ok s''
        ∧ find s'' k = Ok w.
Proof.
  intros [cols HR]%reachable_Rep Hk.
  rewrite (present_keys_of _ _ _ HR) in Hk.
  destruct (insert_absent s cols k v HR Hk) as (s' & ? & ? & ? & ? & Hins & _).
  destruct (insert_new_Rep _ _ _ _ _ _ HR Hins)
    as (_ & _ & cols' & as' & a & n & HR' & _ & _ & Hin & _ & _ & _ & _
        & Ha & Hn & Hv).
  exists s'. split_and!; [by eapply insert_flips_insert| |].
  - rewrite (find_present s' cols' _ k a n HR' Hin); [congruence|done..].
  - intros w.
    pose proof (find_ref_present s' cols' _ k a HR' Hin eq_refl Ha) as Hr.
    destruct (assign_spec s' cols' k (Some a) w HR' Hr) as (s'' & Has & _ & _ & _ & Hf & _).
    eauto.
Qed.

Lemma steps_keep_column s1 s2 cols1 col k :
  Rep s1 cols1 → col ∈ cols1 → ckind col = Real k → rtc step s1 s2 →
  ∃ cols2, Rep s2 cols2 ∧ col ∈ cols2.
Proof.
  intros HR Hin Hk Hsteps. revert cols1 HR Hin.
  induction Hsteps as [s|s1 s2 s3 Hstep _ IH]; intros cols1 HR Hin; [eauto|].
  destruct (step_Rep _ _ _ HR Hstep) as (cols2 & HR2 & Hkeep).
  eapply IH; [done|]. by eapply Hkeep.
Qed.

(** C3: a successful [insert] of a new key computes the cutoff from the
    key count that includes the new key, 12 up to 16 keys and
    [3 * ceil(log2(count))] beyond; the loop promotes while
    [flipCoin(k, height)] holds and [height + 1] is below the cutoff; and
    from then on the height of [k] is one more than the number of its
    promotions, at least 1 and at most that cutoff. *)
Theorem height_bounded_by_cutoff s k v :
  reachable s → ¬ present s k →
  ∃ s1, insert_flips s k v = Ok (true, s1, flips_of k (size s1))
    ∧ size s1 = size s + 1
    ∧ max_flips_of (size s1) =
        (if size s1 <=? 16 then 12 else 3 * N.log2_up (size s1))
    ∧ ∀ s2, rtc step s1 s2 →
        ∃ h, height s2 k = Ok h ∧ h = flips_of k (size s1) + 1
          ∧ 1 ≤ h ∧ h ≤ max_flips_of (size s1).
Proof.
  intros [cols HR]%reachable_Rep Hk.
  rewrite (present_keys_of _ _ _ HR) in Hk.
  destruct (insert_absent s cols k v HR Hk) as (s1 & ? & ? & ? & ? & Hins & _).
  destruct (insert_new_Rep _ _ _ _ _ _ HR Hins)
    as (_ & _ & cols' & as' & a & n & HR' & _ & _ & Hin & Hlen & _ & HK & _).
  exists s1. unfold size. rewrite HK. split_and!; try done.
  intros s2 Hsteps.
  destruct (steps_keep_column _ _ _ _ k HR' Hin eq_refl Hsteps) as (cols2 & HR2 & Hin2).
  rewrite (height_present s2 cols2 _ k HR2 Hin2 eq_refl). simpl. rewrite Hlen.
  pose proof (flips_of_lt k (num_keys s + 1)).
  eexists. split; [done|]. lia.
Qed.

(** ** Neighbours in the order of keys *)

Definition is_largest (ks : list Key) (k : Key) : Prop :=
  k ∈ ks ∧ ∀ x, x ∈ ks → key_ge k x = true.

Definition is_smallest (ks : list Key) (k : Key) : Prop :=
  k ∈ ks ∧ ∀ x, x ∈ ks → key_ge x k = true.

(** [k'] is the least key of [ks] above [k]. *)
Definition is_successor (ks : list Key) (k k' : Key) : Prop :=
  k' ∈ ks ∧ key_lt k k' ∧ ∀ x, x ∈ ks → key_lt k x → key_ge x k' = true.

(** [k'] is the greatest key of [ks] below [k]. *)
Definition is_predecessor (ks : list Key) (k k' : Key) : Prop :=
  k' ∈ ks ∧ key_lt k' k ∧ ∀ x, x ∈ ks → key_lt x k → key_ge k' x = true.

Lemma sorted_split_lt (L R : list Key) k :
  StronglySorted key_lt (L ++ k :: R) →
  (∀ x, x ∈ L → key_lt x k) ∧ (∀ x, x ∈ R → key_lt k x).
Proof.
  intros Hs. apply StronglySorted_app in Hs as (HLR & _ & Hs).
  apply StronglySorted_cons in Hs as [HR _]. rewrite Forall_forall in HR.
  split; [|done]. intros x Hx. apply HLR; [done|by left].
Qed.

Lemma nextKey_cases s cols k :
  Rep s cols → k ∈ keys_of cols →
  (nextKey s k = KeyNotFound ∧ is_largest (keys_of cols) k)
  ∨ (∃ k', nextKey s k = Ok k' ∧ is_successor (keys_of cols) k k').
Proof.
  intros HR Hk.
  destruct (nextKey_present s cols k HR Hk)
    as (cpre & ca & cb & cpost & Hcols & Hca & Hnext).
  pose proof (keys_sorted _ (rep_sorted _ _ HR)) as Hs.
  pose proof (Rep_lt _ _ _ _ _ _ HR Hcols) as Hlt. rewrite Hca in Hlt.
  assert (keys_of cols = keys_of cpre ++ k :: keys_of (cb :: cpost)) as Hks.
  { by rewrite Hcols, keys_of_app, keys_of_cons, Hca. }
  rewrite Hks in Hs. destruct (sorted_split_lt _ _ _ Hs) as [HL HR'].
  rewrite keys_of_cons in Hks, HR', Hs.
  destruct (ckind cb) as [|k'|] eqn:Hcb; [done|..].
  - right. exists k'. split; [done|]. rewrite Hks. split_and!.
    + apply elem_of_app. right. right. by left.
    + done.
    + intros x [Hx|[->|[->|Hx]%elem_of_cons]%elem_of_cons]%elem_of_app Hkx.
      * apply HL, key_lt_ge in Hx. unfold key_lt in Hkx. congruence.
      * unfold key_lt in Hkx. by rewrite key_ge_refl in Hkx.
      * apply key_ge_refl.
      * apply key_lt_ge. apply StronglySorted_app_1_r in Hs.
        apply StronglySorted_cons in Hs as [_ Hs].
        apply StronglySorted_cons in Hs as [Hs _].
        rewrite Forall_forall in Hs. by apply Hs.
  - left. split; [done|]. rewrite Hks.
    rewrite (cons_middle ca), app_assoc in Hcols.
    rewrite (Rep_after_PosInf _ _ _ _ _ HR Hcols Hcb). split.
    + apply elem_of_app. right. by left.
    + intros x [Hx|[->|Hx]%elem_of_cons]%elem_of_app.
      * by apply key_lt_ge, HL.
      * apply key_ge_refl.
      * by apply elem_of_nil in Hx.
Qed.

Lemma previousKey_cases s cols k :
  Rep s cols → k ∈ keys_of cols →
  (previousKey s k = KeyNotFound ∧ is_smallest (keys_of cols) k)
  ∨ (∃ k', previousKey s k = Ok k' ∧ is_predecessor (keys_of cols) k k').
Proof.
  intros HR Hk.
  destruct (previousKey_present s cols k HR Hk)
    as (cpre & cp & ca & cpost & Hcols & Hca & Hprev).
  pose proof (keys_sorted _ (rep_sorted _ _ HR)) as Hs.
  pose proof (Rep_lt _ _ _ _ _ _ HR Hcols) as Hlt. rewrite Hca in Hlt.
  assert (keys_of cols = keys_of (cpre ++ [cp]) ++ k :: keys_of cpost) as Hks.
  { by rewrite Hcols, (cons_middle cp), app_assoc, keys_of_app, keys_of_cons, Hca. }
  rewrite Hks in Hs. destruct (sorted_split_lt _ _ _ Hs) as [HL HR'].
  rewrite keys_of_app, keys_of_cons in Hks, HL, Hs.
  destruct (ckind cp) as [|k'|] eqn:Hcp; [..|done].
  - left. split; [done|]. rewrite Hks.
    rewrite (Rep_before_NegInf _ _ _ _ _ HR Hcols Hcp). simpl. split.
    + by left.
    + intros x [->|Hx]%elem_of_cons; [apply key_ge_refl|].
      by apply key_lt_ge, HR'.
  - right. exists k'. split; [done|]. rewrite Hks. split_and!.
    + apply elem_of_app. left. apply elem_of_app. right. by left.
    + apply HL. apply elem_of_app. right. by left.
    + intros x [[Hx|[->|Hx]%elem_of_cons]%elem_of_app|[->|Hx]%elem_of_cons]%elem_of_app Hxk.
      * apply key_lt_ge. apply StronglySorted_app_1_l in Hs.
        apply StronglySorted_app in Hs as (Hs & _). apply Hs; [done|by left].
      * apply key_ge_refl.
      * by apply elem_of_nil in Hx.
      * unfold key_lt in Hxk. by rewrite key_ge_refl in Hxk.
      * apply HR', key_lt_ge in Hx. unfold key_lt in Hxk. congruence.
Qed.

(** C5: on every reachable list, [nextKey(k)] throws exactly when [k] is
    absent or is the largest key, and otherwise returns the least key above
    [k]; [previousKey(k)] throws exactly when [k] is absent or is the
    smallest key, and otherwise returns the greatest key below [k]. *)
Theorem nextKey_previousKey_spec s ks k :
  reachable s → allKeysInOrder s = Ok ks →
  (nextKey s k = KeyNotFound ↔ (k ∉ ks) ∨ is_largest ks k)
  ∧ (previousKey s k = KeyNotFound ↔ (k ∉ ks) ∨ is_smallest ks k)
  ∧ (k ∈ ks → ¬ is_largest ks k →
       ∃ k', nextKey s k = Ok k' ∧ is_successor ks k k')
  ∧ (k ∈ ks → ¬ is_smallest ks k →
       ∃ k', previousKey s k = Ok k' ∧ is_predecessor ks k k').
Proof.
  intros [cols HR]%reachable_Rep Hks.
  rewrite (allKeysInOrder_spec _ _ HR) in Hks. injection Hks as <-.
  split_and!.
  - split.
    + intros Hn. destruct (decide (k ∈ keys_of cols)) as [Hk|Hk]; [|by left].
      destruct (nextKey_cases _ _ _ HR Hk) as [[_ ?]|(k' & E & _)]; [by right|].
      congruence.
    + intros [Hk|Hl]; [by apply (nextKey_absent s cols)|].
      destruct (nextKey_cases _ _ _ HR (proj1 Hl)) as [[? _]|(k' & _ & Hin & Hlt & _)];
        [done|]. destruct Hl as [_ Hl]. specialize (Hl _ Hin).
      unfold key_lt in Hlt. congruence.
  - split.
    + intros Hn. destruct (decide (k ∈ keys_of cols)) as [Hk|Hk]; [|by left].
      destruct (previousKey_cases _ _ _ HR Hk) as [[_ ?]|(k' & E & _)]; [by right|].
      congruence.
    + intros [Hk|Hl]; [by apply (previousKey_absent s cols)|].
      destruct (previousKey_cases _ _ _ HR (proj1 Hl))
        as [[? _]|(k' & _ & Hin & Hlt & _)]; [done|].
      destruct Hl as [_ Hl]. specialize (Hl _ Hin).
      unfold key_lt in Hlt. congruence.
  - intros Hk Hnl. destruct (nextKey_cases _ _ _ HR Hk) as [[_ ?]|?]; done.
  - intros Hk Hns. destruct (previousKey_cases _ _ _ HR Hk) as [[_ ?]|?]; done.
Qed.

(** ** Sequences of insertions *)

(** A loop of insertions, with the value each call returned:
    [for (kv : kvs) results.push_back(sl.insert(kv.first, kv.second));] *)
Fixpoint insert_all (s : SkipList) (kvs : list (Key * Value))
    : result (list bool * SkipList) :=
  match kvs with
  | [] => Ok ([], s)
  | kv :: kvs =>
    let* bs := insert s kv.1 kv.2 in
    let* r := insert_all bs.2 kvs in
    Ok (bs.1 :: r.1, r.2)
  end.

Lemma insert_all_Rep kvs :
  ∀ s cols, Rep s cols → NoDup kvs.*1 →
  (∀ k, k ∈ kvs.*1 → k ∉ keys_of cols) →
  ∃ s' cols', insert_all s kvs = Ok (replicate (length kvs) true, s')
    ∧ Rep s' cols' ∧ keys_of cols' ≡ₚ kvs.*1 ++ keys_of cols.
Proof.
  induction kvs as [|[k v] kvs IH]; intros s cols HR Hnd Hnew.
  { exists s, cols. by split_and!. }
  rewrite fmap_cons in Hnd, Hnew. simpl in Hnd, Hnew.
  apply NoDup_cons in Hnd as [Hk Hnd].
  destruct (insert_absent s cols k v HR) as (s1 & ? & ? & ? & ? & Hins & _).
  { apply Hnew. by left. }
  destruct (insert_new_Rep _ _ _ _ _ _ HR Hins)
    as (_ & _ & cols1 & as' & a & n & HR1 & Hperm & _).
  destruct (IH s1 cols1 HR1 Hnd) as (s' & cols' & Hall & HR' & Hperm').
  { intros k' Hk' Hin. rewrite Hperm in Hin.
    apply elem_of_cons in Hin as [->|Hin]; [done|].
    apply (Hnew k'); [by right|done]. }
  exists s', cols'. split_and!; [|done|].
  - simpl. rewrite (insert_flips_insert _ _ _ _ _ _ Hins). cbn [bind]. simpl.
    by rewrite Hall.
  - rewrite Hperm', Hperm, fmap_cons. simpl. by rewrite Permutation_middle.
Qed.

Lemma key_lt_asym (a b : Key) : key_lt a b → key_lt b a → False.
Proof. unfold key_lt. intros Hab%key_lt_ge Hba. congruence. Qed.

(** C6: distinct keys inserted one after the other into a new list are
    all accepted, and [allKeysInOrder()] then returns exactly these keys in
    strictly ascending order; the same keys inserted in any other order give
    the same result. *)
Theorem allKeysInOrder_sorted kvs :
  NoDup kvs.*1 →
  ∃ s0 s ks,
    SkipList_ctor = Ok s0
    ∧ insert_all s0 kvs = Ok (replicate (length kvs) true, s)
    ∧ allKeysInOrder s = Ok ks
    ∧ StronglySorted key_lt ks
    ∧ ks ≡ₚ kvs.*1
    ∧ ∀ kvs', kvs'.*1 ≡ₚ kvs.*1 →
        ∃ s', insert_all s0 kvs' = Ok (replicate (length kvs') true, s')
          ∧ allKeysInOrder s' = Ok ks.
Proof.
  intros Hnd. destruct ctor_Rep as (s0 & Hs0 & HR0 & _).
  assert (∀ l : list (Key * Value), NoDup l.*1 →
    ∃ s ks, insert_all s0 l = Ok (replicate (length l) true, s)
      ∧ allKeysInOrder s = Ok ks ∧ StronglySorted key_lt ks ∧ ks ≡ₚ l.*1)
    as Hrun.
  { intros l Hl. destruct (insert_all_Rep l s0 _ HR0 Hl) as (s & cols & Hall & HR & Hp).
    { intros k _ Hin. by apply elem_of_nil in Hin. }
    exists s, (keys_of cols). split_and!; try done.
    - by apply allKeysInOrder_spec.
    - apply keys_sorted, (rep_sorted _ _ HR).
    - by rewrite Hp, app_nil_r. }
  destruct (Hrun kvs Hnd) as (s & ks & Hall & Hks & Hs & Hp).
  exists s0, s, ks. split_and!; try done.
  intros kvs' Hperm. destruct (Hrun kvs') as (s' & ks' & Hall' & Hks' & Hs' & Hp').
  { by rewrite Hperm. }
  exists s'. split; [done|]. rewrite Hks'. f_equal.
  apply (StronglySorted_unique_strong key_lt); try done.
  - intros x1 x2 _ _ H1 H2. by destruct (key_lt_asym x1 x2).
  - by rewrite Hp', Hperm, Hp.
Qed.

(** ** Layers *)

(** The keys of the topmost layer: the loop of [allKeysInOrder], started at
    [head] itself. *)
Definition top_layer_keys (s : SkipList) : result (list Key) :=
  collect_keys (length (mem s)) (mem s) (head s) [].

Lemma top_layer_empty s cols : Rep s cols → top_layer_keys s = Ok [].
Proof.
  intros HR. destruct (Rep_cells_top _ _ HR) as (a & b & Hhd & _ & Htop).
  pose proof (Rep_row _ _ (N.to_nat (num_layers s) - 1) HR) as Hrow.
  rewrite Htop in Hrow.
  destruct (row_node _ [] a NegInf [(b, PosInf)] Hrow) as (na & Hna & _ & Hnx & _).
  destruct (row_node _ [(a, NegInf)] b PosInf [] Hrow) as (nb & Hnb & Htb & _).
  unfold top_layer_keys. rewrite Hhd.
  destruct (length (mem s)) as [|fuel] eqn:Hlen.
  { apply lookup_lt_Some in Hna. lia. }
  simpl. rewrite (deref_Some _ _ _ Hna). simpl. simpl in Hnx. rewrite Hnx.
  rewrite (deref_Some _ _ _ Hnb). simpl. by destruct Htb as (_ & ->).
Qed.

(** C7: on every reachable list, [numLayers()] is at least 2; no call makes
    it smaller; a call of [insert] makes it larger by at most the number of
    promotions of that call; and the topmost layer holds no key. *)
Theorem layers_invariant s :
  reachable s →
  2 ≤ numLayers s
  ∧ top_layer_keys s = Ok []
  ∧ (∀ s', step s s' → numLayers s ≤ numLayers s')
  ∧ (∀ k v b s' flips, insert_flips s k v = Ok (b, s', flips) →
       numLayers s ≤ numLayers s' ∧ numLayers s' ≤ numLayers s + flips).
Proof.
  intros [cols HR]%reachable_Rep. pose proof (rep_layers _ _ HR) as HL.
  assert (∀ k v b s' flips, insert_flips s k v = Ok (b, s', flips) →
    numLayers s ≤ numLayers s' ∧ numLayers s' ≤ numLayers s + flips) as Hins.
  { intros k v b s' flips Hins. unfold numLayers.
    destruct (decide (k ∈ keys_of cols)) as [Hk|Hk].
    - rewrite (insert_present _ cols k v HR Hk) in Hins.
      injection Hins as <- <- <-. lia.
    - destruct (insert_absent _ cols k v HR Hk)
        as (s1 & ? & ? & ? & ? & Hins' & _ & _ & _ & _ & _ & HL' & _).
      rewrite Hins' in Hins. injection Hins as <- <- <-. lia. }
  split_and!; [done|by eapply top_layer_empty| |done].
  intros s' Hstep.
  inversion Hstep as [s0 k v b s1 Hi|s0 k r w s1 Hf Has]; subst s0 s1.
  - apply insert_inv in Hi as [f Hi]. by destruct (Hins _ _ _ _ _ Hi).
  - destruct (assign_spec _ cols k r w HR Hf) as (s2 & E & _ & HL2 & _).
    assert (s2 = s') as -> by congruence. unfold numLayers. lia.
Qed.

(** ** isSmallestKey and isLargestKey *)

Lemma to_last_spec s cols fuel cpre c cpost a :
  Rep s cols → cols = cpre ++ c :: cpost → ckind c ≠ PosInf →
  base c = Some a → (length cpost ≤ fuel)%nat →
  ∃ a' n', to_last fuel (mem s) (Some a) = Ok (Some a')
    ∧ mem s !! a' = Some n'.
Proof.
  intros HR. revert fuel cpre c a.
  induction cpost as [|c' cpost IH]; intros fuel cpre c a Hcols Hc Ha Hfuel.
  { destruct (Rep_last _ _ HR) as (rest & ts & E). rewrite E in Hcols.
    apply app_inj_tail in Hcols as [_ E']. subst c. by destruct Hc. }
  destruct fuel as [|fuel]; [simpl in Hfuel; lia|].
  destruct (Rep_base _ _ _ _ _ HR Hcols) as (a' & n & Ha' & Hn & _ & Hnx & _).
  assert (a' = a) as -> by congruence. simpl in Hnx.
  pose proof Hcols as Hcols'. rewrite (cons_middle c), app_assoc in Hcols'.
  destruct (Rep_base _ _ _ _ _ HR Hcols') as (b & nb & Hb & Hnb & Htb & _).
  pose proof (Rep_lt _ _ _ _ _ _ HR Hcols) as Hlt.
  simpl. rewrite (deref_Some _ _ _ Hn). simpl.
  rewrite Hnx, Hb, (deref_Some _ _ _ Hnb). simpl.
  destruct (ckind c') as [|k'|] eqn:Hk'.
  - by destruct (ckind c).
  - destruct Htb as (_ & -> & _). simpl.
    apply (IH fuel (cpre ++ [c]) c' b); [done|by rewrite Hk'|done|simpl in Hfuel; lia].
  - destruct Htb as (_ & ->). simpl. eauto.
Qed.

(** C1, as the code has it: on every reachable list and for every key,
    present or not, [isSmallestKey] and [isLargestKey] return a boolean;
    neither ever throws. *)
Theorem smallest_largest_return s k :
  reachable s →
  (∃ b, isSmallestKey s k = Ok b) ∧ (∃ b, isLargestKey s k = Ok b).
Proof.
  intros [cols HR]%reachable_Rep.
  destruct (to_bottom_head _ _ HR) as (hs & rest & a & Hcols & Ha & Hbot).
  destruct (Rep_base _ _ [] _ _ HR Hcols) as (a' & n & Ha' & Hn & _ & Hnx & _).
  unfold base in Ha'. simpl in Ha'. assert (a' = a) as -> by congruence.
  destruct rest as [|c1 rest].
  { destruct (Rep_last _ _ HR) as (r & ts & E). rewrite Hcols in E.
    destruct r as [|? [|??]]; simplify_eq/=. }
  destruct (Rep_base _ _ [Col NegInf hs] c1 rest HR Hcols) as (b & nb & Hb & Hnb & _).
  simpl in Hnx. split.
  - unfold isSmallestKey. rewrite Hbot. cbn [bind].
    rewrite (deref_Some _ _ _ Hn). cbn [bind]. rewrite Hnx, Hb.
    rewrite (deref_Some _ _ _ Hnb). cbn [bind].
    destruct (key_eq (key nb) k); eauto.
  - destruct (to_last_spec s cols (length (mem s)) [] (Col NegInf hs) (c1 :: rest) a HR)
      as (a2 & n2 & Hlast & Hn2); try done.
    { pose proof (Rep_row _ _ 0 HR) as Hrow. apply row_length in Hrow.
      rewrite (cells0_length cols) in Hrow by (by eapply Rep_nonempty).
      rewrite Hcols in Hrow. simpl in *. lia. }
    unfold isLargestKey. rewrite Hbot. cbn [bind]. rewrite Hlast. cbn [bind].
    rewrite (deref_Some _ _ _ Hn2). cbn [bind].
    destruct (key_eq (key n2) k); eauto.
Qed.

Lemma insert_all_reachable kvs :
  ∀ s bs s', reachable s → insert_all s kvs = Ok (bs, s') → reachable s'.
Proof.
  induction kvs as [|[k v] kvs IH]; intros s bs s' Hs; simpl.
  { by intros [= _ <-]. }
  destruct (insert s k v) as [[b s1]| | |] eqn:Hins; simpl; [|done..].
  destruct (insert_all s1 kvs) as [[bs1 s2]| | |] eqn:Hall; simpl; [|done..].
  intros [= _ <-]. eapply IH; [|done].
  eapply reach_step; [done|]. by eapply step_insert.
Qed.

(** The height of a key right after its insertion. *)
Lemma insert_new_height s k v :
  reachable s → ¬ present s k →
  ∃ s', insert_flips s k v = Ok (true, s', flips_of k (size s + 1))
    ∧ numLayers s' = N.max (numLayers s) (flips_of k (size s + 1) + 2)
    ∧ 2 ≤ numLayers s
    ∧ height s' k = Ok (flips_of k (size s + 1) + 1).
Proof.
  intros [cols HR]%reachable_Rep Hk.
  rewrite (present_keys_of _ _ _ HR) in Hk.
  destruct (insert_absent s cols k v HR Hk) as (s1 & ? & ? & ? & ? & Hins & _).
  destruct (insert_new_Rep _ _ _ _ _ _ HR Hins)
    as (_ & _ & cols' & as' & a & n & HR' & _ & _ & Hin & Hlen & HL & _).
  exists s1. split_and!; [done|done|apply (rep_layers _ _ HR)|].
  rewrite (height_present s1 cols' _ k HR' Hin eq_refl). simpl. rewrite Hlen.
  f_equal. unfold size. lia.
Qed.

Lemma flips_of_tails k n : flipCoin k 0 = false → flips_of k n = 0.
Proof.
  intros Hf. unfold flips_of. destruct (N.to_nat (max_flips_of n)); [done|].
  simpl. by rewrite Hf.
Qed.

(** * More of the behaviour of the list *)

(** ** Where a column stands among the columns *)

Lemma cols_NoDup (cols : list column) :
  StronglySorted kind_lt (ckind <$> cols) → NoDup cols.
Proof.
  induction cols as [|c cols IH]; [constructor|].
  rewrite fmap_cons. intros [Hall Hs]%StronglySorted_cons.
  apply NoDup_cons. split; [|by apply IH].
  intros Hin. rewrite Forall_forall in Hall.
  apply (kind_lt_irrefl (ckind c)), Hall, list_elem_of_fmap. eauto.
Qed.

Lemma cols_split_unique (cols l1 l2 l1' l2' : list column) c c' :
  StronglySorted kind_lt (ckind <$> cols) →
  cols = l1 ++ c :: l2 → cols = l1' ++ c' :: l2' → ckind c = ckind c' →
  l1 = l1' ∧ c = c' ∧ l2 = l2'.
Proof.
  intros Hs E1 E2 Hk.
  assert (c = c') as <-.
  { apply (sorted_column_unique cols); [done| | |done].
    - rewrite E1. apply elem_of_app. right. by left.
    - rewrite E2. apply elem_of_app. right. by left. }
  assert (length l1 = length l1') as Hlen.
  { apply (NoDup_lookup cols _ _ c (cols_NoDup _ Hs)).
    - rewrite E1. by apply list_lookup_middle.
    - rewrite E2. by apply list_lookup_middle. }
  rewrite E1 in E2. apply app_inj_1 in E2 as [-> E2]; [|done].
  by injection E2 as ->.
Qed.

Lemma cols_grow_same k (l l' : list column) :
  Forall2 (col_grow k) l l' →
  Forall (λ c, ∃ k', ckind c = Real k' ∧ k' ≠ k) l → l' = l.
Proof.
  induction 1 as [|c c' l l' (Hk & _ & Heq) _ IH]; [done|].
  intros [(k' & Hk' & Hne) Hl]%Forall_cons. f_equal; [|by apply IH].
  destruct c, c'. simpl in *. f_equal; [done|]. by eapply Heq.
Qed.

(** The columns before and after a successful [insert]: the column of the
    new key stands between the columns of the smaller and of the larger
    keys, and these are as they were. *)
Lemma insert_new_shape s cols k v s' f :
  Rep s cols → insert_flips s k v = Ok (true, s', f) →
  ∃ hs m1 m2 ts hs' as' ts',
    cols = Col NegInf hs :: (m1 ++ m2) ++ [Col PosInf ts]
    ∧ Rep s' (Col NegInf hs' :: (m1 ++ Col (Real k) as' :: m2) ++ [Col PosInf ts'])
    ∧ (k ∉ keys_of cols)
    ∧ f = flips_of k (num_keys s + 1)
    ∧ length as' = S (N.to_nat f)
    ∧ num_layers s' = N.max (num_layers s) (f + 2)
    ∧ num_keys s' = num_keys s + 1
    ∧ length hs = N.to_nat (num_layers s)
    ∧ length ts = N.to_nat (num_layers s)
    ∧ length hs' = N.to_nat (num_layers s')
    ∧ length ts' = N.to_nat (num_layers s')
    ∧ same_data (mem s) (mem s').
Proof.
  intros HR Hins. destruct (decide (k ∈ keys_of cols)) as [Hk|Hk].
  { by rewrite (insert_present s cols k v HR Hk) in Hins. }
  destruct (insert_absent s cols k v HR Hk)
    as (s1 & cols' & cpre & cpost & as' & Hins' & HR' & Hcols & HG & Hin & Hlen
        & HL & HK & HD & _).
  rewrite Hins' in Hins. injection Hins as <- <-.
  destruct (Rep_shape _ _ HR) as (hs & mid & ts & E & Hhs & Hts & _ & _ & _ & Hreal).
  destruct (Rep_shape _ _ HR') as (hs' & mid' & ts' & -> & Hhs' & Hts' & _).
  pose proof (cols_grow_keys k _ _ HG) as Hkinds.
  destruct cpre as [|c0 m1]; [done|].
  destruct cpost as [|c1 m2 _] using rev_ind.
  { apply (f_equal last) in Hkinds.
    rewrite !fmap_last, app_comm_cons, !last_snoc in Hkinds. done. }
  rewrite E in Hcols. simpl in Hcols. injection Hcols as <- Hmid.
  rewrite app_assoc in Hmid. apply app_inj_tail in Hmid as [-> <-].
  simpl in HG. apply Forall2_cons in HG as [_ HG].
  apply Forall2_app_inv_l in HG as (m1' & rest & HG1 & HG2 & Emid).
  apply Forall2_cons_inv_l in HG2 as (new' & rest2 & Hnew & HG2 & ->).
  apply Forall2_app_inv_l in HG2 as (m2' & r3 & HG2 & HG3 & ->).
  apply Forall2_cons_inv_l in HG3 as (p' & r4 & _ & HG3 & ->).
  apply Forall2_nil_inv_l in HG3 as ->.
  change (m1' ++ new' :: m2' ++ [p']) with (m1' ++ (new' :: m2') ++ [p']) in Emid.
  rewrite app_assoc in Emid. apply app_inj_tail in Emid as [-> <-].
  assert (∀ c, c ∈ m1 ++ m2 → ∃ k', ckind c = Real k' ∧ k' ≠ k) as Hother.
  { intros c Hc. rewrite Forall_forall in Hreal.
    destruct (Hreal c Hc) as [k' Hk']. exists k'. split; [done|].
    intros ->. apply Hk, elem_of_keys_of. exists c. split; [|done].
    rewrite E. right. apply elem_of_app. by left. }
  assert (m1' = m1) as ->.
  { apply (cols_grow_same k); [done|]. apply Forall_forall. intros c Hc.
    apply Hother, elem_of_app. by left. }
  assert (m2' = m2) as ->.
  { apply (cols_grow_same k); [done|]. apply Forall_forall. intros c Hc.
    apply Hother, elem_of_app. by right. }
  assert (new' = Col (Real k) as') as ->.
  { apply (sorted_column_unique _ _ _ (rep_sorted _ _ HR')); [|done|].
    - right. apply elem_of_app. left. apply elem_of_app. right. by left.
    - by destruct Hnew as [-> _]. }
  exists hs, m1, m2, ts, hs', as', ts'. by split_and!.
Qed.

(** ** Keys, size and emptiness *)

(** X1: on every reachable list, [allKeysInOrder()] returns the keys in
    strictly ascending order, [size()] is their number, and [isEmpty()]
    holds exactly when there is none. *)
Theorem size_counts_keys s :
  reachable s →
  ∃ ks, allKeysInOrder s = Ok ks
    ∧ StronglySorted key_lt ks
    ∧ size s = N.of_nat (length ks)
    ∧ (isEmpty s = true ↔ ks = []).
Proof.
  intros [cols HR]%reachable_Rep. exists (keys_of cols). split_and!.
  - by apply allKeysInOrder_spec.
  - apply keys_sorted, (rep_sorted _ _ HR).
  - apply (rep_count _ _ HR).
  - unfold isEmpty. rewrite (rep_count _ _ HR), N.eqb_eq.
    destruct (keys_of cols); simpl; split; (done || lia).
Qed.

(** X2: on every reachable list, [find(k)] and [height(k)] return for a
    key that is present, the height being at least 1 and below
    [numLayers()]; both throw for a key that is absent. *)
Theorem lookup_throws_iff_absent s k :
  reachable s →
  (present s k →
     (∃ v, find s k = Ok v)
     ∧ ∃ h, height s k = Ok h ∧ 1 ≤ h ∧ h < numLayers s)
  ∧ (¬ present s k → find s k = KeyNotFound ∧ height s k = KeyNotFound).
Proof.
  intros [cols HR]%reachable_Rep. rewrite (present_keys_of _ _ _ HR). split.
  - intros Hk.
    destruct (present_find _ _ _ HR Hk) as (col & a & n & Hin & Hck & _ & _ & Hf).
    split; [eauto|]. rewrite (height_present s cols col k HR Hin Hck).
    eexists. split; [done|].
    pose proof (rep_heights _ _ HR) as Hh. rewrite Forall_forall in Hh.
    specialize (Hh col Hin). unfold height_ok in Hh. rewrite Hck in Hh.
    unfold numLayers. lia.
  - intros Hk. split; [by eapply find_absent|by eapply height_absent].
Qed.

(** X3: on every reachable list, [nextKey] and [previousKey] undo each
    other: [nextKey(k)] returns [k'] exactly when [previousKey(k')]
    returns [k]. *)
Theorem nextKey_previousKey_inverse s k k' :
  reachable s → nextKey s k = Ok k' ↔ previousKey s k' = Ok k.
Proof.
  intros [cols HR]%reachable_Rep.
  pose proof (rep_sorted _ _ HR) as Hs. split; intros Hq.
  - destruct (decide (k ∈ keys_of cols)) as [Hk|Hk]; last first.
    { by rewrite (nextKey_absent s cols k) in Hq. }
    destruct (nextKey_present s cols k HR Hk)
      as (cpre & ca & cb & cpost & Hcols & Hca & Hnext).
    rewrite Hnext in Hq. destruct (ckind cb) as [|x|] eqn:Hcb; try done.
    injection Hq as ->.
    assert (k' ∈ keys_of cols) as Hk'.
    { apply elem_of_keys_of. exists cb. split; [|done].
      rewrite Hcols. apply elem_of_app. right. right. by left. }
    destruct (previousKey_present s cols k' HR Hk')
      as (cpre' & cp & ca' & cpost' & Hcols' & Hca' & Hprev).
    rewrite (cons_middle ca), app_assoc in Hcols.
    rewrite (cons_middle cp), app_assoc in Hcols'.
    destruct (cols_split_unique cols _ _ _ _ cb ca' Hs Hcols Hcols') as (E & _).
    { congruence. }
    apply app_inj_tail in E as [_ ->]. by rewrite Hprev, Hca.
  - destruct (decide (k' ∈ keys_of cols)) as [Hk'|Hk']; last first.
    { by rewrite (previousKey_absent s cols k') in Hq. }
    destruct (previousKey_present s cols k' HR Hk')
      as (cpre' & cp & ca' & cpost' & Hcols' & Hca' & Hprev).
    rewrite Hprev in Hq. destruct (ckind cp) as [|x|] eqn:Hcp; try done.
    injection Hq as ->.
    assert (k ∈ keys_of cols) as Hk.
    { apply elem_of_keys_of. exists cp. split; [|done].
      rewrite Hcols'. apply elem_of_app. right. by left. }
    destruct (nextKey_present s cols k HR Hk)
      as (cpre & ca & cb & cpost & Hcols & Hca & Hnext).
    destruct (cols_split_unique cols _ _ _ _ ca cp Hs Hcols Hcols') as (-> & _ & E).
    { congruence. }
    injection E as -> _. by rewrite Hnext, Hca'.
Qed.

(** X4: on every reachable list, a write through the reference that
    [find(k)] returns changes the value of [k] and nothing else: the keys,
    [size()], [numLayers()], every height and the value of every other key
    are as before. *)
Theorem assign_frame s k w :
  reachable s → present s k →
  ∃ r s', find_ref s k = Ok r ∧ assign s r w = Ok s'
    ∧ find s' k = Ok w
    ∧ (∀ k', k' ≠ k → find s' k' = find s k')
    ∧ allKeysInOrder s' = allKeysInOrder s
    ∧ size s' = size s ∧ numLayers s' = numLayers s
    ∧ (∀ k', height s' k' = height s k').
Proof.
  intros [cols HR]%reachable_Rep Hk. rewrite (present_keys_of _ _ _ HR) in Hk.
  destruct (present_find _ _ _ HR Hk) as (col & a & n & Hin & Hck & Ha & _).
  pose proof (find_ref_present s cols col k a HR Hin Hck Ha) as Hr.
  destruct (assign_spec s cols k _ w HR Hr) as (s' & Has & HR' & HL & HK & Hf & Hfr).
  exists (Some a), s'. split_and!; try done.
  - by rewrite !(allKeysInOrder_spec _ cols).
  - intros k'. destruct (decide (k' ∈ keys_of cols)) as [Hk'|Hk'].
    + apply elem_of_keys_of in Hk' as (col' & Hin' & Hck').
      by rewrite !(height_present _ cols col' k').
    + by rewrite !(height_absent _ cols k').
Qed.

(** X5: on every reachable list, [insert(k, v)] of a key that is absent
    puts [k] at its place in the order of [allKeysInOrder()], after the
    smaller keys and before the larger ones, and leaves the height of
    every other key as it was. *)
Theorem insert_new_order s ks k v :
  reachable s → allKeysInOrder s = Ok ks → k ∉ ks →
  ∃ s' l1 l2, insert s k v = Ok (true, s')
    ∧ ks = l1 ++ l2
    ∧ allKeysInOrder s' = Ok (l1 ++ k :: l2)
    ∧ (∀ x, x ∈ l1 → key_lt x k) ∧ (∀ x, x ∈ l2 → key_lt k x)
    ∧ (∀ k', k' ≠ k → height s' k' = height s k').
Proof.
  intros [cols HR]%reachable_Rep Hks Hk.
  rewrite (allKeysInOrder_spec _ _ HR) in Hks. injection Hks as <-.
  destruct (insert_absent s cols k v HR Hk) as (s' & ? & ? & ? & ? & Hins & _).
  destruct (insert_new_shape _ _ _ _ _ _ HR Hins)
    as (hs & m1 & m2 & ts & hs' & as' & ts' & E & HR' & _).
  exists s', (keys_of m1), (keys_of m2).
  assert (keys_of cols = keys_of m1 ++ keys_of m2) as Eks.
  { rewrite E, keys_of_cons, !keys_of_app, keys_of_cons. simpl.
    by rewrite app_nil_r. }
  assert (keys_of (Col NegInf hs' :: (m1 ++ Col (Real k) as' :: m2)
                     ++ [Col PosInf ts']) = keys_of m1 ++ k :: keys_of m2) as Eks'.
  { rewrite keys_of_cons, !keys_of_app, !keys_of_cons. simpl.
    by rewrite app_nil_r. }
  pose proof (keys_sorted _ (rep_sorted _ _ HR')) as Hs. rewrite Eks' in Hs.
  destruct (sorted_split_lt _ _ _ Hs) as [HL HG].
  split_and!; try done.
  - by eapply insert_flips_insert.
  - by rewrite (allKeysInOrder_spec _ _ HR'), Eks'.
  - intros k' Hne. destruct (decide (k' ∈ keys_of cols)) as [Hk'|Hk'].
    + apply elem_of_keys_of in Hk' as (col & Hin & Hck).
      rewrite (height_present s cols col k' HR Hin Hck).
      apply (height_present s' _ col k' HR'); [|done].
      assert (col ∈ m1 ++ m2) as Hmid.
      { rewrite E in Hin. apply elem_of_cons in Hin as [->|Hin]; [done|].
        apply elem_of_app in Hin as [Hin|Hin]; [done|].
        apply elem_of_cons in Hin as [->|Hin]; [done|].
        by apply elem_of_nil in Hin. }
      right. apply elem_of_app. left.
      apply elem_of_app in Hmid as [?|?]; apply elem_of_app;
        [by left|right; by right].
    + rewrite (height_absent s cols k' HR Hk').
      apply (height_absent s' _ k' HR'). rewrite Eks'. rewrite Eks in Hk'.
      intros [Hx|[->|Hx]%elem_of_cons]%elem_of_app; [|done|];
        apply Hk', elem_of_app; auto.
Qed.

(** X6: no call removes a key or changes the height of a key: after an
    [insert] or a write through [find], every key that was present is
    still present, with the height it had. *)
Theorem step_keeps_keys s s' k :
  reachable s → step s s' → present s k →
  present s' k ∧ height s' k = height s k.
Proof.
  intros [cols HR]%reachable_Rep Hstep Hk.
  rewrite (present_keys_of _ _ _ HR) in Hk.
  apply elem_of_keys_of in Hk as (col & Hin & Hck).
  destruct (step_Rep _ _ _ HR Hstep) as (cols' & HR' & Hkeep).
  pose proof (Hkeep col k Hin Hck) as Hin'. split.
  - apply (present_keys_of _ _ _ HR'), elem_of_keys_of. eauto.
  - by rewrite (height_present s cols col k), (height_present s' cols' col k).
Qed.

(** ** The heap of a reachable list *)

Lemma bind_Ok {A B : Type} (r : result A) (f : A → result B) b :
  bind r f = Ok b → ∃ a, r = Ok a ∧ f a = Ok b.
Proof. destruct r; simpl; [eauto|done..]. Qed.

Lemma store_inv (h : heap) p f h' :
  store h p f = Ok h' →
  ∃ a n, p = Some a ∧ h !! a = Some n ∧ h' = <[a := f n]> h.
Proof.
  unfold store. destruct p as [a|]; [|done].
  destruct (h !! a) as [n|] eqn:E; [|done]. intros [= <-]. eauto.
Qed.

(** A sentinel holds the key [Key()] that [SkipNode()] gave it. *)
Definition sentinel_key (n : node) : Prop :=
  n_inf n = true ∨ p_inf n = true → key n = default_ctor.

(** A write that leaves the key and the two flags of a node alone. *)
Definition keeps_tag (f : node → node) : Prop :=
  ∀ n, key (f n) = key n ∧ n_inf (f n) = n_inf n ∧ p_inf (f n) = p_inf n.

Lemma store_keeps (h : heap) p f h' :
  store h p f = Ok h' → keeps_tag f →
  length h' = length h ∧ (Forall sentinel_key h → Forall sentinel_key h').
Proof.
  intros (a & n & -> & Ha & ->)%store_inv Hf. split; [by rewrite length_insert|].
  intros Hall. apply Forall_insert; [done|].
  pose proof (Forall_lookup_1 _ _ _ _ Hall Ha) as Hn.
  unfold sentinel_key in *. by destruct (Hf n) as (-> & -> & ->).
Qed.

Lemma link_after_heap (h : heap) t n h' :
  link_after h t n = Ok h' →
  length h' = length h ∧ (Forall sentinel_key h → Forall sentinel_key h').
Proof.
  unfold link_after. intros H.
  apply bind_Ok in H as (nt & _ & H).
  apply bind_Ok in H as (h1 & H1 & H). apply store_keeps in H1 as [L1 F1]; [|done].
  apply bind_Ok in H as (h2 & H2 & H). apply store_keeps in H2 as [L2 F2]; [|done].
  apply bind_Ok in H as (nt' & _ & H).
  apply bind_Ok in H as (h3 & H3 & H). apply store_keeps in H3 as [L3 F3]; [|done].
  apply store_keeps in H as [L4 F4]; [|done].
  split; [congruence|auto].
Qed.

Lemma add_layer_heap s s' :
  add_layer s = Ok s' →
  length (mem s') = S (S (length (mem s)))
  ∧ num_layers s' = num_layers s + 1 ∧ num_keys s' = num_keys s
  ∧ (Forall sentinel_key (mem s) → Forall sentinel_key (mem s')).
Proof.
  unfold add_layer, new.
  replace (length (mem s ++ [node_default])) with (S (length (mem s)))
    by (rewrite length_app; simpl; lia).
  do 6 (erewrite store_Some by (heap_lookup; reflexivity); cbn [bind]).
  intros H.
  apply bind_Ok in H as (h1 & H1 & H). apply store_keeps in H1 as [L1 F1]; [|done].
  apply bind_Ok in H as (h2 & H2 & H). apply store_keeps in H2 as [L2 F2]; [|done].
  injection H as <-. simpl. split_and!; [|done|done|].
  - rewrite L2, L1, !length_insert, !length_app. simpl. lia.
  - intros Hall. apply F2, F1. repeat apply Forall_insert.
    + repeat (apply Forall_app; split); [done|..]; repeat constructor;
        by intros [|].
    + by intros _.
    + by intros _.
    + by intros _.
    + by intros _.
    + by intros _.
    + by intros _.
Qed.

(** The promotion loop allocates one node for each promotion and two for
    each layer it adds. *)
Lemma promote_heap k v max_flips fuel :
  ∀ s height temp new_node s' height',
  promote fuel s k v max_flips height temp new_node = Ok (s', height') →
  (length (mem s') + 2 * N.to_nat (num_layers s) + N.to_nat height
     = length (mem s) + 2 * N.to_nat (num_layers s') + N.to_nat height')%nat
  ∧ num_keys s' = num_keys s
  ∧ (Forall sentinel_key (mem s) → Forall sentinel_key (mem s')).
Proof.
  induction fuel as [|fuel IH]; intros s height temp new_node s' height';
    [done|]. cbn [promote].
  destruct (flipCoin k height && (height + 1 <? max_flips)); last first.
  { intros [= <- <-]. by split_and!. }
  intros H.
  apply bind_Ok in H as (s1 & Hs1 & H).
  apply bind_Ok in H as (temp1 & _ & H).
  apply bind_Ok in H as (t & _ & H). unfold new in H.
  apply bind_Ok in H as (h1 & H1 & H). apply link_after_heap in H1 as [L1 F1].
  apply bind_Ok in H as (h2 & H2 & H). apply store_keeps in H2 as [L2 F2]; [|done].
  apply bind_Ok in H as (h3 & H3 & H). apply store_keeps in H3 as [L3 F3]; [|done].
  apply IH in H as (Hlen & HK & HF). simpl in Hlen, HK, HF.
  rewrite length_app in L1. simpl in L1.
  assert (Forall sentinel_key (mem s1) → Forall sentinel_key h3) as F.
  { intros Hall. apply F3, F2, F1, Forall_app. split; [done|].
    repeat constructor. by intros [|]. }
  destruct (num_layers s <=? height + 1 + 1).
  - apply add_layer_heap in Hs1 as (La & HLa & HKa & Fa).
    split_and!; [lia|congruence|auto].
  - injection Hs1 as <-. split_and!; [lia|done|auto].
Qed.

(** A successful [insert] allocates one node for the key, one for each
    promotion, and two for each layer it adds. *)
Lemma insert_flips_heap s k v s' f :
  insert_flips s k v = Ok (true, s', f) →
  (length (mem s') + 2 * N.to_nat (num_layers s)
     = length (mem s) + 2 * N.to_nat (num_layers s') + S (N.to_nat f))%nat
  ∧ (Forall sentinel_key (mem s) → Forall sentinel_key (mem s')).
Proof.
  unfold insert_flips. intros H.
  apply bind_Ok in H as (temp & _ & H). apply bind_Ok in H as (t & _ & H).
  destruct (negb (n_inf t) && key_eq (key t) k); [done|]. unfold new in H.
  apply bind_Ok in H as (h1 & H1 & H). apply link_after_heap in H1 as [L1 F1].
  apply bind_Ok in H as ([s1 f1] & Hp & H). simpl in H. injection H as <- <-.
  apply promote_heap in Hp as (Hlen & _ & HF). simpl in Hlen, HF.
  rewrite length_app in L1. simpl in L1. split; [lia|].
  intros Hall. apply HF, F1, Forall_app. split; [done|].
  repeat constructor. by intros [|].
Qed.

Lemma max_flips_of_mono n m : n ≤ m → max_flips_of n ≤ max_flips_of m.
Proof.
  intros Hnm. pose proof (max_flips_of_ge m) as Hm. unfold max_flips_of in *.
  destruct (n <=? 16) eqn:En; [done|]. destruct (m <=? 16) eqn:Em.
  { apply N.leb_gt in En. apply N.leb_le in Em. lia. }
  pose proof (N.log2_up_le_mono n m Hnm). lia.
Qed.

Lemma real_in_shape hs (mid : list column) ts col k :
  col ∈ Col NegInf hs :: mid ++ [Col PosInf ts] → ckind col = Real k →
  col ∈ mid.
Proof.
  intros [->|[Hin|Hin]%elem_of_app]%elem_of_cons Hk; [done|done|].
  apply elem_of_cons in Hin as [->|Hin]; [done|]. by apply elem_of_nil in Hin.
Qed.

Lemma mid_in_shape hs (mid : list column) ts col :
  col ∈ mid → col ∈ Col NegInf hs :: mid ++ [Col PosInf ts].
Proof. intros Hin. right. apply elem_of_app. by left. Qed.

(** What holds of a reachable list besides [Rep]: every node of the heap
    belongs to a column; the sentinels hold [Key()]; the tallest key
    reaches the layer below the top one; and no key is taller than the
    cutoff of [insert] at the present number of keys. *)
Record Inv (s : SkipList) (cols : list column) : Prop := {
  inv_rep : Rep s cols;
  inv_tight : length (mem s) = length (all_addrs cols);
  inv_sentinels : Forall sentinel_key (mem s);
  inv_top : num_layers s = 2
    ∨ ∃ col k, col ∈ cols ∧ ckind col = Real k
        ∧ num_layers s = N.of_nat (S (length (caddrs col)));
  inv_heights : ∀ col k, col ∈ cols → ckind col = Real k →
    N.of_nat (length (caddrs col)) ≤ max_flips_of (num_keys s);
}.

Lemma ctor_Inv :
  ∃ s0, SkipList_ctor = Ok s0
    ∧ Inv s0 [Col NegInf [2; 0]%nat; Col PosInf [3; 1]%nat].
Proof.
  destruct ctor_Rep as (s0 & Hs0 & HR & HK & HL). exists s0. split; [done|].
  pose proof Hs0 as E. vm_compute in E. injection E as E.
  split; try done.
  - by rewrite <-E.
  - rewrite <-E. simpl. repeat constructor; by intros _.
  - by left.
  - intros col k [->|[->|Hin]%elem_of_cons]%elem_of_cons; [done|done|].
    by apply elem_of_nil in Hin.
Qed.

Lemma insert_new_Inv s cols k v s' f :
  Inv s cols → insert_flips s k v = Ok (true, s', f) → ∃ cols', Inv s' cols'.
Proof.
  intros [HR HT HS Htop Hh] Hins.
  destruct (insert_new_shape _ _ _ _ _ _ HR Hins)
    as (hs & m1 & m2 & ts & hs' & as' & ts' & E & HR' & Hk & Hf & Hlen & HL & HK
        & Hhs & Hts & Hhs' & Hts' & _).
  destruct (insert_flips_heap _ _ _ _ _ Hins) as [Hheap HS'].
  eexists. split; [done|..].
  - rewrite E, all_addrs_cons, !all_addrs_app, all_addrs_cons, !length_app in HT.
    rewrite all_addrs_cons, !all_addrs_app, !all_addrs_cons, !length_app.
    simpl in *. lia.
  - auto.
  - destruct (N.max_spec (num_layers s) (f + 2)) as [[Hlt Hmax]|[Hge Hmax]].
    + right. exists (Col (Real k) as'), k. split_and!; [|done|simpl; lia].
      apply mid_in_shape, elem_of_app. right. by left.
    + destruct Htop as [Htop|(col & k' & Hin & Hck & Htop)]; [left; lia|].
      right. exists col, k'. split_and!; [|done|lia].
      rewrite E in Hin. apply (real_in_shape _ _ _ _ k') in Hin; [|done].
      apply mid_in_shape. apply elem_of_app in Hin as [?|?]; apply elem_of_app;
        [by left|right; by right].
  - intros col k' Hin Hck. apply (real_in_shape _ _ _ _ k') in Hin; [|done].
    rewrite HK.
    apply elem_of_app in Hin as [Hin|[->|Hin]%elem_of_cons].
    + etrans; [|apply (max_flips_of_mono (num_keys s)); lia].
      apply (Hh col k'); [|done]. rewrite E. apply mid_in_shape, elem_of_app. by left.
    + simpl. pose proof (flips_of_lt k (num_keys s + 1)). lia.
    + etrans; [|apply (max_flips_of_mono (num_keys s)); lia].
      apply (Hh col k'); [|done]. rewrite E. apply mid_in_shape, elem_of_app. by right.
Qed.

Lemma step_Inv s s' cols : Inv s cols → step s s' → ∃ cols', Inv s' cols'.
Proof.
  intros HI Hstep. pose proof (inv_rep _ _ HI) as HR.
  inversion Hstep as [s0 k v b s1 Hins|s0 k r w s1 Hf Has]; subst s0 s1.
  - apply insert_inv in Hins as [f Hins]. destruct b.
    + by eapply insert_new_Inv.
    + destruct (decide (k ∈ keys_of cols)) as [Hk|Hk].
      * rewrite (insert_present _ cols k v HR Hk) in Hins.
        injection Hins as <- _. eauto.
      * destruct (insert_absent _ cols k v HR Hk) as (? & ? & ? & ? & ? & E & _).
        congruence.
  - destruct (assign_spec _ cols k r w HR Hf) as (s2 & E & HR' & HL & HK & _).
    assert (s2 = s') as -> by congruence. exists cols.
    unfold assign in Has. apply bind_Ok in Has as (h' & Hst & Has).
    injection Has as Es. apply store_keeps in Hst as [Hlen HS]; [|done].
    destruct HI as [_ HT HSe Htop Hh]. rewrite <-Es in *. simpl in *.
    split; simpl; try done.
    + congruence.
    + auto.
Qed.

Lemma reachable_Inv s : reachable s → ∃ cols, Inv s cols.
Proof.
  induction 1 as [s Hs|s s' _ [cols HI] Hstep].
  - destruct ctor_Inv as (s0 & Hs0 & HI). eexists.
    assert (s = s0) as -> by congruence. done.
  - by eapply step_Inv.
Qed.

(** ** Layers and heights *)

(** X7: on every reachable list the top layer is the only one without a
    key: [numLayers()] is 2 when the list is empty, and otherwise one more
    than the height of its tallest key. *)
Theorem layers_one_above_tallest s ks :
  reachable s → allKeysInOrder s = Ok ks →
  (∀ k, k ∈ ks → ∃ h, height s k = Ok h ∧ h + 1 ≤ numLayers s)
  ∧ (ks = [] → numLayers s = 2)
  ∧ (ks ≠ [] → ∃ k, k ∈ ks ∧ height s k = Ok (numLayers s - 1)).
Proof.
  intros [cols [HR _ _ Htop _]]%reachable_Inv Hks.
  rewrite (allKeysInOrder_spec _ _ HR) in Hks. injection Hks as <-.
  assert (∀ k, k ∈ keys_of cols →
    ∃ h, height s k = Ok h ∧ 1 ≤ h ∧ h + 1 ≤ numLayers s) as Hall.
  { intros k (col & Hin & Hck)%elem_of_keys_of.
    rewrite (height_present s cols col k HR Hin Hck). eexists. split; [done|].
    pose proof (rep_heights _ _ HR) as Hh. rewrite Forall_forall in Hh.
    specialize (Hh col Hin). unfold height_ok in Hh. rewrite Hck in Hh.
    unfold numLayers. lia. }
  split_and!.
  - intros k Hk. destruct (Hall k Hk) as (h & ? & ? & ?). eauto.
  - intros Hnil. destruct Htop as [?|(col & k & Hin & Hck & _)]; [done|].
    assert (k ∈ keys_of cols) as Hk by (apply elem_of_keys_of; eauto).
    rewrite Hnil in Hk. by apply elem_of_nil in Hk.
  - intros Hne. destruct Htop as [Htop|(col & k & Hin & Hck & Htop)].
    + destruct (keys_of cols) as [|k ks] eqn:E; [done|]. exists k.
      split; [by left|]. destruct (Hall k) as (h & Hh & ? & ?); [by left|].
      rewrite Hh. f_equal. unfold numLayers in *. lia.
    + exists k. split; [apply elem_of_keys_of; eauto|].
      rewrite (height_present s cols col k HR Hin Hck). f_equal.
      unfold numLayers. lia.
Qed.

(** X8: on every reachable list no key is taller than the cutoff that
    [insert] computes from the present number of keys, and [numLayers()]
    is at most one more: at most 13 layers up to 16 keys, and at most
    [3 * ceil(log2(size())) + 1] beyond. *)
Theorem layers_bounded_by_cutoff s :
  reachable s →
  numLayers s ≤ max_flips_of (size s) + 1
  ∧ (size s ≤ 16 → numLayers s ≤ 13)
  ∧ (16 < size s → numLayers s ≤ 3 * N.log2_up (size s) + 1)
  ∧ ∀ k h, height s k = Ok h → h ≤ max_flips_of (size s).
Proof.
  intros [cols [HR _ _ Htop Hh]]%reachable_Inv. unfold numLayers, size.
  assert (num_layers s ≤ max_flips_of (num_keys s) + 1) as Hle.
  { pose proof (max_flips_of_ge (num_keys s)).
    destruct Htop as [?|(col & k & Hin & Hck & Htop)]; [lia|].
    specialize (Hh col k Hin Hck). lia. }
  split_and!; [done|..].
  - intros Hn%N.leb_le. unfold max_flips_of in Hle. rewrite Hn in Hle. lia.
  - intros Hn%N.leb_gt. unfold max_flips_of in Hle. rewrite Hn in Hle. lia.
  - intros k h Hk. destruct (decide (k ∈ keys_of cols)) as [Hin|Hin]; last first.
    { by rewrite (height_absent s cols k) in Hk. }
    apply elem_of_keys_of in Hin as (col & Hin & Hck).
    rewrite (height_present s cols col k HR Hin Hck) in Hk. injection Hk as <-.
    by eapply Hh.
Qed.

(** ** The first and the last key *)

Lemma to_last_exact s cols fuel cpre c cpost a :
  Rep s cols → cols = cpre ++ c :: cpost → ckind c ≠ PosInf →
  base c = Some a → (length cpost ≤ fuel)%nat →
  ∃ X cl ts, cols = X ++ [cl; Col PosInf ts] ∧ ckind cl ≠ PosInf
    ∧ to_last fuel (mem s) (Some a) = Ok (base cl).
Proof.
  intros HR. revert fuel cpre c a.
  induction cpost as [|c' cpost IH]; intros fuel cpre c a Hcols Hc Ha Hfuel.
  { destruct (Rep_last _ _ HR) as (rest & ts & E). rewrite E in Hcols.
    apply app_inj_tail in Hcols as [_ E']. subst c. by destruct Hc. }
  destruct fuel as [|fuel]; [simpl in Hfuel; lia|].
  destruct (Rep_base _ _ _ _ _ HR Hcols) as (a' & n & Ha' & Hn & _ & Hnx & _).
  assert (a' = a) as -> by congruence. simpl in Hnx.
  pose proof Hcols as Hcols'. rewrite (cons_middle c), app_assoc in Hcols'.
  destruct (Rep_base _ _ _ _ _ HR Hcols') as (b & nb & Hb & Hnb & Htb & _).
  pose proof (Rep_lt _ _ _ _ _ _ HR Hcols) as Hlt.
  simpl. rewrite (deref_Some _ _ _ Hn). simpl.
  rewrite Hnx, Hb, (deref_Some _ _ _ Hnb). simpl.
  destruct (ckind c') as [|k'|] eqn:Hk'.
  - by destruct (ckind c).
  - destruct Htb as (_ & -> & _). simpl.
    apply (IH fuel (cpre ++ [c]) c' b); [done|by rewrite Hk'|done|simpl in Hfuel; lia].
  - destruct Htb as (_ & ->). simpl.
    pose proof (Rep_after_PosInf _ _ _ _ _ HR Hcols' Hk') as ->.
    destruct c' as [? ts]. simpl in Hk'. subst.
    exists cpre, c, ts. by rewrite Ha.
Qed.

Lemma sentinel_default s cols col a n :
  Inv s cols → col ∈ cols → (∀ k, ckind col ≠ Real k) →
  caddrs col !! 0%nat = Some a → mem s !! a = Some n → key n = default_ctor.
Proof.
  intros [HR _ HS _ _] Hin Hk Ha Hn.
  destruct (Rep_tagged _ _ _ _ _ HR Hin Ha) as (n' & Hn' & Ht).
  assert (n' = n) as -> by congruence.
  apply (Forall_lookup_1 _ _ _ _ HS Hn).
  destruct (ckind col) as [|k|]; simpl in Ht.
  - left. by destruct Ht.
  - by destruct (Hk k).
  - right. by destruct Ht.
Qed.

Lemma if_bool (b : bool) : (if b then Ok true else Ok false) = Ok b :> result bool.
Proof. by destruct b. Qed.

(** X9: on every reachable list, [isSmallestKey(k)] compares [k] with the
    first key of [allKeysInOrder()] and [isLargestKey(k)] with the last
    one; on an empty list both compare [k] with [Key()], the key of the
    sentinels.  For a key that is present, each returns true exactly when
    the key is the smallest, respectively the largest. *)
Theorem smallest_largest_result s ks k :
  reachable s → allKeysInOrder s = Ok ks →
  isSmallestKey s k = Ok (key_eq (default default_ctor (hd_error ks)) k)
  ∧ isLargestKey s k = Ok (key_eq (default default_ctor (last ks)) k)
  ∧ (k ∈ ks →
       (isSmallestKey s k = Ok true ↔ is_smallest ks k)
       ∧ (isLargestKey s k = Ok true ↔ is_largest ks k)).
Proof.
  intros [cols HI]%reachable_Inv Hks. pose proof (inv_rep _ _ HI) as HR.
  rewrite (allKeysInOrder_spec _ _ HR) in Hks. injection Hks as <-.
  pose proof (keys_sorted _ (rep_sorted _ _ HR)) as Hsorted.
  destruct (to_bottom_head _ _ HR) as (hs & rest & a & Hcols & Ha & Hbot).
  destruct (Rep_base _ _ [] _ _ HR Hcols) as (a' & n & Ha' & Hn & _ & Hnx & _).
  unfold base in Ha'. simpl in Ha'. assert (a' = a) as -> by congruence.
  destruct rest as [|c1 rest].
  { destruct (Rep_last _ _ HR) as (r & ts & E). rewrite Hcols in E.
    destruct r as [|? [|??]]; simplify_eq/=. }
  destruct (Rep_base _ _ [Col NegInf hs] c1 rest HR Hcols)
    as (b & nb & Hb & Hnb & Htb & _).
  simpl in Hnx.
  assert (isSmallestKey s k = Ok (key_eq (default default_ctor (hd_error (keys_of cols))) k))
    as Hsm.
  { unfold isSmallestKey. rewrite Hbot. cbn [bind].
    rewrite (deref_Some _ _ _ Hn). cbn [bind]. rewrite Hnx, Hb.
    rewrite (deref_Some _ _ _ Hnb). cbn [bind]. rewrite if_bool. do 2 f_equal.
    rewrite Hcols, !keys_of_cons. simpl.
    destruct (ckind c1) as [|k1|] eqn:Hk1.
    - pose proof (Rep_lt _ _ [] _ _ _ HR Hcols) as Hlt. simpl in Hlt.
      by rewrite Hk1 in Hlt.
    - simpl. by destruct Htb as (_ & _ & ->).
    - assert (rest = []) as ->.
      { by apply (Rep_after_PosInf s cols [Col NegInf hs] c1 rest HR). }
      simpl. apply (sentinel_default s cols c1 b nb HI); try done.
      + rewrite Hcols. right. by left.
      + intros k'. by rewrite Hk1. }
  destruct (to_last_exact s cols (length (mem s)) [] (Col NegInf hs) (c1 :: rest) a HR)
    as (X & cl & ts & Hcols2 & Hcl & Hlast); try done.
  { pose proof (Rep_row _ _ 0 HR) as Hrow. apply row_length in Hrow.
    rewrite (cells0_length cols) in Hrow by (by eapply Rep_nonempty).
    rewrite Hcols in Hrow. simpl in *. lia. }
  destruct (Rep_base _ _ X cl [Col PosInf ts] HR Hcols2)
    as (l & nl & Hl & Hnl & Htl & _).
  assert (isLargestKey s k = Ok (key_eq (default default_ctor (last (keys_of cols))) k))
    as Hlg.
  { unfold isLargestKey. rewrite Hbot. cbn [bind]. rewrite Hlast, Hl. cbn [bind].
    rewrite (deref_Some _ _ _ Hnl). cbn [bind]. rewrite if_bool. do 2 f_equal.
    rewrite Hcols2, keys_of_app, !keys_of_cons. simpl.
    destruct (ckind cl) as [|kl|] eqn:Hkl; [|..|done].
    - assert (X = []) as ->.
      { by apply (Rep_before_NegInf s cols X cl [Col PosInf ts] HR). }
      simpl. apply (sentinel_default s cols cl l nl HI); try done.
      + rewrite Hcols2. by left.
      + intros k'. by rewrite Hkl.
    - rewrite last_snoc. simpl. by destruct Htl as (_ & _ & ->). }
  split_and!; [done|done|]. intros Hk. rewrite Hsm, Hlg. split.
  - destruct (keys_of cols) as [|k1 ks] eqn:Eks; [by apply elem_of_nil in Hk|].
    simpl. apply StronglySorted_cons in Hsorted as [Hlo _].
    rewrite Forall_forall in Hlo. split.
    + intros [= ->%key_eq_spec]. split; [by left|].
      intros x [->|Hx]%elem_of_cons; [apply key_ge_refl|].
      by apply key_lt_ge, Hlo.
    + intros [_ Hmin]. f_equal. apply key_eq_spec.
      apply elem_of_cons in Hk as [->|Hk]; [done|].
      apply Hlo in Hk. specialize (Hmin k1 (list_elem_of_here _ _)).
      unfold key_lt in Hk. congruence.
  - destruct (keys_of cols) as [|kl ks _] eqn:Eks using rev_ind;
      [by apply elem_of_nil in Hk|].
    rewrite last_snoc. simpl.
    apply StronglySorted_app in Hsorted as (Hlo & _ & _). split.
    + intros [= ->%key_eq_spec]. split; [apply elem_of_app; right; by left|].
      intros x [Hx|[->|Hx]%elem_of_cons]%elem_of_app.
      * apply key_lt_ge, Hlo; [done|by left].
      * apply key_ge_refl.
      * by apply elem_of_nil in Hx.
    + intros [_ Hmax]. f_equal. apply key_eq_spec.
      apply elem_of_app in Hk as [Hk|[->|Hk]%elem_of_cons]; [|done|].
      * specialize (Hlo k kl Hk (list_elem_of_here _ _)).
        assert (key_ge k kl = true) as Hge.
        { apply Hmax, elem_of_app. right. by left. }
        unfold key_lt in Hlo. congruence.
      * by apply elem_of_nil in Hk.
Qed.

(** ** The nodes of the heap *)

Lemma heights_of_columns s cols (mid : list column) :
  Rep s cols → (∀ col, col ∈ mid → col ∈ cols) →
  Forall (λ c, ∃ k, ckind c = Real k) mid →
  Forall2 (λ k h, height s k = Ok h) (keys_of mid)
    ((λ c, N.of_nat (length (caddrs c))) <$> mid).
Proof.
  intros HR. induction mid as [|c mid IH]; intros Hsub Hreal; [constructor|].
  apply Forall_cons in Hreal as [[k Hk] Hreal].
  rewrite keys_of_cons, Hk, fmap_cons. constructor.
  - apply (height_present s cols c k HR); [|done]. apply Hsub. by left.
  - apply IH; [|done]. intros col Hcol. apply Hsub. by right.
Qed.

Lemma sum_of_columns (mid : list column) :
  foldr N.add 0 ((λ c, N.of_nat (length (caddrs c))) <$> mid)
  = N.of_nat (length (all_addrs mid)).
Proof.
  induction mid as [|c mid IH]; [done|].
  rewrite fmap_cons, all_addrs_cons, length_app. simpl. rewrite IH. lia.
Qed.

(** X10: on every reachable list the heap holds two sentinels for each
    layer and, for each key, as many nodes as its height, and no other
    node: no call allocates a node that it does not link into the list. *)
Theorem node_count s ks :
  reachable s → allKeysInOrder s = Ok ks →
  ∃ hts, Forall2 (λ k h, height s k = Ok h) ks hts
    ∧ N.of_nat (length (mem s)) = 2 * numLayers s + foldr N.add 0 hts.
Proof.
  intros [cols [HR HT _ _ _]]%reachable_Inv Hks.
  rewrite (allKeysInOrder_spec _ _ HR) in Hks. injection Hks as <-.
  destruct (Rep_shape _ _ HR) as (hs & mid & ts & E & Hhs & Hts & _ & _ & _ & Hreal).
  exists ((λ c, N.of_nat (length (caddrs c))) <$> mid). split.
  - replace (keys_of cols) with (keys_of mid).
    + apply (heights_of_columns s cols mid HR); [|done].
      intros col Hcol. rewrite E. by apply mid_in_shape.
    + rewrite E, keys_of_cons, keys_of_app, keys_of_cons. simpl.
      by rewrite app_nil_r.
  - rewrite sum_of_columns, HT, E, all_addrs_cons, all_addrs_app, all_addrs_cons,
      !length_app. simpl. unfold numLayers. lia.
Qed.

(** ** The destructor *)

Lemma elem_of_layer_2 i (cols : list column) col x :
  col ∈ cols → caddrs col !! i = Some x → x ∈ layer i cols.
Proof.
  intros Hin Hx. unfold layer. apply list_elem_of_fmap.
  exists (x, ckind col). split; [done|]. apply elem_of_cells. eauto.
Qed.

Lemma deref_live_Some (h : heap) freed a n :
  h !! a = Some n → a ∉ freed → deref_live h freed (Some a) = Ok n.
Proof.
  intros Ha Hf. unfold deref_live. rewrite bool_decide_eq_false_2 by done.
  by apply deref_Some.
Qed.

Lemma delete_row_spec (h : heap) l :
  ∀ p fuel freed,
  chain next previous h p l → NoDup l → (∀ x, x ∈ l → x ∉ freed) →
  (length l < fuel)%nat →
  delete_row fuel h (hd_error l) freed = Ok (freed ++ l).
Proof.
  induction l as [|a l IH]; intros p fuel freed Hc Hnd Hfr Hfuel.
  { destruct fuel; [simpl in Hfuel; lia|]. simpl. by rewrite app_nil_r. }
  destruct fuel as [|fuel]; [simpl in Hfuel; lia|].
  simpl in Hc. destruct Hc as (n & Hn & _ & Hnx & Hc).
  apply NoDup_cons in Hnd as [Ha Hnd].
  assert (a ∉ freed) as Hfa by (apply Hfr; by left).
  cbn [delete_row hd_error delete].
  rewrite (deref_live_Some h freed a n Hn Hfa). cbn [bind].
  rewrite Hnx, (IH (Some a) fuel (freed ++ [a])); try done.
  - by rewrite <-app_assoc.
  - intros x Hx [Hin|Hin]%elem_of_app.
    + apply (Hfr x); [by right|done].
    + apply elem_of_cons in Hin as [->|Hin]; [done|]. by apply elem_of_nil in Hin.
  - simpl in Hfuel. lia.
Qed.

(** The nodes of the layers below layer [n], from the topmost of them
    down, each layer from left to right. *)
Fixpoint rows_from (n : nat) (cols : list column) : list addr :=
  match n with
  | O => []
  | S i => layer i cols ++ rows_from i cols
  end.

Lemma elem_of_rows_from n (cols : list column) x :
  x ∈ rows_from n cols ↔ ∃ i, (i < n)%nat ∧ x ∈ layer i cols.
Proof.
  induction n as [|n IH]; simpl.
  { rewrite elem_of_nil. split; [done|]. intros (i & ? & _). lia. }
  rewrite elem_of_app, IH. split.
  - intros [?|(i & ? & ?)]; [exists n|exists i]; split; (done || lia).
  - intros (i & Hi & Hx). destruct (decide (i = n)) as [->|?]; [by left|].
    right. exists i. split; [lia|done].
Qed.

Lemma rows_from_NoDup n (cols : list column) :
  NoDup (all_addrs cols) → NoDup (rows_from n cols).
Proof.
  intros Hnd. induction n as [|n IH]; [constructor|]. simpl.
  apply NoDup_app. split_and!; [by apply layer_NoDup| |done].
  intros x Hx (i & Hi & Hxi)%elem_of_rows_from.
  pose proof (layer_disjoint cols n i x Hnd Hx Hxi). lia.
Qed.

Lemma rows_from_all s cols :
  Rep s cols → rows_from (N.to_nat (num_layers s)) cols ≡ₚ all_addrs cols.
Proof.
  intros HR. apply NoDup_Permutation.
  - apply rows_from_NoDup, (rep_nodup _ _ HR).
  - apply (rep_nodup _ _ HR).
  - intros x. rewrite elem_of_rows_from. split.
    + intros (i & _ & Hx). by eapply elem_of_layer.
    + intros (col & Hin & Hx)%elem_of_all_addrs.
      apply list_elem_of_lookup_1 in Hx as [i Hi]. exists i. split.
      * pose proof (Rep_height_le _ _ _ HR Hin). apply lookup_lt_Some in Hi. lia.
      * by eapply elem_of_layer_2.
Qed.

Lemma delete_level s hs rest n a freed :
  Rep s (Col NegInf hs :: rest) → hs !! n = Some a →
  (∀ x, x ∈ layer n (Col NegInf hs :: rest) → x ∉ freed) →
  ∃ n0, deref_live (mem s) freed (Some a) = Ok n0
    ∧ bottom n0 = match n with O => None | S j => hs !! j end
    ∧ delete_row (S (length (mem s))) (mem s) (Some a) freed
        = Ok (freed ++ layer n (Col NegInf hs :: rest)).
Proof.
  intros HR Ha Hfr. set (cols := Col NegInf hs :: rest) in *.
  assert (Col NegInf hs ∈ cols) as Hin by (by left).
  destruct (Rep_column _ _ _ _ _ HR Hin Ha) as (n0 & Hn0 & _ & _ & Hbot).
  assert (layer n cols = a :: layer n rest) as Hlayer.
  { unfold layer, cols. rewrite cells_cons. simpl. by rewrite Ha. }
  assert (a ∉ freed) as Hfa by (apply Hfr; rewrite Hlayer; by left).
  exists n0. split_and!; [by apply deref_live_Some|done|].
  replace (Some a) with (hd_error (layer n cols)) by (by rewrite Hlayer).
  apply (delete_row_spec _ _ None).
  - apply (rep_horiz _ _ HR).
  - apply layer_NoDup, (rep_nodup _ _ HR).
  - done.
  - pose proof (row_length _ _ (Rep_row _ _ n HR)) as Hlen.
    unfold layer. rewrite length_fmap. lia.
Qed.

Lemma delete_rows_spec s hs rest :
  Rep s (Col NegInf hs :: rest) →
  ∀ n fuel freed a,
  hs !! n = Some a → (S n < fuel)%nat →
  (∀ x i, (i ≤ n)%nat → x ∈ layer i (Col NegInf hs :: rest) → x ∉ freed) →
  delete_rows fuel (mem s) (Some a) freed
    = Ok (None, freed ++ rows_from (S n) (Col NegInf hs :: rest)).
Proof.
  intros HR. induction n as [|n IH]; intros fuel freed a Ha Hfuel Hfr.
  all: destruct fuel as [|fuel]; [lia|].
  all: destruct (delete_level s hs rest _ a freed HR Ha)
         as (n0 & Hn0 & Hbot & Hrow); [intros x; by apply Hfr|].
  all: cbn [delete_rows]; rewrite Hn0; cbn [bind]; rewrite Hrow; cbn [bind];
         rewrite Hbot.
  - destruct fuel as [|fuel]; [lia|]. simpl. by rewrite app_nil_r.
  - destruct (lookup_lt_is_Some_2 hs n) as [a' Ha'].
    { apply lookup_lt_Some in Ha. lia. }
    rewrite Ha', (IH fuel _ a' Ha'); [|lia|].
    + simpl. by rewrite <-!app_assoc.
    + intros x i Hi Hx [Hf|Hl]%elem_of_app.
      * apply (Hfr x i); [lia|done|done].
      * pose proof (layer_disjoint _ _ _ x (rep_nodup _ _ HR) Hx Hl). lia.
Qed.

Lemma all_addrs_seq s cols : Inv s cols → all_addrs cols ≡ₚ seq 0 (length (mem s)).
Proof.
  intros [HR HT _ _ _]. apply submseteq_length_Permutation.
  - apply NoDup_submseteq; [apply (rep_nodup _ _ HR)|].
    intros x Hx. apply elem_of_seq. pose proof (Rep_alloc _ _ _ HR Hx). lia.
  - rewrite length_seq. lia.
Qed.

(** X11: on every reachable list the destructor terminates with [head]
    null, having deleted every node of the heap exactly once; it reads no
    node after deleting it. *)
Theorem dtor_deletes_every_node_once s :
  reachable s →
  ∃ freed, SkipList_dtor s = Ok (None, freed)
    ∧ freed ≡ₚ seq 0 (length (mem s)).
Proof.
  intros [cols HI]%reachable_Inv. pose proof (inv_rep _ _ HI) as HR.
  destruct (Rep_shape _ _ HR) as (hs & mid & ts & E & Hhs & _ & Hhead & _).
  pose proof (rep_layers _ _ HR) as HL.
  assert (Col NegInf hs ∈ cols) as Hin by (rewrite E; by left).
  pose proof (Rep_column_length _ _ _ HR Hin) as Hlen. simpl in Hlen.
  destruct (lookup_lt_is_Some_2 hs (N.to_nat (num_layers s) - 1)) as [a Ha]; [lia|].
  assert (head s = Some a) as Hhd.
  { rewrite Hhead, last_lookup, <-Ha. f_equal. lia. }
  exists (rows_from (N.to_nat (num_layers s)) cols). split.
  - unfold SkipList_dtor. rewrite Hhd. rewrite E in HR |- *.
    rewrite (delete_rows_spec s hs _ HR _ _ [] a Ha); [|lia|].
    + replace (S (N.to_nat (num_layers s) - 1))
        with (N.to_nat (num_layers s)) by lia. done.
    + intros x i _ _ Hx. by apply elem_of_nil in Hx.
  - rewrite (rows_from_all s cols HR). by apply all_addrs_seq.
Qed.

(** ** print *)

(** The key that a node of kind [c] holds in a reachable list. *)
Definition kind_key (c : kind) : Key :=
  match c with Real k => k | _ => default_ctor end.

Lemma tagged_key c (n : node) :
  tagged c n → sentinel_key n → key n = kind_key c.
Proof.
  unfold sentinel_key. destruct c as [|k|]; simpl.
  - intros [-> _] H. apply H. by left.
  - by intros (_ & _ & ->).
  - intros [_ ->] H. apply H. by right.
Qed.

Lemma print_row_spec (h : heap) :
  Forall sentinel_key h →
  ∀ post pre fuel out,
  row h (pre ++ post) → (length post < fuel)%nat →
  print_row fuel h (hd_error post.*1) out
    = Ok (out ++ (Put ∘ kind_key <$> post.*2)).
Proof.
  intros HS. induction post as [|[a c] post IH]; intros pre fuel out Hrow Hfuel.
  { destruct fuel; [simpl in Hfuel; lia|]. simpl. by rewrite app_nil_r. }
  destruct fuel as [|fuel]; [simpl in Hfuel; lia|].
  destruct (row_node _ _ _ _ _ Hrow) as (n & Hn & Ht & Hnx & _).
  simpl. rewrite (deref_Some _ _ _ Hn). cbn [bind]. rewrite Hnx.
  rewrite (IH (pre ++ [(a, c)])).
  - rewrite (tagged_key c n Ht (Forall_lookup_1 _ _ _ _ HS Hn)).
    by rewrite <-app_assoc.
  - by rewrite <-app_assoc.
  - simpl in Hfuel. lia.
Qed.

(** What [print] writes for layer [i], and for the layers below layer [n]
    from the topmost of them down. *)
Definition row_output (i : nat) (cols : list column) : list (output Key) :=
  (Put ∘ kind_key <$> (cells i cols).*2) ++ [Endl].

Fixpoint rows_output (n : nat) (cols : list column) : list (output Key) :=
  match n with
  | O => []
  | S i => row_output i cols ++ rows_output i cols
  end.

Lemma print_rows_spec s hs rest :
  Inv s (Col NegInf hs :: rest) →
  ∀ n fuel out a,
  hs !! n = Some a → (S n < fuel)%nat →
  print_rows fuel (mem s) (Some a) out
    = Ok (out ++ rows_output (S n) (Col NegInf hs :: rest)).
Proof.
  intros [HR _ HS _ _]. set (cols := Col NegInf hs :: rest) in *.
  assert (Col NegInf hs ∈ cols) as Hin by (by left).
  assert (∀ n a out, hs !! n = Some a →
    ∃ n0, print_row (S (length (mem s))) (mem s) (Some a) out
            = Ok (out ++ (Put ∘ kind_key <$> (cells n cols).*2))
      ∧ deref (mem s) (Some a) = Ok n0
      ∧ bottom n0 = match n with O => None | S j => hs !! j end) as Hlevel.
  { intros n a out Ha.
    destruct (Rep_column _ _ _ _ _ HR Hin Ha) as (n0 & Hn0 & _ & _ & Hbot).
    exists n0. split_and!; [|by apply deref_Some|done].
    assert (cells n cols = (a, NegInf) :: cells n rest) as Hcells.
    { unfold cols. rewrite cells_cons. simpl. by rewrite Ha. }
    replace (Some a) with (hd_error (cells n cols).*1) by (by rewrite Hcells).
    apply (print_row_spec _ HS _ []); [apply (Rep_row _ _ n HR)|].
    pose proof (row_length _ _ (Rep_row _ _ n HR)). lia. }
  induction n as [|n IH]; intros fuel out a Ha Hfuel.
  all: destruct fuel as [|fuel]; [lia|].
  all: destruct (Hlevel _ a out Ha) as (n0 & Hrow & Hn0 & Hbot).
  all: cbn [print_rows]; rewrite Hrow; cbn [bind]; rewrite Hn0; cbn [bind];
         rewrite Hbot.
  - destruct fuel as [|fuel]; [lia|]. simpl. unfold row_output.
    by rewrite app_nil_r, <-app_assoc.
  - destruct (lookup_lt_is_Some_2 hs n) as [a' Ha'].
    { apply lookup_lt_Some in Ha. lia. }
    rewrite Ha', (IH fuel _ a' Ha') by lia.
    cbn [rows_output]. unfold row_output. by rewrite <-!app_assoc.
Qed.

(** What [print] is expected to write for the keys [khs], each with its
    height, in a list of [layers] layers: one line for each layer, from the
    top one down, with [Key()] for each of the two sentinels and between
    them the keys that reach the layer. *)
Fixpoint printed (khs : list (Key * N)) (layers : nat) : list (output Key) :=
  match layers with
  | O => []
  | S i =>
    (Put default_ctor :: (Put <$> (filter (λ kh, N.of_nat i < kh.2) khs).*1)
       ++ [Put default_ctor; Endl]) ++ printed khs i
  end.

Lemma cells_reals i (mid : list column) :
  Forall (λ c, ∃ k, ckind c = Real k) mid →
  Put ∘ kind_key <$> (cells i mid).*2
  = Put <$> (filter (λ kh, N.of_nat i < kh.2)
               (zip (keys_of mid) ((λ c, N.of_nat (length (caddrs c))) <$> mid))).*1.
Proof.
  induction mid as [|c mid IH]; [done|].
  intros [[k Hk] Hreal]%Forall_cons.
  rewrite cells_cons, keys_of_cons, Hk, fmap_cons. cbn [zip zip_with].
  destruct (caddrs c !! i) as [a|] eqn:E.
  - apply lookup_lt_Some in E. rewrite filter_cons_True by (simpl; lia).
    simpl. f_equal. by apply IH.
  - apply lookup_ge_None in E. rewrite filter_cons_False by (simpl; lia).
    by apply IH.
Qed.

Lemma rows_output_printed hs (mid : list column) ts n :
  Forall (λ c, ∃ k, ckind c = Real k) mid →
  (n ≤ length hs)%nat → (n ≤ length ts)%nat →
  rows_output n (Col NegInf hs :: mid ++ [Col PosInf ts])
  = printed (zip (keys_of mid) ((λ c, N.of_nat (length (caddrs c))) <$> mid)) n.
Proof.
  intros Hreal. induction n as [|n IH]; intros Hhs Hts; [done|].
  cbn [rows_output printed]. rewrite IH by lia. f_equal.
  destruct (lookup_lt_is_Some_2 hs n) as [a Ha]; [lia|].
  destruct (lookup_lt_is_Some_2 ts n) as [b Hb]; [lia|].
  unfold row_output. rewrite cells_cons, cells_app, cells_cons. simpl.
  rewrite Ha, Hb. simpl. rewrite !fmap_app, <-app_assoc. simpl.
  by rewrite <-(cells_reals n mid Hreal).
Qed.

(** X12: on every reachable list, [print()] writes one line for each
    layer, from the top one down; each line holds [Key()] for the left
    sentinel, then in ascending order the keys whose height reaches the
    layer, then [Key()] for the right sentinel. *)
Theorem print_layers s ks :
  reachable s → allKeysInOrder s = Ok ks →
  ∃ hts, Forall2 (λ k h, height s k = Ok h) ks hts
    ∧ print s = Ok (printed (zip ks hts) (N.to_nat (numLayers s))).
Proof.
  intros [cols HI]%reachable_Inv Hks. pose proof (inv_rep _ _ HI) as HR.
  rewrite (allKeysInOrder_spec _ _ HR) in Hks. injection Hks as <-.
  destruct (Rep_shape _ _ HR)
    as (hs & mid & ts & E & Hhs & Hts & Hhead & _ & _ & Hreal).
  pose proof (rep_layers _ _ HR) as HL.
  assert (keys_of cols = keys_of mid) as Eks.
  { rewrite E, keys_of_cons, keys_of_app, keys_of_cons. simpl.
    by rewrite app_nil_r. }
  exists ((λ c, N.of_nat (length (caddrs c))) <$> mid). split.
  - rewrite Eks. apply (heights_of_columns s cols mid HR); [|done].
    intros col Hcol. rewrite E. by apply mid_in_shape.
  - assert (Col NegInf hs ∈ cols) as Hin by (rewrite E; by left).
    pose proof (Rep_column_length _ _ _ HR Hin) as Hlen. simpl in Hlen.
    destruct (lookup_lt_is_Some_2 hs (N.to_nat (num_layers s) - 1)) as [a Ha]; [lia|].
    assert (head s = Some a) as Hhd.
    { rewrite Hhead, last_lookup, <-Ha. f_equal. lia. }
    unfold print. rewrite Hhd, Eks. rewrite E in HI.
    rewrite (print_rows_spec s hs _ HI _ _ [] a Ha) by lia.
    replace (S (N.to_nat (num_layers s) - 1)) with (N.to_nat (num_layers s)) by lia.
    rewrite app_nil_l, rows_output_printed; [done|done|lia|lia].
Qed.

(** ** A list as a map from keys to values *)

Lemma insert_new_find s cols k v s' f :
  Rep s cols → insert_flips s k v = Ok (true, s', f) →
  find s' k = Ok v ∧ ∀ k', k' ≠ k → find s' k' = find s k'.
Proof.
  intros HR Hins.
  destruct (insert_new_Rep _ _ _ _ _ _ HR Hins)
    as (Hk & _ & cols' & as' & a & n & HR' & Hperm & Hkeep & Hin & _ & _ & _
        & HD & Ha & Hn & Hv).
  split.
  - rewrite (find_present s' cols' _ k a n HR' Hin); [congruence|done..].
  - intros k' Hne. destruct (decide (k' ∈ keys_of cols)) as [Hk'|Hk'].
    + destruct (present_find _ _ _ HR Hk')
        as (col & a' & n' & Hin' & Hck & Ha' & Hn' & Hf').
      destruct (HD _ _ Hn') as (n'' & Hn'' & _ & Hv' & _).
      rewrite Hf', (find_present s' cols' col k' a' n''); try done; [congruence|].
      by eapply Hkeep.
    + rewrite (find_absent s cols k') by done.
      apply (find_absent s' cols'); [done|]. rewrite Hperm.
      by intros [->|?]%elem_of_cons.
Qed.

(** The value that the first pair with the key [k] in [kvs] gives to [k]. *)
Fixpoint first_value (kvs : list (Key * Value)) (k : Key) : option Value :=
  match kvs with
  | [] => None
  | kv :: kvs => if key_eq kv.1 k then Some kv.2 else first_value kvs k
  end.

(** For each pair of [kvs], whether its key is none of the keys [seen]
    before it. *)
Fixpoint first_times (seen : list Key) (kvs : list (Key * Value)) : list bool :=
  match kvs with
  | [] => []
  | kv :: kvs =>
    negb (existsb (key_eq kv.1) seen) :: first_times (kv.1 :: seen) kvs
  end.

Lemma existsb_key_eq k (seen : list Key) :
  existsb (key_eq k) seen = true ↔ k ∈ seen.
Proof.
  induction seen as [|x seen IH]; simpl.
  { rewrite elem_of_nil. split; done. }
  rewrite orb_true_iff, IH, elem_of_cons, key_eq_spec. done.
Qed.

Lemma first_times_seen (seen seen' : list Key) kvs :
  (∀ k, k ∈ seen ↔ k ∈ seen') → first_times seen kvs = first_times seen' kvs.
Proof.
  revert seen seen'. induction kvs as [|[k v] kvs IH]; intros seen seen' H; [done|].
  simpl. f_equal.
  - f_equal. apply eq_true_iff_eq. by rewrite !existsb_key_eq.
  - apply IH. intros x. rewrite !elem_of_cons. by rewrite H.
Qed.

Lemma insert_all_map kvs :
  ∀ s cols, Rep s cols →
  ∃ s' cols', insert_all s kvs = Ok (first_times (keys_of cols) kvs, s')
    ∧ Rep s' cols'
    ∧ (∀ k, k ∈ keys_of cols' ↔ k ∈ keys_of cols ∨ k ∈ kvs.*1)
    ∧ (∀ k, k ∈ keys_of cols → find s' k = find s k)
    ∧ (∀ k, k ∉ keys_of cols →
         find s' k = match first_value kvs k with
                     | Some v => Ok v
                     | None => KeyNotFound
                     end).
Proof.
  induction kvs as [|[k0 v0] kvs IH]; intros s cols HR.
  { exists s, cols. split_and!; try done.
    - intros k. rewrite fmap_nil, elem_of_nil. tauto.
    - intros k Hk. by apply find_absent with cols. }
  cbn [insert_all first_times first_value fst snd].
  destruct (decide (k0 ∈ keys_of cols)) as [Hk0|Hk0].
  - rewrite (insert_flips_insert _ _ _ _ _ _ (insert_present s cols k0 v0 HR Hk0)).
    cbn [bind fst snd].
    destruct (IH s cols HR) as (s' & cols' & Hall & HR' & Hkeys & Hold & Hnew).
    exists s', cols'.
    rewrite (first_times_seen (k0 :: keys_of cols) (keys_of cols)), Hall.
    2: { intros y. rewrite elem_of_cons. split; [by intros [->|?]|by right]. }
    rewrite (proj2 (existsb_key_eq k0 (keys_of cols)) Hk0).
    split_and!; try done.
    + intros k. rewrite Hkeys, fmap_cons, elem_of_cons. simpl.
      split; [tauto|]. intros [?|[->|?]]; [by left|by left|by right].
    + intros k Hk. rewrite (Hnew k Hk).
      destruct (key_eq k0 k) eqn:E; [|done]. apply key_eq_spec in E. by subst.
  - destruct (insert_absent s cols k0 v0 HR Hk0) as (s1 & ? & ? & ? & ? & Hins & _).
    destruct (insert_new_find _ _ _ _ _ _ HR Hins) as [Hf0 Hfr].
    destruct (insert_new_Rep _ _ _ _ _ _ HR Hins)
      as (_ & _ & cols1 & as' & a & n & HR1 & Hperm & _).
    rewrite (insert_flips_insert _ _ _ _ _ _ Hins). cbn [bind fst snd].
    destruct (IH s1 cols1 HR1) as (s' & cols' & Hall & HR' & Hkeys & Hold & Hnew).
    exists s', cols'.
    rewrite (first_times_seen (k0 :: keys_of cols) (keys_of cols1)), Hall.
    2: { intros y. by rewrite Hperm. }
    assert (existsb (key_eq k0) (keys_of cols) = false) as ->.
    { apply not_true_is_false. by rewrite existsb_key_eq. }
    split_and!; try done.
    + intros k. rewrite Hkeys, Hperm, fmap_cons, !elem_of_cons. simpl. tauto.
    + intros k Hk. rewrite Hold.
      * apply Hfr. by intros ->.
      * rewrite Hperm. by right.
    + intros k Hk. destruct (key_eq k0 k) eqn:E.
      * apply key_eq_spec in E as <-. rewrite Hold; [done|].
        rewrite Hperm. by left.
      * apply key_eq_false in E. apply Hnew. rewrite Hperm.
        by intros [->|?]%elem_of_cons.
Qed.

(** X13: a new list filled by a sequence of calls of [insert], in which
    keys may repeat, is the map that gives each key the value of its first
    pair: a call returns true exactly when its key occurs for the first
    time, [allKeysInOrder()] then holds exactly the keys of the sequence,
    and [find(k)] returns the first value given for [k], and throws for a
    key that the sequence does not have. *)
Theorem insert_all_first_wins kvs :
  ∃ s0 s ks, SkipList_ctor = Ok s0
    ∧ insert_all s0 kvs = Ok (first_times [] kvs, s)
    ∧ allKeysInOrder s = Ok ks
    ∧ (∀ k, k ∈ ks ↔ k ∈ kvs.*1)
    ∧ ∀ k, find s k = match first_value kvs k with
                      | Some v => Ok v
                      | None => KeyNotFound
                      end.
Proof.
  destruct ctor_Rep as (s0 & Hs0 & HR0 & _).
  destruct (insert_all_map kvs s0 _ HR0) as (s & cols & Hall & HR & Hkeys & _ & Hnew).
  exists s0, s, (keys_of cols). split_and!; try done.
  - by apply allKeysInOrder_spec.
  - intros k. rewrite Hkeys. simpl. rewrite elem_of_nil. tauto.
  - intros k. apply Hnew. simpl. apply not_elem_of_nil.
Qed.

(** ** The new list *)

(** X14: the list that the constructor builds has no key, [size()] 0 and
    two layers; [find], [height], [nextKey] and [previousKey] throw for
    every key. *)
Theorem new_list_is_empty :
  ∃ s, SkipList_ctor = Ok s
    ∧ size s = 0 ∧ isEmpty s = true ∧ numLayers s = 2
    ∧ allKeysInOrder s = Ok []
    ∧ ∀ k, find s k = KeyNotFound ∧ height s k = KeyNotFound
        ∧ nextKey s k = KeyNotFound ∧ previousKey s k = KeyNotFound.
Proof.
  destruct ctor_Rep as (s & Hs & HR & HK & HL). exists s.
  unfold size, isEmpty, numLayers. rewrite HK, HL. split_and!; try done.
  - by rewrite (allKeysInOrder_spec _ _ HR).
  - intros k.
    assert (k ∉ keys_of [Col NegInf [2; 0]%nat; Col PosInf [3; 1]%nat]) as Hk
      by apply not_elem_of_nil.
    split_and!.
    + by eapply find_absent.
    + by eapply height_absent.
    + by eapply nextKey_absent.
    + by eapply previousKey_absent.
Qed.

(** ** A key whose flips are all heads *)

Lemma count_flips_heads k max_flips fuel :
  (∀ i, i + 1 < max_flips → flipCoin k i = true) →
  ∀ height, (N.to_nat max_flips ≤ fuel + N.to_nat height)%nat →
  height + 1 ≤ max_flips →
  count_flips fuel k max_flips height = max_flips - 1.
Proof.
  intros Hheads. induction fuel as [|fuel IH]; intros height Hfuel Hh; [lia|].
  simpl. destruct (N.ltb_spec (height + 1) max_flips) as [Hlt|Hge].
  - rewrite (Hheads height Hlt). simpl. apply IH; lia.
  - rewrite andb_false_r. lia.
Qed.

(** X15: the bound of [insert] on the height of a key is reached: on every
    reachable list, a new key whose flips below the cutoff are all heads
    gets the cutoff as its height, and the list gets one layer more than
    that if it had fewer. *)
Theorem insert_all_heads s k v :
  reachable s → ¬ present s k →
  (∀ i, i + 1 < max_flips_of (size s + 1) → flipCoin k i = true) →
  ∃ s', insert s k v = Ok (true, s')
    ∧ height s' k = Ok (max_flips_of (size s + 1))
    ∧ numLayers s' = N.max (numLayers s) (max_flips_of (size s + 1) + 1).
Proof.
  intros Hs Hk Hheads.
  destruct (insert_new_height s k v Hs Hk) as (s' & Hins & HL & _ & Hh).
  pose proof (max_flips_of_ge (size s + 1)) as Hge.
  assert (flips_of k (size s + 1) = max_flips_of (size s + 1) - 1) as E.
  { unfold flips_of. apply count_flips_heads; [done|lia|lia]. }
  rewrite E in Hins, HL, Hh. exists s'. split_and!.
  - by eapply insert_flips_insert.
  - rewrite Hh. f_equal. lia.
  - rewrite HL. f_equal. lia.
Qed.

(** ** Heights in a list of up to 16 keys *)

Lemma flips_of_small k n : n ≤ 16 → flips_of k n = flips_of k 1.
Proof.
  intros Hn%N.leb_le. unfold flips_of, max_flips_of. by rewrite Hn.
Qed.

Lemma insert_all_heights kvs :
  ∀ s cols, Rep s cols → NoDup kvs.*1 →
  (∀ k, k ∈ kvs.*1 → k ∉ keys_of cols) →
  num_keys s + N.of_nat (length kvs) ≤ 16 →
  (∀ col k, col ∈ cols → ckind col = Real k →
     length (caddrs col) = S (N.to_nat (flips_of k 1))) →
  ∃ s' cols', insert_all s kvs = Ok (replicate (length kvs) true, s')
    ∧ Rep s' cols'
    ∧ (∀ k, k ∈ kvs.*1 ∨ k ∈ keys_of cols → k ∈ keys_of cols')
    ∧ (∀ col k, col ∈ cols' → ckind col = Real k →
         length (caddrs col) = S (N.to_nat (flips_of k 1))).
Proof.
  induction kvs as [|[k0 v0] kvs IH]; intros s cols HR Hnd Hnew Hsmall Hh.
  { exists s, cols. split_and!; try done.
    intros k [Hk|Hk]; [by apply elem_of_nil in Hk|done]. }
  rewrite fmap_cons in Hnd, Hnew. simpl in Hnd, Hnew, Hsmall.
  apply NoDup_cons in Hnd as [Hk0 Hnd].
  destruct (insert_absent s cols k0 v0 HR) as (s1 & ? & ? & ? & ? & Hins & _).
  { apply Hnew. by left. }
  destruct (insert_new_shape _ _ _ _ _ _ HR Hins)
    as (hs & m1 & m2 & ts & hs' & as' & ts' & E & HR1 & _ & _ & Hlen & _ & HK & _).
  assert (∀ k, k ∈ keys_of (Col NegInf hs' :: (m1 ++ Col (Real k0) as' :: m2)
                              ++ [Col PosInf ts'])
               ↔ k = k0 ∨ k ∈ keys_of cols) as Hkeys.
  { intros k. rewrite E, !keys_of_cons, !keys_of_app, !keys_of_cons. simpl.
    rewrite !app_nil_r, !elem_of_app, elem_of_cons. tauto. }
  destruct (IH s1 _ HR1 Hnd) as (s' & cols' & Hall & HR' & Hin & Hh').
  - intros k Hk [->|Hold]%Hkeys; [done|]. apply (Hnew k); [by right|done].
  - lia.
  - intros col k Hcol Hck. apply (real_in_shape _ _ _ _ k) in Hcol; [|done].
    apply elem_of_app in Hcol as [Hcol|[->|Hcol]%elem_of_cons].
    + apply (Hh col k); [|done]. rewrite E. apply mid_in_shape, elem_of_app. by left.
    + simpl in Hck. injection Hck as <-. simpl.
      rewrite Hlen, (flips_of_small k0 (num_keys s + 1)); [done|lia].
    + apply (Hh col k); [|done]. rewrite E. apply mid_in_shape, elem_of_app. by right.
  - exists s', cols'. split_and!; [|done| |done].
    + simpl. rewrite (insert_flips_insert _ _ _ _ _ _ Hins). cbn [bind]. simpl.
      by rewrite Hall.
    + intros k Hk. apply Hin. rewrite Hkeys, fmap_cons, elem_of_cons in *.
      simpl in Hk. tauto.
Qed.

(** X18: in a new list filled with up to 16 distinct keys, the height of a
    key depends on the key alone, not on the other keys nor on the order of
    the insertions: it is one more than the number of promotions that the
    loop of [insert] makes for the key under the cutoff 12. *)
Theorem heights_up_to_16_keys kvs :
  NoDup kvs.*1 → (length kvs ≤ 16)%nat →
  ∃ s0 s, SkipList_ctor = Ok s0
    ∧ insert_all s0 kvs = Ok (replicate (length kvs) true, s)
    ∧ ∀ k, k ∈ kvs.*1 → height s k = Ok (count_flips 12 k 12 0 + 1).
Proof.
  intros Hnd Hlen. destruct ctor_Rep as (s0 & Hs0 & HR0 & HK & _).
  destruct (insert_all_heights kvs s0 _ HR0 Hnd) as (s & cols & Hall & HR & Hin & Hh).
  - intros k _ Hk. by apply elem_of_nil in Hk.
  - lia.
  - intros col k [->|[->|Hc]%elem_of_cons]%elem_of_cons; [done|done|].
    by apply elem_of_nil in Hc.
  - exists s0, s. split_and!; [done|done|]. intros k Hk.
    assert (k ∈ keys_of cols) as (col & Hcol & Hck)%elem_of_keys_of
      by (apply Hin; by left).
    rewrite (height_present s cols col k HR Hcol Hck), (Hh col k Hcol Hck).
    f_equal. change (flips_of k 1) with (count_flips 12 k 12 0). lia.
Qed.

End Shape.

(** * The two key types of the tests *)

#[export] Instance unsigned_laws : KeyLaws N.
Proof.
  split; simpl.
  - intros a b. apply N.eqb_eq.
  - intros a b. rewrite !N.leb_le. lia.
  - intros a b. rewrite !N.leb_le. lia.
  - intros a b c. rewrite !N.leb_le. lia.
Qed.

Lemma string_leb_trans (a b c : string) :
  String.leb a b = true → String.leb b c = true → String.leb a c = true.
Proof.
  unfold String.leb. revert b c.
  induction a as [|x a IH]; intros [|y b] [|z c]; simpl; try done.
  unfold Ascii.compare.
  destruct (N.compare_spec (N_of_ascii x) (N_of_ascii y)) as [Exy|Lxy|Gxy];
    destruct (N.compare_spec (N_of_ascii y) (N_of_ascii z)) as [Eyz|Lyz|Gyz];
    try done.
  - rewrite Exy, Eyz, N.compare_refl. apply IH.
  - intros _ _. rewrite Exy. by apply N.compare_lt_iff in Lyz as ->.
  - intros _ _. rewrite <-Eyz. by apply N.compare_lt_iff in Lxy as ->.
  - intros _ _. assert (N_of_ascii x < N_of_ascii z) as Hlt by lia.
    by apply N.compare_lt_iff in Hlt as ->.
Qed.

#[export] Instance string_laws : KeyLaws string.
Proof.
  split; simpl.
  - intros a b. apply String.eqb_eq.
  - intros a b. destruct (String.leb_total a b); auto.
  - intros a b H1 H2. by apply String.leb_antisym.
  - intros a b c H1 H2. by eapply string_leb_trans.
Qed.

(** * The worked scenarios *)

(** C9: the empty string has fingerprint 0, so [flipCoin("", i)] is
    false for every [i]; inserting the empty string as a new key into a
    reachable list promotes nothing, leaves [numLayers()] as it was, and
    gives the key height 1. *)
Theorem empty_string_key {Value : Type} `{VD : DefaultCtor Value}
    (s : SkipList string Value) (v : Value) :
  reachable s → ¬ present s ""%string →
  (∀ previousFlips, flipCoin_string "" previousFlips = false)
  ∧ ∃ s', insert_flips s ""%string v = Ok (true, s', 0)
      ∧ numLayers s' = numLayers s
      ∧ height s' ""%string = Ok 1.
Proof.
  intros Hs Hk.
  assert (∀ previousFlips, flipCoin_string "" previousFlips = false) as Hflip.
  { intros i. unfold flipCoin_string, coin_bit. simpl. reflexivity. }
  split; [done|].
  destruct (insert_new_height s ""%string v Hs Hk) as (s' & Hins & HL & H2 & Hh).
  rewrite (flips_of_tails ""%string) in Hins, HL, Hh by apply Hflip.
  exists s'. split_and!; [done| |done]. lia.
Qed.

(** The loop of the heights tests:
    [sl.insert(i, i); heights.push_back(sl.height(i));] *)
Fixpoint insert_heights (s : SkipList N N) (keys : list N)
    : result (list N * SkipList N N) :=
  match keys with
  | [] => Ok ([], s)
  | i :: keys =>
    let* bs := insert s i i in
    let* h := height bs.2 i in
    let* r := insert_heights bs.2 keys in
    Ok (h :: r.1, r.2)
  end.

(** C4: on a new list of unsigned keys, inserting 0 to 9 in ascending
    order and reading [height(i)] after each insertion gives
    1, 2, 1, 3, 1, 2, 1, 4, 1, 2; inserting 255 next gives [height(255)] = 12
    and [numLayers()] = 13. *)
Theorem involved_heights_test :
  (let* s0 := SkipList_ctor in
   let* r := insert_heights s0 [0; 1; 2; 3; 4; 5; 6; 7; 8; 9] in
   let* bs := insert r.2 255 255 in
   let* h := height bs.2 255 in
   Ok (r.1, bs.1, h, numLayers bs.2))
  = Ok ([1; 2; 1; 3; 1; 2; 1; 4; 1; 2], true, 12, 13).
Proof. vm_compute. reflexivity. Qed.

(** ** Concrete lists *)

Definition or_default {A : Type} (d : A) (r : result A) : A :=
  match r with Ok a => a | _ => d end.

(** [SkipList<unsigned, unsigned> sl;] *)
Definition empty_list : SkipList N N :=
  Eval vm_compute in or_default (mkSkipList 0 0 None None []) SkipList_ctor.

(** [sl.insert(3, 30); sl.insert(1, 10); sl.insert(2, 20);] *)
Definition demo_list : SkipList N N :=
  Eval vm_compute in
    or_default empty_list
      (let* r := insert_all empty_list [(3, 30); (1, 10); (2, 20)] in Ok r.2).

(** [SkipList<std::string, unsigned> sl;] *)
Definition empty_string_list : SkipList string N :=
  Eval vm_compute in or_default (mkSkipList 0 0 None None []) SkipList_ctor.

Lemma reachable_empty_list : reachable empty_list.
Proof. apply reach_ctor. reflexivity. Qed.

Lemma reachable_demo_list : reachable demo_list.
Proof.
  apply (insert_all_reachable [(3, 30); (1, 10); (2, 20)] empty_list
           [true; true; true]); [apply reachable_empty_list|].
  vm_compute. reflexivity.
Qed.

Lemma reachable_empty_string_list : reachable empty_string_list.
Proof. apply reach_ctor. reflexivity. Qed.

Lemma demo_list_keys : allKeysInOrder demo_list = Ok [1; 2; 3].
Proof. vm_compute. reflexivity. Qed.

Lemma demo_list_without_5 : ¬ present demo_list 5.
Proof.
  intros (ks & Hks & Hin). rewrite demo_list_keys in Hks. injection Hks as <-.
  revert Hin. rewrite !elem_of_cons, elem_of_nil. lia.
Qed.

Lemma demo_list_with_1 : present demo_list 1.
Proof. exists [1; 2; 3]. split; [apply demo_list_keys|]. by left. Qed.

Lemma empty_string_list_without_empty : ¬ present empty_string_list ""%string.
Proof.
  intros (ks & Hks & Hin). vm_compute in Hks. injection Hks as <-.
  by apply elem_of_nil in Hin.
Qed.

(** What the two functions return on keys that are absent. *)
Lemma smallest_largest_absent :
  allKeysInOrder empty_list = Ok []
  ∧ isSmallestKey empty_list 0 = Ok true ∧ isLargestKey empty_list 0 = Ok true
  ∧ isSmallestKey empty_list 1 = Ok false ∧ isLargestKey empty_list 1 = Ok false
  ∧ isSmallestKey demo_list 0 = Ok false ∧ isLargestKey demo_list 101 = Ok false.
Proof. vm_compute. by split_and!. Qed.

(** ** The theorems at concrete lists *)

Lemma smallest_largest_return_witness :
  reachable empty_list
  ∧ (∃ b, isSmallestKey empty_list 1 = Ok b)
  ∧ (∃ b, isLargestKey empty_list 1 = Ok b).
Proof.
  split; [apply reachable_empty_list|].
  apply (smallest_largest_return empty_list 1 reachable_empty_list).
Defined.

Lemma insert_duplicate_witness :
  reachable demo_list ∧ present demo_list 1
  ∧ ∃ s' v0, insert demo_list 1 99 = Ok (false, s') ∧ s' = demo_list
      ∧ find demo_list 1 = Ok v0 ∧ find s' 1 = Ok v0
      ∧ size s' = size demo_list.
Proof.
  split; [apply reachable_demo_list|]. split; [apply demo_list_with_1|].
  apply (insert_duplicate demo_list 1 reachable_demo_list demo_list_with_1 99).
Defined.

Lemma height_bounded_by_cutoff_witness :
  reachable demo_list ∧ ¬ present demo_list 5
  ∧ ∃ s1, insert_flips demo_list 5 50 = Ok (true, s1, flips_of 5 (size s1))
      ∧ size s1 = size demo_list + 1
      ∧ max_flips_of (size s1) =
          (if size s1 <=? 16 then 12 else 3 * N.log2_up (size s1))
      ∧ ∀ s2, rtc step s1 s2 →
          ∃ h, height s2 5 = Ok h ∧ h = flips_of 5 (size s1) + 1
            ∧ 1 ≤ h ∧ h ≤ max_flips_of (size s1).
Proof.
  split; [apply reachable_demo_list|]. split; [apply demo_list_without_5|].
  apply (height_bounded_by_cutoff demo_list 5 50 reachable_demo_list
           demo_list_without_5).
Defined.

Lemma nextKey_previousKey_spec_witness :
  reachable demo_list ∧ allKeysInOrder demo_list = Ok [1; 2; 3]
  ∧ (nextKey demo_list 2 = KeyNotFound ↔ (2 ∉ [1; 2; 3]) ∨ is_largest [1; 2; 3] 2)
  ∧ (previousKey demo_list 2 = KeyNotFound
       ↔ (2 ∉ [1; 2; 3]) ∨ is_smallest [1; 2; 3] 2)
  ∧ (2 ∈ [1; 2; 3] → ¬ is_largest [1; 2; 3] 2 →
       ∃ k', nextKey demo_list 2 = Ok k' ∧ is_successor [1; 2; 3] 2 k')
  ∧ (2 ∈ [1; 2; 3] → ¬ is_smallest [1; 2; 3] 2 →
       ∃ k', previousKey demo_list 2 = Ok k' ∧ is_predecessor [1; 2; 3] 2 k').
Proof.
  split; [apply reachable_demo_list|]. split; [apply demo_list_keys|].
  apply (nextKey_previousKey_spec demo_list [1; 2; 3] 2 reachable_demo_list
           demo_list_keys).
Defined.

Lemma demo_keys_NoDup : NoDup [(3, 30); (1, 10); (2, 20)].*1.
Proof. apply (bool_decide_unpack _). vm_compute. exact I. Qed.

Lemma allKeysInOrder_sorted_witness :
  NoDup [(3, 30); (1, 10); (2, 20)].*1
  ∧ ∃ (s0 s : SkipList N N) ks,
      SkipList_ctor = Ok s0
      ∧ insert_all s0 [(3, 30); (1, 10); (2, 20)] = Ok (replicate 3 true, s)
      ∧ allKeysInOrder s = Ok ks
      ∧ StronglySorted key_lt ks
      ∧ ks ≡ₚ [(3, 30); (1, 10); (2, 20)].*1
      ∧ ∀ kvs', kvs'.*1 ≡ₚ [(3, 30); (1, 10); (2, 20)].*1 →
          ∃ s', insert_all s0 kvs' = Ok (replicate (length kvs') true, s')
            ∧ allKeysInOrder s' = Ok ks.
Proof.
  split; [apply demo_keys_NoDup|].
  apply (allKeysInOrder_sorted [(3, 30); (1, 10); (2, 20)] demo_keys_NoDup).
Defined.

Lemma layers_invariant_witness :
  reachable demo_list
  ∧ 2 ≤ numLayers demo_list
  ∧ top_layer_keys demo_list = Ok []
  ∧ (∀ s', step demo_list s' → numLayers demo_list ≤ numLayers s')
  ∧ (∀ k v b s' flips, insert_flips demo_list k v = Ok (b, s', flips) →
       numLayers demo_list ≤ numLayers s'
       ∧ numLayers s' ≤ numLayers demo_list + flips).
Proof.
  split; [apply reachable_demo_list|].
  apply (layers_invariant demo_list reachable_demo_list).
Defined.

Lemma insert_find_roundtrip_witness :
  reachable demo_list ∧ ¬ present demo_list 5
  ∧ ∃ s', insert demo_list 5 50 = Ok (true, s') ∧ find s' 5 = Ok 50
      ∧ ∀ w, ∃ r s'', find_ref s' 5 = Ok r ∧ assign s' r w = Ok s''
          ∧ find s'' 5 = Ok w.
Proof.
  split; [apply reachable_demo_list|]. split; [apply demo_list_without_5|].
  apply (insert_find_roundtrip demo_list 5 50 reachable_demo_list
           demo_list_without_5).
Defined.

Lemma empty_string_key_witness :
  reachable empty_string_list ∧ ¬ present empty_string_list ""%string
  ∧ (∀ previousFlips, flipCoin_string "" previousFlips = false)
  ∧ ∃ s', insert_flips empty_string_list ""%string 7 = Ok (true, s', 0)
      ∧ numLayers s' = numLayers empty_string_list
      ∧ height s' ""%string = Ok 1.
Proof.
  split; [apply reachable_empty_string_list|].
  split; [apply empty_string_list_without_empty|].
  apply (empty_string_key empty_string_list 7 reachable_empty_string_list
           empty_string_list_without_empty).
Defined.

Lemma insert_new_frame_witness :
  reachable demo_list ∧ ¬ present demo_list 5
  ∧ ∃ s', insert demo_list 5 50 = Ok (true, s')
      ∧ size s' = size demo_list + 1
      ∧ ∀ k' v', find demo_list k' = Ok v' → find s' k' = Ok v'.
Proof.
  split; [apply reachable_demo_list|]. split; [apply demo_list_without_5|].
  apply (insert_new_frame demo_list 5 50 reachable_demo_list
           demo_list_without_5).
Defined.

(** * The coins of the two key types *)

Lemma coin_bit_testbit (c : Z) (previousFlips : N) :
  coin_bit c previousFlips = Z.testbit c (Z.of_N (previousFlips mod 8)).
Proof.
  unfold coin_bit. rewrite Z.shiftl_1_l.
  assert (0 ≤ Z.of_N (previousFlips mod 8))%Z as Hi by apply N2Z.is_nonneg.
  set (i := Z.of_N (previousFlips mod 8)) in *.
  destruct (Z.testbit c i) eqn:E.
  - apply negb_true_iff, Z.eqb_neq. intros H0.
    assert (Z.testbit (Z.land c (2 ^ i)) i = true) as Hb.
    { by rewrite Z.land_spec, E, Z.pow2_bits_true. }
    rewrite H0, Z.bits_0 in Hb. done.
  - apply negb_false_iff, Z.eqb_eq, Z.bits_inj'. intros n Hn.
    rewrite Z.land_spec, Z.bits_0, Z.pow2_bits_eqb by done.
    destruct (Z.eqb_spec i n) as [->|_]; [by rewrite E|apply andb_false_r].
Qed.

Lemma to_char_testbit (z i : Z) :
  (0 ≤ i < 8)%Z → Z.testbit (to_char z) i = Z.testbit z i.
Proof.
  intros Hi. unfold to_char.
  rewrite <-(Z.mod_pow2_bits_low ((z + 128) mod 256 - 128) 8 i) by lia.
  rewrite <-(Z.mod_pow2_bits_low z 8 i) by lia. f_equal.
  change (2 ^ 8)%Z with 256%Z. rewrite Zminus_mod_idemp_l. f_equal. lia.
Qed.

Lemma byte_masks (i : N) :
  i < 8 →
  N.testbit 0xFF000000 (i + 24) = true ∧ N.testbit 0x00FF0000 (i + 16) = true
  ∧ N.testbit 0x0000FF00 (i + 8) = true ∧ N.testbit 0x000000FF i = true.
Proof.
  intros Hi.
  assert (i = 0 ∨ i = 1 ∨ i = 2 ∨ i = 3 ∨ i = 4 ∨ i = 5 ∨ i = 6 ∨ i = 7)
    as [->|[->|[->|[->|[->|[->|[->| ->]]]]]]] by lia; by vm_compute.
Qed.

(** X16: [flipCoin(key, previousFlips)] for an [unsigned] key is the parity
    of the bits of the four bytes of the key at position
    [previousFlips % 8]. *)
Theorem flipCoin_unsigned_parity (key previousFlips : N) :
  flipCoin_unsigned key previousFlips =
    let i := previousFlips mod 8 in
    xorb (xorb (xorb (N.testbit key (i + 24)) (N.testbit key (i + 16)))
            (N.testbit key (i + 8)))
         (N.testbit key i).
Proof.
  unfold flipCoin_unsigned. rewrite coin_bit_testbit. cbv zeta.
  assert (previousFlips mod 8 < 8) as Hi by (by apply N.mod_lt).
  set (i := previousFlips mod 8) in *.
  destruct (byte_masks i Hi) as (M3 & M2 & M1 & M0).
  rewrite to_char_testbit by lia. rewrite Z.testbit_of_N, !N.lxor_spec.
  change 0x01000000 with (2 ^ 24). change 0x00010000 with (2 ^ 16).
  change 0x00000100 with (2 ^ 8).
  rewrite <-!N.shiftr_div_pow2, !N.shiftr_spec', !N.land_spec.
  by rewrite M3, M2, M1, M0, !andb_true_r.
Qed.







(** * The further theorems at concrete lists *)

(** [demo_list], then [sl.insert(5, 50);] *)
Definition demo_list_5 : SkipList N N :=
  Eval vm_compute in
    or_default demo_list (let* r := insert demo_list 5 50 in Ok r.2).

Lemma step_demo_list : step demo_list demo_list_5.
Proof. apply (step_insert demo_list 5 50 true). vm_compute. reflexivity. Qed.

Lemma demo_keys_without_5 : 5 ∉ [1; 2; 3].
Proof. rewrite !elem_of_cons, elem_of_nil. lia. Qed.

Lemma heads_of_255 :
  ∀ i, i + 1 < max_flips_of (size demo_list + 1) → flipCoin 255 i = true.
Proof.
  intros i Hi. change (max_flips_of (size demo_list + 1)) with 12 in Hi.
  assert (i = 0 ∨ i = 1 ∨ i = 2 ∨ i = 3 ∨ i = 4 ∨ i = 5 ∨ i = 6 ∨ i = 7
          ∨ i = 8 ∨ i = 9 ∨ i = 10)
    as [->|[->|[->|[->|[->|[->|[->|[->|[->|[->| ->]]]]]]]]]] by lia;
    by vm_compute.
Qed.

Lemma demo_list_without_255 : ¬ present demo_list 255.
Proof.
  intros (ks & Hks & Hin). rewrite demo_list_keys in Hks. injection Hks as <-.
  revert Hin. rewrite !elem_of_cons, elem_of_nil. lia.
Qed.

Lemma size_counts_keys_witness :
  reachable demo_list
  ∧ ∃ ks, allKeysInOrder demo_list = Ok ks
      ∧ StronglySorted key_lt ks
      ∧ size demo_list = N.of_nat (length ks)
      ∧ (isEmpty demo_list = true ↔ ks = []).
Proof.
  split; [apply reachable_demo_list|].
  apply (size_counts_keys demo_list reachable_demo_list).
Defined.

Lemma lookup_throws_iff_absent_witness :
  reachable demo_list
  ∧ (present demo_list 1 →
       (∃ v, find demo_list 1 = Ok v)
       ∧ ∃ h, height demo_list 1 = Ok h ∧ 1 ≤ h ∧ h < numLayers demo_list)
  ∧ (¬ present demo_list 1 →
       find demo_list 1 = KeyNotFound ∧ height demo_list 1 = KeyNotFound).
Proof.
  split; [apply reachable_demo_list|].
  apply (lookup_throws_iff_absent demo_list 1 reachable_demo_list).
Defined.

Lemma nextKey_previousKey_inverse_witness :
  reachable demo_list
  ∧ (nextKey demo_list 1 = Ok 2 ↔ previousKey demo_list 2 = Ok 1).
Proof.
  split; [apply reachable_demo_list|].
  apply (nextKey_previousKey_inverse demo_list 1 2 reachable_demo_list).
Defined.

Lemma assign_frame_witness :
  reachable demo_list ∧ present demo_list 1
  ∧ ∃ r s', find_ref demo_list 1 = Ok r ∧ assign demo_list r 99 = Ok s'
      ∧ find s' 1 = Ok 99
      ∧ (∀ k', k' ≠ 1 → find s' k' = find demo_list k')
      ∧ allKeysInOrder s' = allKeysInOrder demo_list
      ∧ size s' = size demo_list ∧ numLayers s' = numLayers demo_list
      ∧ (∀ k', height s' k' = height demo_list k').
Proof.
  split; [apply reachable_demo_list|]. split; [apply demo_list_with_1|].
  apply (assign_frame demo_list 1 99 reachable_demo_list demo_list_with_1).
Defined.

Lemma insert_new_order_witness :
  reachable demo_list ∧ allKeysInOrder demo_list = Ok [1; 2; 3]
  ∧ (5 ∉ [1; 2; 3])
  ∧ ∃ s' l1 l2, insert demo_list 5 50 = Ok (true, s')
      ∧ [1; 2; 3] = l1 ++ l2
      ∧ allKeysInOrder s' = Ok (l1 ++ 5 :: l2)
      ∧ (∀ x, x ∈ l1 → key_lt x 5) ∧ (∀ x, x ∈ l2 → key_lt 5 x)
      ∧ (∀ k', k' ≠ 5 → height s' k' = height demo_list k').
Proof.
  split; [apply reachable_demo_list|]. split; [apply demo_list_keys|].
  split; [apply demo_keys_without_5|].
  apply (insert_new_order demo_list [1; 2; 3] 5 50 reachable_demo_list
           demo_list_keys demo_keys_without_5).
Defined.

Lemma step_keeps_keys_witness :
  reachable demo_list ∧ step demo_list demo_list_5 ∧ present demo_list 1
  ∧ present demo_list_5 1 ∧ height demo_list_5 1 = height demo_list 1.
Proof.
  split; [apply reachable_demo_list|]. split; [apply step_demo_list|].
  split; [apply demo_list_with_1|].
  apply (step_keeps_keys demo_list demo_list_5 1 reachable_demo_list
           step_demo_list demo_list_with_1).
Defined.

Lemma layers_one_above_tallest_witness :
  reachable demo_list ∧ allKeysInOrder demo_list = Ok [1; 2; 3]
  ∧ (∀ k, k ∈ [1; 2; 3] →
       ∃ h, height demo_list k = Ok h ∧ h + 1 ≤ numLayers demo_list)
  ∧ ([1; 2; 3] = [] → numLayers demo_list = 2)
  ∧ ([1; 2; 3] ≠ [] →
       ∃ k, k ∈ [1; 2; 3] ∧ height demo_list k = Ok (numLayers demo_list - 1)).
Proof.
  split; [apply reachable_demo_list|]. split; [apply demo_list_keys|].
  apply (layers_one_above_tallest demo_list [1; 2; 3] reachable_demo_list
           demo_list_keys).
Defined.

Lemma layers_bounded_by_cutoff_witness :
  reachable demo_list
  ∧ numLayers demo_list ≤ max_flips_of (size demo_list) + 1
  ∧ (size demo_list ≤ 16 → numLayers demo_list ≤ 13)
  ∧ (16 < size demo_list →
       numLayers demo_list ≤ 3 * N.log2_up (size demo_list) + 1)
  ∧ ∀ k h, height demo_list k = Ok h → h ≤ max_flips_of (size demo_list).
Proof.
  split; [apply reachable_demo_list|].
  apply (layers_bounded_by_cutoff demo_list reachable_demo_list).
Defined.

Lemma smallest_largest_result_witness :
  reachable demo_list ∧ allKeysInOrder demo_list = Ok [1; 2; 3]
  ∧ isSmallestKey demo_list 1
      = Ok (key_eq (default default_ctor (hd_error [1; 2; 3])) 1)
  ∧ isLargestKey demo_list 1
      = Ok (key_eq (default default_ctor (last [1; 2; 3])) 1)
  ∧ (1 ∈ [1; 2; 3] →
       (isSmallestKey demo_list 1 = Ok true ↔ is_smallest [1; 2; 3] 1)
       ∧ (isLargestKey demo_list 1 = Ok true ↔ is_largest [1; 2; 3] 1)).
Proof.
  split; [apply reachable_demo_list|]. split; [apply demo_list_keys|].
  apply (smallest_largest_result demo_list [1; 2; 3] 1 reachable_demo_list
           demo_list_keys).
Defined.

Lemma node_count_witness :
  reachable demo_list ∧ allKeysInOrder demo_list = Ok [1; 2; 3]
  ∧ ∃ hts, Forall2 (λ k h, height demo_list k = Ok h) [1; 2; 3] hts
      ∧ N.of_nat (length (mem demo_list))
        = 2 * numLayers demo_list + foldr N.add 0 hts.
Proof.
  split; [apply reachable_demo_list|]. split; [apply demo_list_keys|].
  apply (node_count demo_list [1; 2; 3] reachable_demo_list demo_list_keys).
Defined.

Lemma dtor_deletes_every_node_once_witness :
  reachable demo_list
  ∧ ∃ freed, SkipList_dtor demo_list = Ok (None, freed)
      ∧ freed ≡ₚ seq 0 (length (mem demo_list)).
Proof.
  split; [apply reachable_demo_list|].
  apply (dtor_deletes_every_node_once demo_list reachable_demo_list).
Defined.

Lemma print_layers_witness :
  reachable demo_list ∧ allKeysInOrder demo_list = Ok [1; 2; 3]
  ∧ ∃ hts, Forall2 (λ k h, height demo_list k = Ok h) [1; 2; 3] hts
      ∧ print demo_list
        = Ok (printed (zip [1; 2; 3] hts) (N.to_nat (numLayers demo_list))).
Proof.
  split; [apply reachable_demo_list|]. split; [apply demo_list_keys|].
  apply (print_layers demo_list [1; 2; 3] reachable_demo_list demo_list_keys).
Defined.

Lemma insert_all_first_wins_witness :
  ∃ (s0 s : SkipList N N) ks, SkipList_ctor = Ok s0
    ∧ insert_all s0 [(2, 20); (1, 10); (2, 21)]
      = Ok (first_times [] [(2, 20); (1, 10); (2, 21)], s)
    ∧ allKeysInOrder s = Ok ks
    ∧ (∀ k, k ∈ ks ↔ k ∈ [(2, 20); (1, 10); (2, 21)].*1)
    ∧ ∀ k, find s k = match first_value [(2, 20); (1, 10); (2, 21)] k with
                      | Some v => Ok v
                      | None => KeyNotFound
                      end.
Proof. apply (insert_all_first_wins [(2, 20); (1, 10); (2, 21)]). Defined.

Lemma new_list_is_empty_witness :
  ∃ s : SkipList N N, SkipList_ctor = Ok s
    ∧ size s = 0 ∧ isEmpty s = true ∧ numLayers s = 2
    ∧ allKeysInOrder s = Ok []
    ∧ ∀ k, find s k = KeyNotFound ∧ height s k = KeyNotFound
        ∧ nextKey s k = KeyNotFound ∧ previousKey s k = KeyNotFound.
Proof. apply new_list_is_empty. Defined.

Lemma insert_all_heads_witness :
  reachable demo_list ∧ ¬ present demo_list 255
  ∧ (∀ i, i + 1 < max_flips_of (size demo_list + 1) → flipCoin 255 i = true)
  ∧ ∃ s', insert demo_list 255 7 = Ok (true, s')
      ∧ height s' 255 = Ok (max_flips_of (size demo_list + 1))
      ∧ numLayers s'
        = N.max (numLayers demo_list) (max_flips_of (size demo_list + 1) + 1).
Proof.
  split; [apply reachable_demo_list|]. split; [apply demo_list_without_255|].
  split; [apply heads_of_255|].
  apply (insert_all_heads demo_list 255 7 reachable_demo_list
           demo_list_without_255 heads_of_255).
Defined.

Lemma heights_up_to_16_keys_witness :
  NoDup [(3, 30); (1, 10); (2, 20)].*1
  ∧ (length [(3, 30); (1, 10); (2, 20)] ≤ 16)%nat
  ∧ ∃ (s0 s : SkipList N N), SkipList_ctor = Ok s0
      ∧ insert_all s0 [(3, 30); (1, 10); (2, 20)] = Ok (replicate 3 true, s)
      ∧ ∀ k, k ∈ [(3, 30); (1, 10); (2, 20)].*1 →
          height s k = Ok (count_flips 12 k 12 0 + 1).
Proof.
  split; [apply demo_keys_NoDup|]. split; [simpl; lia|].
  apply (heights_up_to_16_keys [(3, 30); (1, 10); (2, 20)] demo_keys_NoDup).
  simpl. lia.
Defined.
